(** * simulador_dhondt.py: the D'Hondt allocator and its helpers

    A shallow embedding of [dhondt], [sanitize], the percentage column and
    [quotient_matrix_top4] of [simulador_dhondt.py].

    Conventions.
    - A DataFrame with a default [RangeIndex] is the list of its rows; the
      index label of a row is its position.
    - Python [int] is [Z].  The value of a finite float is a rational [Q].
    - The script is modelled at two levels.  In exact arithmetic [v / d] is
      the exact quotient [true_div] and the sort is a parameter [argsort] of
      which only the contract is assumed (a permutation of the positions that
      puts the keys in non-increasing order); [dhondt] is the allocator at
      this level, and what is proved of it rests on the order of the
      quotients only.  In machine arithmetic a float is an IEEE double
      ([Binary64]: every operation rounds to the nearest double, halves to
      even), an integer column is int64, and the sort is the one the script
      runs: pandas' [nargsort] on NumPy's quicksort ([Numpy.aquicksort]),
      which [sort_values] uses by default and which is not stable;
      [dhondt_with Binary64.int_div] is the allocator at this level. *)

From Stdlib Require Import String Bool Arith Lia.
From Stdlib Require Import ZArith QArith Qround Qpower Lqa List Permutation Sorted.
From Stdlib Require Qcanon.
Import ListNotations.

Local Open Scope Z_scope.

(** ** NumPy's argsort

    [npy_aquicksort] of [numpy/_core/src/npysort/quicksort.cpp], the portable
    implementation behind [ndarray.argsort(kind="quicksort")]: an introsort
    on an array [tosort] of positions.  A range of more than 17 positions is
    partitioned around the median of its first, middle and last key; a
    smaller range is sorted by insertion; a range reached after
    [2 * floor(log2 n)] partitions is sorted by [aheapsort].  Pointers are
    positions in [tosort]; every loop runs at most [len(v)] times, which is
    the fuel it is given. *)

Module Numpy.
Local Open Scope nat_scope.

Section Argsort.
(** The key array [v]. *)
Variable v : list Q.

Definition key (i : nat) : Q := nth i v 0%Q.

(** [DOUBLE_LT] on keys that are not NaN. *)
Definition lt (a b : Q) : bool := negb (Qle_bool b a).

Definition get (t : list nat) (p : nat) : nat := nth p t 0.

Fixpoint put (t : list nat) (p x : nat) : list nat :=
  match t, p with
  | [], _ => []
  | _ :: t', O => x :: t'
  | y :: t', S p' => y :: put t' p' x
  end.

(** [INTP_SWAP] of the cells at [p] and [q]. *)
Definition swap (t : list nat) (p q : nat) : list nat :=
  put (put t p (get t q)) q (get t p).

(** [do ++pi; while (LT(v[*pi], vp));], entered after the first [++pi]. *)
Fixpoint scan_up (fuel : nat) (t : list nat) (vp : Q) (pi : nat) : nat :=
  match fuel with
  | O => pi
  | S f => if lt (key (get t pi)) vp then scan_up f t vp (S pi) else pi
  end.

(** [do --pj; while (LT(vp, v[*pj]));], entered after the first [--pj]. *)
Fixpoint scan_down (fuel : nat) (t : list nat) (vp : Q) (pj : nat) : nat :=
  match fuel with
  | O => pj
  | S f => if lt vp (key (get t pj)) then scan_down f t vp (pred pj) else pj
  end.

(** The [for (;;)] loop of the partition; returns the array and [pi]. *)
Fixpoint partition_loop (fuel : nat) (t : list nat) (vp : Q) (pi pj : nat)
  : list nat * nat :=
  match fuel with
  | O => (t, pi)
  | S f =>
      let pi' := scan_up (length t) t vp (S pi) in
      let pj' := scan_down (length t) t vp (pred pj) in
      if pj' <=? pi' then (t, pi')
      else partition_loop f (swap t pi' pj') vp pi' pj'
  end.

(** One pass of [while ((pr - pl) > SMALL_QUICKSORT)]: median of three,
    partition, pivot put in place; returns the array and [pi]. *)
Definition partition (t : list nat) (pl pr : nat) : list nat * nat :=
  let pm := pl + (pr - pl) / 2 in
  let t := if lt (key (get t pm)) (key (get t pl)) then swap t pm pl else t in
  let t := if lt (key (get t pr)) (key (get t pm)) then swap t pr pm else t in
  let t := if lt (key (get t pm)) (key (get t pl)) then swap t pm pl else t in
  let vp := key (get t pm) in
  let pj := pr - 1 in
  let t := swap t pm pj in
  let '(t, pi) := partition_loop (length t) t vp pl pj in
  (swap t pi (pr - 1), pi).

(** The insertion sort of a small range [pl .. pr]. *)
Fixpoint shift (fuel : nat) (t : list nat) (pl : nat) (vp : Q) (pj : nat)
  : list nat * nat :=
  match fuel with
  | O => (t, pj)
  | S f =>
      if (pl <? pj) && lt vp (key (get t (pj - 1)))
      then shift f (put t pj (get t (pj - 1))) pl vp (pj - 1)
      else (t, pj)
  end.

Definition insert_at (t : list nat) (pl pi : nat) : list nat :=
  let vi := get t pi in
  let '(t, pj) := shift (length t) t pl (key vi) pi in
  put t pj vi.

Definition insertion_sort (t : list nat) (pl pr : nat) : list nat :=
  fold_left (fun t pi => insert_at t pl pi) (seq (S pl) (pr - pl)) t.

(** [aheapsort] on the [n] positions from [pl]; its array [a] is
    [tosort - 1], so [a[i]] is the cell at [pl + i - 1]. *)
Definition hget (t : list nat) (pl i : nat) : nat := get t (pl + i - 1).

Definition hput (t : list nat) (pl i x : nat) : list nat := put t (pl + i - 1) x.

Fixpoint sift (fuel : nat) (t : list nat) (pl n tmp i j : nat) : list nat :=
  match fuel with
  | O => hput t pl i tmp
  | S f =>
      if j <=? n then
        let j := if (j <? n) && lt (key (hget t pl j)) (key (hget t pl (j + 1)))
                 then j + 1 else j in
        if lt (key tmp) (key (hget t pl j))
        then sift f (hput t pl i (hget t pl j)) pl n tmp j (j + j)
        else hput t pl i tmp
      else hput t pl i tmp
  end.

Fixpoint heapify (t : list nat) (pl n l : nat) : list nat :=
  match l with
  | O => t
  | S l' => heapify (sift n t pl n (hget t pl l) l (2 * l)) pl n l'
  end.

Fixpoint sortdown (t : list nat) (pl n : nat) : list nat :=
  match n with
  | O => t
  | S O => t
  | S n' =>
      let tmp := hget t pl n in
      let t := hput t pl n (hget t pl 1) in
      sortdown (sift n t pl n' tmp 1 2) pl n'
  end.

Definition aheapsort (t : list nat) (pl n : nat) : list nat :=
  sortdown (heapify t pl n (n / 2)) pl n.

(** The partition loop on [pl .. pr]; the larger part goes on the stack
    with the depth left. *)
Fixpoint partitions (fuel : nat) (t : list nat) (pl pr : nat) (cdepth : Z)
    (stack : list (nat * nat * Z))
  : list nat * nat * nat * list (nat * nat * Z) :=
  match fuel with
  | O => (t, pl, pr, stack)
  | S f =>
      if 16 <? pr - pl then
        let '(t, pi) := partition t pl pr in
        let cdepth := (cdepth - 1)%Z in
        if pi - pl <? pr - pi
        then partitions f t pl (pi - 1) cdepth ((pi + 1, pr, cdepth) :: stack)
        else partitions f t (pi + 1) pr cdepth ((pl, pi - 1, cdepth) :: stack)
      else (t, pl, pr, stack)
  end.

(** The [while (1)] loop: one range per round, then the next from the
    stack. *)
Fixpoint sort_ranges (fuel : nat) (t : list nat) (pl pr : nat) (cdepth : Z)
    (stack : list (nat * nat * Z)) : list nat :=
  match fuel with
  | O => t
  | S f =>
      let '(t, stack) :=
        if (cdepth <? 0)%Z then (aheapsort t pl (pr - pl + 1), stack)
        else
          let '(t, pl, pr, stack) := partitions (length t) t pl pr cdepth stack in
          (insertion_sort t pl pr, stack) in
      match stack with
      | [] => t
      | (pl, pr, cdepth) :: stack => sort_ranges f t pl pr cdepth stack
      end
  end.

(** [npy_aquicksort(v, tosort, num)] with [tosort = arange(num)]. *)
Definition aquicksort : list nat :=
  let num := length v in
  match num with
  | O => []
  | S _ =>
      sort_ranges (S num) (seq 0 num) 0 (num - 1)
                  (2 * Z.log2 (Z.of_nat num))%Z []
  end.
End Argsort.

End Numpy.

(** ** Pandas pieces used by the script *)

Module Pandas.

(** [df.iterrows()] on a frame whose index starts at [k]. *)
Fixpoint iterrows_from {A : Type} (k : nat) (df : list A) : list (nat * A) :=
  match df with
  | [] => []
  | r :: t => (k, r) :: iterrows_from (S k) t
  end.

Definition iterrows {A : Type} (df : list A) : list (nat * A) :=
  iterrows_from 0 df.

(** Python's [range(lo, hi)]. *)
Definition range (lo hi : Z) : list Z :=
  map (fun i => lo + Z.of_nat i) (seq 0 (Z.to_nat (hi - lo))).

(** [values.take(indexer)]: the rows at the given positions, in that order. *)
Fixpoint take {A : Type} (l : list A) (ix : list nat) : list A :=
  match ix with
  | [] => []
  | i :: ix' =>
      match nth_error l i with
      | Some x => x :: take l ix'
      | None => take l ix'
      end
  end.

(** Keys in non-increasing order. *)
Definition desc : list Q -> Prop := Sorted (fun a b => (b <= a)%Q).

(** The contract of a descending sort of the positions. *)
Record is_argsort (argsort : list Q -> list nat) : Prop := {
  argsort_perm : forall ks, Permutation (argsort ks) (seq 0 (length ks));
  argsort_desc : forall ks, desc (take ks (argsort ks))
}.

(** [i] occurs before [j] in [l]. *)
Definition before {A : Type} (i j : A) (l : list A) : Prop :=
  exists l1 l2 l3, l = l1 ++ i :: l2 ++ j :: l3.

(** What [kind="stable"] would add: equal keys keep their input order. *)
Definition is_stable (argsort : list Q -> list nat) : Prop :=
  forall ks i j ki kj,
    (i < j)%nat ->
    nth_error ks i = Some ki -> nth_error ks j = Some kj ->
    (ki == kj)%Q ->
    before i j (argsort ks).

(** [frame.sort_values(key, ascending=False, ignore_index=True)]. *)
Definition sort_values (argsort : list Q -> list nat)
    {A : Type} (key : A -> Q) (l : list A) : list A :=
  take l (argsort (map key l)).

(** *** A stable sort

    Insertion of a position into an already sorted list of positions; a new
    position goes in front of the first one it [beats]. *)
Section Insertion.
Variable ks : list Q.
Variable beats : Q -> Q -> bool.

Definition key_at (i : nat) : Q := nth i ks 0%Q.

Fixpoint insert (i : nat) (l : list nat) : list nat :=
  match l with
  | [] => [i]
  | j :: t =>
      if beats (key_at i) (key_at j) then i :: j :: t
      else j :: insert i t
  end.

Definition isort (l : list nat) : list nat := fold_right insert [] l.
End Insertion.

(** Descending and stable: a position goes before the later positions whose
    key is not larger. *)
Definition stable_argsort (ks : list Q) : list nat :=
  isort ks (fun a b => Qle_bool b a) (seq 0 (length ks)).

(** *** The sort that [sort_values] runs

    [nargsort(items, kind="quicksort", ascending=False)] on keys without
    NaN: the keys are reversed, NumPy sorts them in ascending order, and the
    positions are read back in reverse. *)
Definition nargsort (ks : list Q) : list nat :=
  let n := length ks in
  let non_nans := rev ks in
  let non_nan_idx := rev (seq 0 n) in
  let indexer :=
    map (fun i => nth i non_nan_idx 0%nat) (Numpy.aquicksort non_nans) in
  rev indexer.

End Pandas.

Import Pandas.

(** ** The allocator *)

(** A row of the vote table: columns [Partido] and [Votos]. *)
Record Row : Type := mkRow { Partido : string; Votos : Z }.

Definition DataFrame : Type := list Row.

(** A row of the quotient table before ranking. *)
Record Entry : Type := mkEntry {
  idx : nat;
  ePartido : string;
  Divisor : Z;
  Cociente : Q
}.

(** A row of the returned quotient table. *)
Record Ranked : Type := mkRanked {
  entry : Entry;
  Rank : Z;
  GanaEscano : bool
}.

(** [v / d] on Python ints: true division. *)
Definition true_div (v d : Z) : Q := (inject_Z v / inject_Z d)%Q.

(** [alloc.loc[i] += 1]. *)
Fixpoint incr (alloc : list Z) (i : nat) : list Z :=
  match alloc, i with
  | [], _ => []
  | a :: t, O => (a + 1) :: t
  | a :: t, S i' => a :: incr t i'
  end.

Section Allocator.
Variable argsort : list Q -> list nat.

(** Lines 67-71: the quotient rows of one vote row. *)
Definition quotients_of (seats_ : Z) (ir : nat * Row) : list Entry :=
  let '(i, r) := ir in
  let v := Votos r in
  map (fun d => mkEntry i (Partido r) d (true_div v d)) (range 1 (seats_ + 1)).

Definition build_rows (df_ : DataFrame) (seats_ : Z) : list Entry :=
  flat_map (quotients_of seats_) (iterrows df_).

(** Lines 73-74: [Rank] and [GanaEscaño]. *)
Definition rank_rows (seats_ : Z) (q : list Entry) : list Ranked :=
  map (fun ie : nat * Entry =>
         let rk := Z.of_nat (fst ie) + 1 in
         mkRanked (snd ie) rk (rk <=? seats_))
      (iterrows q).

(** Lines 75-77: one seat per winning row of the table. *)
Definition allocate (n : nat) (q : list Ranked) : list Z :=
  fold_left (fun alloc r => incr alloc (idx (entry r)))
            (filter GanaEscano q) (repeat 0 n).

Definition dhondt (df_ : DataFrame) (seats_ : Z) : list Z * list Ranked :=
  if (match df_ with [] => true | _ => false end || (seats_ <=? 0))%bool
  then ([], [])
  else
    let rows := build_rows df_ seats_ in
    let q := rank_rows seats_ (sort_values argsort Cociente rows) in
    (allocate (length df_) q, q).
End Allocator.

(** [alloc.sum()]. *)
Definition sum_Z (l : list Z) : Z := fold_right Z.add 0 l.

(** Seats of row [i] in an allocation (a row without entry has none). *)
Definition seats_won (alloc : list Z) (i : nat) : Z := nth i alloc 0.

(** Number of elements of [l] that satisfy [p]. *)
Definition cnt {A : Type} (p : A -> bool) (l : list A) : nat :=
  length (filter p l).

(** Quotient order on the rows of the quotient table. *)
Definition qge (x y : Entry) : Prop := (Cociente y <= Cociente x)%Q.

(** The vote table of scenario A. *)
Definition ex_A : DataFrame :=
  [mkRow "A" 100; mkRow "B" 50; mkRow "C" 10].

(** [allocate] only looks at the row label of the winners. *)
Definition tally (alloc : list Z) (ws : list Entry) : list Z :=
  fold_left (fun a e => incr a (idx e)) ws alloc.

(** [build_rows] on a frame whose index starts at [k]. *)
Definition build_from (k : nat) (df_ : DataFrame) (seats_ : Z) : list Entry :=
  flat_map (quotients_of seats_) (iterrows_from k df_).

(** The sorted quotient rows, before ranks are attached. *)
Definition sorted_rows (argsort : list Q -> list nat) (df_ : DataFrame) (seats_ : Z) : list Entry :=
  sort_values argsort Cociente (build_rows df_ seats_).

(** The rows that win a seat. *)
Definition winners (argsort : list Q -> list nat) (df_ : DataFrame) (seats_ : Z) : list Entry :=
  firstn (Z.to_nat seats_) (sorted_rows argsort df_ seats_).

(** Row label tests and quotient comparisons, as booleans. *)
Definition is_row (r : nat) (x : Entry) : bool := Nat.eqb (idx x) r.

Definition above (e : Entry) (x : Entry) : bool :=
  negb (Qle_bool (Cociente x) (Cociente e)).

Definition at_least (e : Entry) (x : Entry) : bool :=
  Qle_bool (Cociente e) (Cociente x).

(** The two quotient rows of value 50 in scenario A. *)
Definition entry_A2 : Entry := mkEntry 0 "A" 2 (true_div 100 2).

Definition entry_B1 : Entry := mkEntry 1 "B" 1 (true_div 50 1).

(** The vote table with the votes of row [r] replaced by [v]. *)
Fixpoint set_votos (df_ : DataFrame) (r : nat) (v : Z) : DataFrame :=
  match df_, r with
  | [], _ => []
  | x :: t, O => mkRow (Partido x) v :: t
  | x :: t, S r' => x :: set_votos t r' v
  end.

(** The tie-break rule as the specification words it: of two rows of the
    quotient table with equal quotients, the one of the earlier vote row has
    the smaller rank. *)
Definition ties_by_input_order (q : list Ranked) : Prop :=
  forall r1 r2,
    In r1 q -> In r2 q ->
    (Cociente (entry r1) == Cociente (entry r2))%Q ->
    (idx (entry r1) < idx (entry r2))%nat ->
    Rank r1 < Rank r2.

(** Four parties with the same votes: every quotient of one ties with a
    quotient of each of the others. *)
Definition ex_four : DataFrame :=
  [mkRow "A" 100; mkRow "B" 100; mkRow "C" 100; mkRow "D" 100].

(** Two parties without votes. *)
Definition ex_zero : DataFrame := [mkRow "A" 0; mkRow "B" 0].

(** Two parties with the same votes, above [2^55]. *)
Definition ex_big : DataFrame :=
  [mkRow "A" 36028797018963973; mkRow "B" 36028797018963973].

(** Two parties one vote apart, between [2^52] and [2^53]. *)
Definition ex_near : DataFrame :=
  [mkRow "A" 5084760718407272; mkRow "B" 5084760718407271].

(* ================================================================== *)
(** * The normaliser, the percentage column and the quotient matrix *)

(** [numpy.round]: to the nearest integer, halves to the even neighbour. *)
Definition round_half_even (x : Q) : Z :=
  let f := Qfloor x in
  match Qcompare (x - inject_Z f) (1 # 2) with
  | Lt => f
  | Gt => f + 1
  | Eq => if Z.even f then f else f + 1
  end.

(** [.astype(int)] on a finite float: the fractional part is dropped. *)
Definition astype_int (x : Q) : Z := Z.quot (Qnum x) (Zpos (Qden x)).

(** ** Machine numbers *)

(** IEEE 754 binary64 in its normal range, where every value the script
    computes from int64 votes lies: a double is a rational [m * 2^(e - 52)]
    with [2^52 <= m < 2^53], and the result of an operation is the double
    nearest to the exact result, halves going to the even [m]. *)
Module Binary64.

(** The binary exponent of a positive number: [2^e <= x < 2^(e + 1)]. *)
Definition exponent (x : Q) : Z :=
  let e := Z.log2 (Qnum x) - Z.log2 (Zpos (Qden x)) in
  if Qle_bool (2 ^ e) x then e else e - 1.

(** The gap between the doubles around [x]: 53 significant bits. *)
Definition ulp (x : Q) : Q := (2 ^ (exponent x - 52))%Q.

(** The double nearest to a positive [x]. *)
Definition nearest (x : Q) : Q :=
  Qred (inject_Z (round_half_even (x / ulp x)) * ulp x).

Definition round (x : Q) : Q :=
  match Qcompare x 0 with
  | Eq => 0%Q
  | Gt => nearest x
  | Lt => Qred (- nearest (- x))
  end.

(** Division and multiplication of doubles. *)
Definition div (a b : Q) : Q := round (a / b).

Definition mul (a b : Q) : Q := round (a * b).

(** An int64 read as a double. *)
Definition of_int (z : Z) : Q := round (inject_Z z).

(** [v / d] on Python ints: the double nearest to the exact quotient. *)
Definition int_div (v d : Z) : Q := round (inject_Z v / inject_Z d).

End Binary64.

(** A float that may be NaN or infinite. *)
Inductive Float : Type :=
| NaN
| PInf
| NInf
| Fin (x : Q).

(** The range of int64. *)
Definition int64_min : Z := - 2 ^ 63.

Definition int64_max : Z := 2 ^ 63 - 1.

(** int64 arithmetic wraps around. *)
Definition int64_wrap (z : Z) : Z := (z - int64_min) mod 2 ^ 64 + int64_min.

(** The C cast of a finite double to int64 as x86-64 does it: the fractional
    part is dropped, and a value that does not fit gives [INT64_MIN]. *)
Definition cast_int64 (x : Q) : Z :=
  let z := astype_int x in
  if ((int64_min <=? z) && (z <=? int64_max))%bool then z else int64_min.

(** [.astype(int)] on one cell of a float column; [None] when pandas raises
    (a value that is not finite). *)
Definition astype_int64 (f : Float) : option Z :=
  match f with
  | Fin x => Some (cast_int64 x)
  | _ => None
  end.

(** [sequence] over options. *)
Fixpoint all_some {A : Type} (l : list (option A)) : option (list A) :=
  match l with
  | [] => Some []
  | None :: _ => None
  | Some x :: t =>
      match all_some t with
      | Some t' => Some (x :: t')
      | None => None
      end
  end.

(** ** The allocator with the division it runs

    Lines 64-78 again, with the division [quot] that stands for [v / d]:
    [true_div] gives [dhondt], [Binary64.int_div] gives the allocator as the
    interpreter runs it. *)
Section AllocatorWith.
Variable quot : Z -> Z -> Q.
Variable argsort : list Q -> list nat.

Definition quotients_with (seats_ : Z) (ir : nat * Row) : list Entry :=
  let '(i, r) := ir in
  let v := Votos r in
  map (fun d => mkEntry i (Partido r) d (quot v d)) (range 1 (seats_ + 1)).

(** The quotient rows of a frame whose index starts at [k]. *)
Definition build_with (k : nat) (df_ : DataFrame) (seats_ : Z) : list Entry :=
  flat_map (quotients_with seats_) (iterrows_from k df_).

Definition sorted_with (df_ : DataFrame) (seats_ : Z) : list Entry :=
  sort_values argsort Cociente (build_with 0 df_ seats_).

Definition winners_with (df_ : DataFrame) (seats_ : Z) : list Entry :=
  firstn (Z.to_nat seats_) (sorted_with df_ seats_).

Definition dhondt_with (df_ : DataFrame) (seats_ : Z) : list Z * list Ranked :=
  if (match df_ with [] => true | _ => false end || (seats_ <=? 0))%bool
  then ([], [])
  else
    let q := rank_rows seats_ (sorted_with df_ seats_) in
    (allocate (length df_) q, q).
End AllocatorWith.

(** The allocator as the script runs it: double quotients, pandas' sort. *)
Definition dhondt_run : DataFrame -> Z -> list Z * list Ranked :=
  dhondt_with Binary64.int_div nargsort.

(** The claim of the specification for [seats_ <= 0] or an empty table, as
    it is worded: an allocation that gives every row of the table 0
    seats. *)
Definition all_zero_allocation (df_ : DataFrame) (alloc : list Z) : Prop :=
  forall i, (i < length df_)%nat -> nth_error alloc i = Some 0.

(** ** [sanitize] *)



Section Sanitize.
(** The numeric reading of a string by [pd.to_numeric], [None] when the
    string is not a number. *)
Variable parse_number : string -> option Q.







End Sanitize.

(** ** [sanitize] on any column

    Lines 58-62 with the values a float64 column can hold and the cast that
    [astype(int)] performs. *)

(** A raw cell of the [Votos] column: a number as [pd.to_numeric] reads it
    (finite or not), a string, or a missing value. *)
Inductive RawCell : Type :=
| RNum (f : Float)
| RStr (s : string)
| RNone.

Record RawLine : Type := mkLine { lPartido : option string; lVotos : RawCell }.

Section SanitizeRaw.
(** The float that [pd.to_numeric] reads in a string ("inf" is one), [None]
    when the string is not a number. *)
Variable parse_float : string -> option Float.

(** [pd.to_numeric(col, errors="coerce")] on one cell. *)
Definition numeric_float (c : RawCell) : Float :=
  match c with
  | RNum f => f
  | RStr s => match parse_float s with Some f => f | None => NaN end
  | RNone => NaN
  end.

(** [.fillna(0)], [.clip(lower=0)] and [.round()] on one cell. *)
Definition ffillna0 (f : Float) : Float :=
  match f with
  | NaN => Fin 0%Q
  | other => other
  end.

Definition fclip_lower0 (f : Float) : Float :=
  match f with
  | NInf => Fin 0%Q
  | Fin x => if Qle_bool 0 x then Fin x else Fin 0%Q
  | other => other
  end.

Definition fround0 (f : Float) : Float :=
  match f with
  | Fin x => Fin (inject_Z (round_half_even x))
  | other => other
  end.

Definition sanitize_cell (c : RawCell) : option Z :=
  astype_int64 (fround0 (fclip_lower0 (ffillna0 (numeric_float c)))).

(** Lines 58-62; [None] when [astype(int)] raises. *)
Definition sanitize_raw (df : list RawLine) : option DataFrame :=
  let partido :=
    map (fun r => match lPartido r with Some s => s | None => EmptyString end) df in
  match all_some (map (fun r => sanitize_cell (lVotos r)) df) with
  | Some votos => Some (map (fun pv => mkRow (fst pv) (snd pv)) (combine partido votos))
  | None => None
  end.
End SanitizeRaw.

(** A cell that [astype(int)] can cast: not plus infinity, and a finite value
    rounds into int64. *)
Definition castable (f : Float) : Prop :=
  match f with
  | PInf => False
  | Fin x => round_half_even x <= int64_max
  | _ => True
  end.

(** What [sanitize] makes of a castable cell of the [Votos] column. *)
Definition sanitized_vote (numeric : Float) (v : Z) : Prop :=
  0 <= v /\
  match numeric with
  | NaN => v = 0
  | NInf => v = 0
  | PInf => False
  | Fin x =>
      if Qle_bool 0 x
      then v = round_half_even x /\
           (inject_Z v - x <= 1 # 2)%Q /\ (x - inject_Z v <= 1 # 2)%Q
      else v = 0
  end.

(** ** The percentage column (lines 130-131) *)

(** Mathematical sum of the [Votos] column. *)
Definition total_votes (df : DataFrame) : Z := sum_Z (map Votos df).

(** Line 130, [int(df["Votos"].sum())]: the sum of an int64 column is an
    int64. *)
Definition total_votes_int64 (df : DataFrame) : Z :=
  int64_wrap (total_votes df).

(** An int64 column divided by a Python int: both become doubles; division
    by zero gives NaN for 0 and a signed infinity otherwise. *)
Definition series_div (v total : Z) : Float :=
  if total =? 0 then
    if v =? 0 then NaN else if 0 <? v then PInf else NInf
  else Fin (Binary64.div (Binary64.of_int v) (Binary64.of_int total)).

(** [* 100.0]. *)
Definition fmul100 (f : Float) : Float :=
  match f with
  | Fin x => Fin (Binary64.mul x 100)
  | other => other
  end.

(** [numpy.round(x, 2)] on a double: [rint(x * 100.0) / 100.0]. *)
Definition round2 (x : Q) : Q :=
  Binary64.div (inject_Z (round_half_even (Binary64.mul x 100))) 100.

Definition fround2 (f : Float) : Float :=
  match f with
  | Fin x => Fin (round2 x)
  | other => other
  end.

(** Line 131. *)
Definition pct_column (df : DataFrame) : list Float :=
  map (fun r => fround2 (ffillna0 (fmul100
                  (series_div (Votos r) (total_votes_int64 df))))) df.

(** The percentage as the specification words it: [votes / total * 100]
    rounded to two decimals, and 0 when the total is 0. *)
Definition round_decimals2 (x : Q) : Q :=
  (inject_Z (round_half_even (x * 100)) / 100)%Q.

Definition pct_as_specified (v total : Z) : Q :=
  if total =? 0 then 0%Q else round_decimals2 (true_div v total * 100)%Q.

(** The value of a finite float, and the sum of a column of them. *)
Definition fin_value (f : Float) : Q :=
  match f with
  | Fin x => x
  | _ => 0%Q
  end.

Definition sum_Q (l : list Q) : Q := fold_right Qplus 0%Q l.

(** 23 votes of 160; a share just below 88.895 percent of a large total; and
    two rows whose sum leaves int64. *)
Definition ex_pct : DataFrame := [mkRow "A" 23; mkRow "B" 137].

Definition ex_pct_near : DataFrame :=
  [mkRow "A" 436075970890; mkRow "B" 54475770929].

Definition ex_wrap : DataFrame :=
  [mkRow "A" 4611686018427387904; mkRow "B" 4611686018427387904].

(** ** [quotient_matrix_top4] (lines 166-179) *)

Definition divisores : list Z := [1; 2; 3; 4].

(** The float matrix [m]: one row per index label, the cells of a row by
    divisor column; [None] is NaN. *)
Definition FMatrix : Type := list (string * (Z -> option Q)).

(** [m.at[label, col] = x]; on a repeated label pandas writes every row
    that carries it. *)
Definition set_at (m : FMatrix) (label : string) (d : Z) (x : Q) : FMatrix :=
  map (fun lc : string * (Z -> option Q) =>
         if String.eqb (fst lc) label
         then (fst lc, fun d' => if d' =? d then Some x else snd lc d')
         else lc) m.

(** Lines 171-172: the four cells of one vote row; [r["Votos"]] is a Python
    int here, as in [dhondt]. *)
Definition fill_row (m : FMatrix) (r : Row) : FMatrix :=
  fold_left (fun m d => set_at m (Partido r) d (Binary64.int_div (Votos r) d))
            divisores m.

(** Lines 169-172. *)
Definition fill_matrix (df_ : DataFrame) : FMatrix :=
  fold_left fill_row df_ (map (fun r => (Partido r, fun _ : Z => @None Q)) df_).

(** Line 173, [m.round(0).astype(int)]; a NaN cell makes [astype] raise. *)
Definition round_astype_int (m : FMatrix) : option (list (string * list Z)) :=
  all_some
    (map (fun lc : string * (Z -> option Q) =>
            match all_some (map (snd lc) divisores) with
            | Some cells =>
                Some (fst lc,
                      map (fun x => cast_int64 (inject_Z (round_half_even x))) cells)
            | None => None
            end) m).

(** [m_int.stack()]: the cells row by row, labelled (row label, divisor). *)
Definition stack (m_int : list (string * list Z)) : list ((string * Z) * Z) :=
  flat_map (fun lr : string * list Z =>
              combine (map (fun d => (fst lr, d)) divisores) (snd lr)) m_int.

(** Lines 166-179: the integer matrix and the labels of the cells that the
    mask marks; [None] when [astype] raises. *)
Definition quotient_matrix_top4 (argsort : list Q -> list nat) (df_ : DataFrame)
  : option (list (string * list Z) * list (string * Z)) :=
  match round_astype_int (fill_matrix df_) with
  | Some m_int =>
      let flat :=
        firstn 4 (sort_values argsort (fun c => inject_Z (snd c)) (stack m_int)) in
      Some (m_int, map fst flat)
  | None => None
  end.

(** The top four as the specification words it: the cells of all rows and
    divisors 1..4 by exact quotient, ties in input order. *)
Definition top4_by_quotient (df_ : DataFrame) : list (string * Z) :=
  map fst
    (firstn 4
       (sort_values stable_argsort snd
          (flat_map (fun r => map (fun d => ((Partido r, d), true_div (Votos r) d))
                                  divisores) df_))).

(** Two parties whose quotients 10/1 and 41/4 are both displayed as 10. *)
Definition ex_PQ : DataFrame := [mkRow "P" 10; mkRow "Q" 41].

(** [lra] reads [inject_Z (Qfloor x)] as an unknown once it is a variable. *)
Ltac hide_floors :=
  rewrite ?inject_Z_plus in *; change (inject_Z 1) with 1%Q in *;
  repeat match goal with
         | H : context [inject_Z (Qfloor ?x)] |- _ =>
             generalize dependent (inject_Z (Qfloor x)); intros
         | |- context [inject_Z (Qfloor ?x)] =>
             generalize dependent (inject_Z (Qfloor x)); intros
         end.

(** Turns [(a ?= b) = c] into the order it stands for. *)
Ltac order_of_compare H :=
  first [ apply (proj2 (Qeq_alt _ _)) in H
        | apply (proj2 (Qlt_alt _ _)) in H
        | apply (proj2 (Qgt_alt _ _)) in H ].

(** The integer matrix that is displayed when every cell fits in int64: the
    double quotients by 1..4, rounded. *)
Definition rounded_matrix (df_ : DataFrame) : list (string * list Z) :=
  map (fun r => (Partido r,
                 map (fun d => round_half_even (Binary64.int_div (Votos r) d))
                     divisores))
      df_.

(** Votes written last under label [l] by the loop of lines 170-172. *)
Fixpoint last_votes (l : string) (todo : DataFrame) : option Z :=
  match todo with
  | [] => None
  | r :: t =>
      match last_votes l t with
      | Some v => Some v
      | None => if String.eqb l (Partido r) then Some (Votos r) else None
      end
  end.

(** The claim as the specification words it: the marked cells are the top
    four by exact quotient, ties in input order. *)
Definition highlights_top4_by_quotient
    (argsort : list Q -> list nat) (df_ : DataFrame) : Prop :=
  exists m_int mask,
    quotient_matrix_top4 argsort df_ = Some (m_int, mask) /\
    forall c, In c mask <-> In c (top4_by_quotient df_).

(* ================================================================== *)
(** * The callers of the allocator and the remaining helpers *)

(** Line 133, [df["Escaños"] = alloc]: the allocation aligned on the index of
    the vote table; a row the allocation has no entry for gets NaN
    ([None]). *)
Definition escanos_column (df : DataFrame) (alloc : list Z) : list (option Z) :=
  map (fun ir : nat * Row => nth_error alloc (fst ir)) (iterrows df).

(** Line 151 up to the final ordering: the rows with [Escaños > 0], as
    (Partido, Escaños); NaN compares false. *)
Definition winners_rows (df : DataFrame) (escanos : list (option Z))
  : list (string * Z) :=
  flat_map (fun re : Row * option Z =>
              match snd re with
              | Some e => if 0 <? e then [(Partido (fst re), e)] else []
              | None => []
              end)
           (combine df escanos).

(** Lines 132-133 and 151 together. *)
Definition winners_table (argsort : list Q -> list nat)
    (df : DataFrame) (seats : Z) : list (string * Z) :=
  winners_rows df (escanos_column df (fst (dhondt argsort df seats))).


(** Python's [x % 1.0] on a finite float. *)
Definition fmod1 (x : Q) : Q := (x - inject_Z (Qfloor x))%Q.

(** Lines 81-83 of [color_for]: the position handed to the colour map, from
    the integer [h] that the md5 digest of the name denotes. *)
Definition color_position (h : Z) : Q :=
  let t := true_div (h mod 1000) 1000 in
  fmod1 t.

(* ================================================================== *)
(** * Facts about the pandas pieces *)

Section TakeFacts.
Context {A : Type}.

Lemma take_app (l : list A) ix1 ix2 :
  take l (ix1 ++ ix2) = take l ix1 ++ take l ix2.
Proof.
  induction ix1 as [|i ix1 IH]; simpl; [reflexivity|].
  destruct (nth_error l i); simpl; now rewrite IH.
Qed.

Lemma take_Permutation (l : list A) ix ix' :
  Permutation ix ix' -> Permutation (take l ix) (take l ix').
Proof.
  induction 1; simpl.
  - constructor.
  - destruct (nth_error l x); auto.
  - destruct (nth_error l x), (nth_error l y); auto using perm_swap.
  - etransitivity; eauto.
Qed.

Lemma take_seq_shift (pre l : list A) :
  take (pre ++ l) (seq (length pre) (length l)) = l.
Proof.
  revert pre. induction l as [|x l IH]; intros pre; simpl; [reflexivity|].
  rewrite nth_error_app2 by lia. rewrite Nat.sub_diag. simpl.
  f_equal.
  specialize (IH (pre ++ [x])).
  rewrite <- app_assoc, length_app in IH. simpl in IH.
  now rewrite Nat.add_1_r in IH.
Qed.

Lemma take_seq (l : list A) : take l (seq 0 (length l)) = l.
Proof. exact (take_seq_shift [] l). Qed.

Lemma take_map {B : Type} (f : A -> B) (l : list A) ix :
  map f (take l ix) = take (map f l) ix.
Proof.
  induction ix as [|i ix IH]; simpl; [reflexivity|].
  rewrite nth_error_map. destruct (nth_error l i); simpl; now rewrite ?IH.
Qed.
End TakeFacts.

Lemma Sorted_map_inv {A B : Type} (R : B -> B -> Prop) (f : A -> B) l :
  Sorted R (map f l) -> Sorted (fun x y => R (f x) (f y)) l.
Proof.
  induction l as [|x l IH]; simpl; intros H; [constructor|].
  inversion H as [|? ? Hs Hh]; subst. constructor; [auto|].
  destruct l; simpl in *; constructor. now inversion Hh.
Qed.

Lemma qge_trans : Relations_1.Transitive qge.
Proof. intros x y z Hxy Hyz. unfold qge in *. eapply Qle_trans; eauto. Qed.

Section SortFacts.
Variable argsort : list Q -> list nat.
Hypothesis Hsort : is_argsort argsort.

Lemma sort_values_Permutation {A : Type} (key : A -> Q) (l : list A) :
  Permutation (sort_values argsort key l) l.
Proof.
  unfold sort_values.
  transitivity (take l (seq 0 (length l))); [|now rewrite take_seq].
  apply take_Permutation.
  rewrite <- (length_map key l). apply (argsort_perm _ Hsort).
Qed.

Lemma sort_values_length {A : Type} (key : A -> Q) (l : list A) :
  length (sort_values argsort key l) = length l.
Proof. apply Permutation_length, sort_values_Permutation. Qed.

Lemma sort_values_sorted (l : list Entry) :
  StronglySorted qge (sort_values argsort Cociente l).
Proof.
  apply Sorted_StronglySorted; [exact qge_trans|].
  unfold sort_values.
  apply (Sorted_map_inv (fun a b => (b <= a)%Q) Cociente).
  rewrite take_map. apply (argsort_desc _ Hsort).
Qed.
End SortFacts.

(* ================================================================== *)
(** * Ranking and counting *)

Lemma iterrows_from_length {A : Type} (l : list A) k :
  length (iterrows_from k l) = length l.
Proof. revert k; induction l; simpl; intros; [reflexivity | now rewrite IHl]. Qed.

Lemma iterrows_from_snd {A : Type} (l : list A) k :
  map snd (iterrows_from k l) = l.
Proof. revert k; induction l; simpl; intros; [reflexivity | now rewrite IHl]. Qed.

Lemma iterrows_from_nth {A : Type} (l : list A) k p :
  nth_error (iterrows_from k l) p =
  option_map (fun x => ((k + p)%nat, x)) (nth_error l p).
Proof.
  revert k p; induction l as [|x l IH]; intros k [|p]; simpl; try reflexivity.
  - now rewrite Nat.add_0_r.
  - rewrite IH. now rewrite Nat.add_succ_r.
Qed.

Lemma range_length lo hi : length (range lo hi) = Z.to_nat (hi - lo).
Proof. unfold range. now rewrite length_map, length_seq. Qed.

Lemma range_In lo hi d : In d (range lo hi) <-> lo <= d < hi.
Proof.
  unfold range. rewrite in_map_iff. split.
  - intros (i & <- & Hi). apply in_seq in Hi. lia.
  - intros H. exists (Z.to_nat (d - lo)). split; [lia|]. apply in_seq. lia.
Qed.

Section RankFacts.
Variable seats_ : Z.

Lemma rank_rows_entry q : map entry (rank_rows seats_ q) = q.
Proof.
  unfold rank_rows, iterrows. rewrite map_map. simpl.
  apply iterrows_from_snd.
Qed.

Lemma rank_rows_length q : length (rank_rows seats_ q) = length q.
Proof. unfold rank_rows, iterrows. now rewrite length_map, iterrows_from_length. Qed.

Lemma rank_rows_nth q p :
  nth_error (rank_rows seats_ q) p =
  option_map (fun e => mkRanked e (Z.of_nat p + 1) (Z.of_nat p + 1 <=? seats_))
             (nth_error q p).
Proof.
  unfold rank_rows, iterrows. rewrite nth_error_map, iterrows_from_nth.
  destruct (nth_error q p); reflexivity.
Qed.

(** The winning rows are the first [seats_] rows of the sorted table. *)
Lemma winners_from q k :
  map entry
    (filter GanaEscano
       (map (fun ie : nat * Entry =>
               let rk := Z.of_nat (fst ie) + 1 in
               mkRanked (snd ie) rk (rk <=? seats_))
            (iterrows_from k q)))
  = firstn (Z.to_nat seats_ - k) q.
Proof.
  revert k. induction q as [|e q IH]; intros k; simpl.
  - now rewrite firstn_nil.
  - destruct (Z.leb_spec (Z.of_nat k + 1) seats_) as [Hle|Hgt].
    + simpl. rewrite IH.
      replace (Z.to_nat seats_ - k)%nat with (S (Z.to_nat seats_ - S k)) by lia.
      reflexivity.
    + rewrite IH.
      replace (Z.to_nat seats_ - k)%nat with O by lia.
      replace (Z.to_nat seats_ - S k)%nat with O by lia.
      reflexivity.
Qed.

Lemma winners_firstn q :
  map entry (filter GanaEscano (rank_rows seats_ q)) = firstn (Z.to_nat seats_) q.
Proof.
  unfold rank_rows, iterrows. rewrite winners_from. now rewrite Nat.sub_0_r.
Qed.
End RankFacts.

Lemma allocate_tally n q :
  allocate n q = tally (repeat 0 n) (map entry (filter GanaEscano q)).
Proof.
  unfold allocate, tally. generalize (repeat 0 n) as a.
  induction (filter GanaEscano q) as [|r l IH]; intros a; simpl; [reflexivity|].
  apply IH.
Qed.

Lemma incr_length a i : length (incr a i) = length a.
Proof.
  revert i; induction a as [|x a IH]; intros [|i]; simpl; auto.
Qed.

Lemma incr_nth a i j :
  (i < length a)%nat ->
  nth j (incr a i) 0 = nth j a 0 + (if Nat.eqb i j then 1 else 0).
Proof.
  revert i j; induction a as [|x a IH]; intros i j Hi; simpl in Hi; [lia|].
  destruct i as [|i], j as [|j]; simpl; try lia.
  apply IH. lia.
Qed.

Lemma incr_sum a i :
  (i < length a)%nat -> sum_Z (incr a i) = sum_Z a + 1.
Proof.
  revert i; induction a as [|x a IH]; intros i Hi; simpl in Hi; [lia|].
  destruct i as [|i]; simpl; [lia|]. rewrite IH by lia. lia.
Qed.

Lemma tally_length ws a : length (tally a ws) = length a.
Proof.
  revert a; induction ws as [|e ws IH]; intros a; simpl; [reflexivity|].
  unfold tally in *. simpl. rewrite IH. apply incr_length.
Qed.

Lemma tally_nth ws a j :
  Forall (fun e => (idx e < length a)%nat) ws ->
  nth j (tally a ws) 0 =
  nth j a 0 + Z.of_nat (cnt (fun e => Nat.eqb (idx e) j) ws).
Proof.
  revert a; induction ws as [|e ws IH]; intros a Hws; unfold tally, cnt in *; simpl.
  - lia.
  - inversion Hws as [|? ? He Hws']; subst.
    rewrite IH by (rewrite incr_length; exact Hws').
    rewrite incr_nth by exact He.
    destruct (Nat.eqb (idx e) j); simpl; lia.
Qed.

Lemma tally_sum ws a :
  Forall (fun e => (idx e < length a)%nat) ws ->
  sum_Z (tally a ws) = sum_Z a + Z.of_nat (length ws).
Proof.
  revert a; induction ws as [|e ws IH]; intros a Hws; unfold tally in *; simpl.
  - lia.
  - inversion Hws as [|? ? He Hws']; subst.
    rewrite IH by (rewrite incr_length; exact Hws').
    rewrite incr_sum by exact He. lia.
Qed.

Lemma repeat_nth0 n j : nth j (repeat 0 n) 0 = 0.
Proof. revert j; induction n; intros [|j]; simpl; auto. Qed.

Lemma repeat_sum0 n : sum_Z (repeat 0 n) = 0.
Proof. induction n; simpl; lia. Qed.

(** ** Shape of the generated quotient rows *)

Lemma build_rows_from df_ seats_ : build_rows df_ seats_ = build_from 0 df_ seats_.
Proof. reflexivity. Qed.

Lemma quotients_of_length seats_ ir :
  length (quotients_of seats_ ir) = Z.to_nat seats_.
Proof.
  destruct ir as [i r]. unfold quotients_of.
  rewrite length_map, range_length. f_equal. lia.
Qed.

Lemma build_from_length k df_ seats_ :
  length (build_from k df_ seats_) = (length df_ * Z.to_nat seats_)%nat.
Proof.
  revert k; induction df_ as [|r df_ IH]; intros k; [reflexivity|].
  unfold build_from in *. cbn [flat_map iterrows_from]. rewrite length_app, IH.
  rewrite (quotients_of_length seats_ (k, r)). simpl. lia.
Qed.

Lemma build_from_In k df_ seats_ e :
  In e (build_from k df_ seats_) <->
  exists j r, nth_error df_ j = Some r /\
              1 <= Divisor e <= seats_ /\
              e = mkEntry (k + j) (Partido r) (Divisor e) (true_div (Votos r) (Divisor e)).
Proof.
  revert k; induction df_ as [|r df_ IH]; intros k.
  - simpl. split; [tauto|]. intros (j & r & H & _). now destruct j.
  - unfold build_from in *. cbn [flat_map iterrows_from]. rewrite in_app_iff, IH. split.
    + intros [H | (j & r' & Hj & Hd & He)].
      * unfold quotients_of in H. apply in_map_iff in H.
        destruct H as (d & <- & Hd). apply range_In in Hd. simpl.
        exists O, r. rewrite Nat.add_0_r. repeat split; try reflexivity; lia.
      * exists (S j), r'. simpl. rewrite Nat.add_succ_r. auto.
    + intros ([|j] & r' & Hj & Hd & He); simpl in Hj.
      * injection Hj as <-. left. rewrite Nat.add_0_r in He.
        unfold quotients_of. apply in_map_iff. exists (Divisor e).
        split; [now rewrite He at 3|]. apply range_In. lia.
      * right. exists j, r'. rewrite Nat.add_succ_r in He. auto.
Qed.

Lemma build_rows_idx df_ seats_ e :
  In e (build_rows df_ seats_) -> (idx e < length df_)%nat.
Proof.
  rewrite build_rows_from, build_from_In. intros (j & r & Hj & _ & ->). simpl.
  apply nth_error_Some. congruence.
Qed.

(* ================================================================== *)
(** * The stable sort meets the contract *)

Lemma take_in_range {A : Type} (d : A) (l : list A) ix :
  Forall (fun i => (i < length l)%nat) ix ->
  take l ix = map (fun i => nth i l d) ix.
Proof.
  induction 1 as [|i ix Hi _ IH]; simpl; [reflexivity|].
  rewrite (nth_error_nth' l d Hi). now rewrite IH.
Qed.

Section InsertionFacts.
Variable ks : list Q.
Variable beats : Q -> Q -> bool.
Hypothesis beats_true : forall a b, beats a b = true -> (b <= a)%Q.
Hypothesis beats_false : forall a b, beats a b = false -> (a <= b)%Q.

Let R (i j : nat) : Prop := (key_at ks j <= key_at ks i)%Q.

Lemma insert_Permutation i l : Permutation (insert ks beats i l) (i :: l).
Proof.
  induction l as [|j l IH]; simpl; [reflexivity|].
  destruct (beats _ _); [reflexivity|].
  rewrite IH. apply perm_swap.
Qed.

Lemma isort_Permutation l : Permutation (isort ks beats l) l.
Proof.
  induction l as [|i l IH]; simpl; [reflexivity|].
  rewrite insert_Permutation. now constructor.
Qed.

Lemma insert_HdRel a i l :
  R a i -> HdRel R a l -> HdRel R a (insert ks beats i l).
Proof.
  intros Ha Hl. destruct l as [|j l]; simpl; [now constructor|].
  destruct (beats _ _); constructor; [exact Ha|]. now inversion Hl.
Qed.

Lemma insert_Sorted i l : Sorted R l -> Sorted R (insert ks beats i l).
Proof.
  induction l as [|j l IH]; simpl; intros Hs.
  - repeat constructor.
  - destruct (beats (key_at ks i) (key_at ks j)) eqn:Hb.
    + constructor; [exact Hs|]. constructor. apply beats_true, Hb.
    + inversion Hs as [|? ? Hs' Hh]; subst. constructor; [auto|].
      apply insert_HdRel; [|exact Hh]. apply beats_false, Hb.
Qed.

Lemma isort_Sorted l : Sorted R (isort ks beats l).
Proof.
  induction l as [|i l IH]; simpl; [constructor|]. now apply insert_Sorted.
Qed.

Lemma isort_desc :
  desc (take ks (isort ks beats (seq 0 (length ks)))).
Proof.
  rewrite (take_in_range 0%Q).
  - unfold desc.
    assert (H := isort_Sorted (seq 0 (length ks))).
    induction H as [|i l Hs IH Hh]; simpl; constructor; [exact IH|].
    destruct Hh; simpl; constructor. assumption.
  - apply Forall_forall. intros i Hi.
    apply (Permutation_in _ (isort_Permutation _)) in Hi.
    apply in_seq in Hi. lia.
Qed.
End InsertionFacts.

Lemma stable_argsort_ok : is_argsort stable_argsort.
Proof.
  split; intros ks; unfold stable_argsort.
  - apply isort_Permutation.
  - apply isort_desc.
    + intros a b H. now apply Qle_bool_iff.
    + intros a b H. destruct (Qlt_le_dec b a) as [Hlt|Hle].
      * apply Qlt_le_weak in Hlt. apply Qle_bool_iff in Hlt. congruence.
      * exact Hle.
Qed.

(** ** Stability of the insertion sort that favours earlier positions *)

Lemma before_head {A : Type} (i j : A) l : In j l -> before i j (i :: l).
Proof.
  intros H. apply in_split in H. destruct H as (l2 & l3 & ->).
  now exists [], l2, l3.
Qed.

Lemma before_cons {A : Type} (i j y : A) l : before i j l -> before i j (y :: l).
Proof. intros (l1 & l2 & l3 & ->). now exists (y :: l1), l2, l3. Qed.

Lemma before_inv {A : Type} (i j y : A) l :
  before i j (y :: l) -> (y = i /\ In j l) \/ before i j l.
Proof.
  intros (l1 & l2 & l3 & H). destruct l1 as [|z l1]; simpl in H.
  - injection H as -> ->. left. split; [reflexivity|].
    apply in_or_app. right. now left.
  - injection H as -> ->. right. now exists l1, l2, l3.
Qed.

Section StableFacts.
Variable ks : list Q.
Let beats (a b : Q) : bool := Qle_bool b a.

Lemma insert_In x l y : In y (insert ks beats x l) <-> y = x \/ In y l.
Proof.
  split.
  - intros H. apply (Permutation_in _ (insert_Permutation ks beats x l)) in H.
    destruct H; auto.
  - intros H. apply (Permutation_in _ (Permutation_sym (insert_Permutation ks beats x l))).
    destruct H; [left|right]; auto.
Qed.

Lemma insert_keeps_before x i j l :
  before i j l -> before i j (insert ks beats x l).
Proof.
  induction l as [|y l IH]; simpl; intros H.
  - destruct H as (l1 & l2 & l3 & H). now destruct l1.
  - destruct (beats _ _); [now apply before_cons|].
    apply before_inv in H. destruct H as [[-> Hj] | H].
    + apply before_head. apply insert_In. now right.
    + apply before_cons. auto.
Qed.

Lemma insert_goes_before x j l :
  In j l -> (key_at ks j == key_at ks x)%Q -> before x j (insert ks beats x l).
Proof.
  induction l as [|y l IH]; simpl; intros Hj Hk; [tauto|].
  destruct (beats (key_at ks x) (key_at ks y)) eqn:Hb.
  - now apply before_head.
  - destruct Hj as [-> | Hj].
    + exfalso. unfold beats in Hb.
      assert (Hle : (key_at ks j <= key_at ks x)%Q) by (rewrite Hk; apply Qle_refl).
      apply Qle_bool_iff in Hle. congruence.
    + apply before_cons. auto.
Qed.

Lemma isort_stable_from k n i j :
  (i < j)%nat -> In i (seq k n) -> In j (seq k n) ->
  (key_at ks i == key_at ks j)%Q ->
  before i j (isort ks beats (seq k n)).
Proof.
  revert k. induction n as [|n IH]; intros k Hij Hi Hj Hk; simpl in *; [tauto|].
  destruct Hi as [<- | Hi].
  - destruct Hj as [Hj | Hj]; [lia|].
    apply insert_goes_before; [|now symmetry].
    apply (Permutation_in _ (Permutation_sym (isort_Permutation ks beats _))), Hj.
  - destruct Hj as [<- | Hj]; [apply in_seq in Hi; lia|].
    apply insert_keeps_before. auto.
Qed.
End StableFacts.

Lemma stable_argsort_stable : is_stable stable_argsort.
Proof.
  intros ks i j ki kj Hij Hi Hj Hk. unfold stable_argsort.
  assert (Hli : (i < length ks)%nat) by (apply nth_error_Some; congruence).
  assert (Hlj : (j < length ks)%nat) by (apply nth_error_Some; congruence).
  apply isort_stable_from; try exact Hij; try (apply in_seq; lia).
  unfold key_at.
  rewrite (nth_error_nth _ _ 0%Q Hi), (nth_error_nth _ _ 0%Q Hj). exact Hk.
Qed.

(* ================================================================== *)
(** * The allocator on its normal path *)

Lemma In_firstn {A : Type} n (l : list A) x : In x (firstn n l) -> In x l.
Proof. intros H. rewrite <- (firstn_skipn n l). apply in_or_app. now left. Qed.

Lemma In_skipn {A : Type} n (l : list A) x : In x (skipn n l) -> In x l.
Proof. intros H. rewrite <- (firstn_skipn n l). apply in_or_app. now right. Qed.

Lemma dhondt_guard argsort df_ seats_ :
  df_ = [] \/ seats_ <= 0 -> dhondt argsort df_ seats_ = ([], []).
Proof.
  intros H. unfold dhondt. destruct H as [-> | H]; [reflexivity|].
  destruct (Z.leb_spec seats_ 0); [|lia].
  now rewrite orb_true_r.
Qed.

Section DhondtFacts.
Variable argsort : list Q -> list nat.

Lemma dhondt_normal df_ seats_ :
  df_ <> [] -> 0 < seats_ ->
  dhondt argsort df_ seats_ =
  (tally (repeat 0 (length df_)) (winners argsort df_ seats_),
   rank_rows seats_ (sorted_rows argsort df_ seats_)).
Proof.
  intros Hne Hs. unfold dhondt.
  destruct df_ as [|r df']; [congruence|].
  destruct (Z.leb_spec seats_ 0); [lia|]. cbn [orb].
  rewrite allocate_tally, winners_firstn. reflexivity.
Qed.

Hypothesis Hsort : is_argsort argsort.

Lemma sorted_rows_Permutation df_ seats_ :
  Permutation (sorted_rows argsort df_ seats_) (build_rows df_ seats_).
Proof. apply sort_values_Permutation, Hsort. Qed.

Lemma sorted_rows_length df_ seats_ :
  length (sorted_rows argsort df_ seats_) = (length df_ * Z.to_nat seats_)%nat.
Proof.
  rewrite (Permutation_length (sorted_rows_Permutation _ _)).
  apply build_from_length.
Qed.

Lemma winners_length df_ seats_ :
  df_ <> [] -> length (winners argsort df_ seats_) = Z.to_nat seats_.
Proof.
  intros Hne. unfold winners. rewrite length_firstn, sorted_rows_length.
  destruct df_; [congruence|]. simpl. lia.
Qed.

Lemma winners_idx df_ seats_ :
  Forall (fun e => (idx e < length df_)%nat) (winners argsort df_ seats_).
Proof.
  apply Forall_forall. intros e He. unfold winners in He.
  apply In_firstn in He.
  apply (Permutation_in _ (sorted_rows_Permutation _ _)) in He.
  now apply build_rows_idx in He.
Qed.

(** Seats of a row = number of its quotient rows among the winners. *)
Lemma seats_won_cnt df_ seats_ i :
  df_ <> [] -> 0 < seats_ ->
  seats_won (fst (dhondt argsort df_ seats_)) i =
  Z.of_nat (cnt (fun e => Nat.eqb (idx e) i) (winners argsort df_ seats_)).
Proof.
  intros Hne Hs. rewrite dhondt_normal by assumption. unfold seats_won. simpl.
  rewrite tally_nth.
  - now rewrite repeat_nth0.
  - rewrite repeat_length. apply winners_idx.
Qed.

Lemma dhondt_sum df_ seats_ :
  df_ <> [] -> 0 < seats_ ->
  sum_Z (fst (dhondt argsort df_ seats_)) = seats_.
Proof.
  intros Hne Hs. rewrite dhondt_normal by assumption. simpl.
  rewrite tally_sum.
  - rewrite repeat_sum0, winners_length by assumption. lia.
  - rewrite repeat_length. apply winners_idx.
Qed.
End DhondtFacts.

(** C1. For every vote table with non-negative votes, at least one of them
    positive, and every [seats_ > 0], the seats that [dhondt] hands out add
    up to exactly [seats_]. *)
Theorem dhondt_seats_sum :
  forall argsort (df_ : DataFrame) (seats_ : Z),
    is_argsort argsort ->
    Forall (fun r => 0 <= Votos r) df_ ->
    Exists (fun r => 0 < Votos r) df_ ->
    0 < seats_ ->
    sum_Z (fst (dhondt argsort df_ seats_)) = seats_.
Proof.
  intros argsort df_ seats_ Hsort _ Hpos Hs.
  apply dhondt_sum; try assumption.
  intros ->. inversion Hpos.
Qed.

Lemma dhondt_seats_sum_witness :
  sum_Z (fst (dhondt stable_argsort ex_A 3)) = 3.
Proof.
  apply dhondt_seats_sum.
  - exact stable_argsort_ok.
  - repeat constructor; simpl; lia.
  - constructor; simpl; lia.
  - lia.
Defined.

(** C4. For a non-empty vote table and [seats_ > 0] the quotient table has
    rows x seats entries, it lists the generated quotients in non-increasing
    order, the rank of an entry is its 1-based position, and an entry is
    marked as winning exactly when its rank is at most [seats_]. *)
Theorem quotient_table_shape :
  forall argsort (df_ : DataFrame) (seats_ : Z),
    is_argsort argsort ->
    df_ <> [] -> 0 < seats_ ->
    let q := snd (dhondt argsort df_ seats_) in
    length q = (length df_ * Z.to_nat seats_)%nat /\
    Permutation (map entry q) (build_rows df_ seats_) /\
    StronglySorted qge (map entry q) /\
    (forall p r, nth_error q p = Some r ->
                 Rank r = Z.of_nat p + 1 /\
                 (GanaEscano r = true <-> Rank r <= seats_)).
Proof.
  intros argsort df_ seats_ Hsort Hne Hs q. subst q.
  rewrite dhondt_normal by assumption. simpl.
  rewrite rank_rows_length, rank_rows_entry. repeat split.
  - now apply sorted_rows_length.
  - now apply sorted_rows_Permutation.
  - now apply sort_values_sorted.
  - rewrite rank_rows_nth in H.
    destruct (nth_error (sorted_rows argsort df_ seats_) p); [|discriminate].
    simpl in H. now injection H as <-.
  - rewrite rank_rows_nth in H.
    destruct (nth_error (sorted_rows argsort df_ seats_) p); [|discriminate].
    simpl in H. injection H as <-. simpl. now intros ?%Z.leb_le.
  - rewrite rank_rows_nth in H.
    destruct (nth_error (sorted_rows argsort df_ seats_) p); [|discriminate].
    simpl in H. injection H as <-. simpl. now intros ?%Z.leb_le.
Qed.

Lemma quotient_table_shape_witness :
  let q := snd (dhondt stable_argsort ex_A 3) in
  length q = (length ex_A * Z.to_nat 3)%nat /\
  Permutation (map entry q) (build_rows ex_A 3) /\
  StronglySorted qge (map entry q) /\
  (forall p r, nth_error q p = Some r ->
               Rank r = Z.of_nat p + 1 /\
               (GanaEscano r = true <-> Rank r <= 3)).
Proof.
  apply quotient_table_shape.
  - exact stable_argsort_ok.
  - discriminate.
  - lia.
Defined.

(* ================================================================== *)
(** * Counting in a sorted table *)

Section CntFacts.
Context {A : Type}.
Implicit Types (p q : A -> bool) (l : list A).

Lemma cnt_app p l1 l2 : cnt p (l1 ++ l2) = (cnt p l1 + cnt p l2)%nat.
Proof. unfold cnt. now rewrite filter_app, length_app. Qed.

Lemma cnt_cons p x l :
  cnt p (x :: l) = ((if p x then 1 else 0) + cnt p l)%nat.
Proof. unfold cnt. simpl. now destruct (p x). Qed.

Lemma cnt_Permutation p l l' : Permutation l l' -> cnt p l = cnt p l'.
Proof.
  induction 1; rewrite ?cnt_cons; lia.
Qed.

Lemma cnt_mono p q l :
  (forall x, In x l -> p x = true -> q x = true) -> (cnt p l <= cnt q l)%nat.
Proof.
  induction l as [|x l IH]; intros H; [reflexivity|].
  rewrite !cnt_cons.
  assert (IH' : (cnt p l <= cnt q l)%nat) by (apply IH; intros; apply H; simpl; auto).
  destruct (p x) eqn:Hp; [|destruct (q x); lia].
  rewrite (H x (or_introl eq_refl) Hp). lia.
Qed.

Lemma cnt_ext_in p q l :
  (forall x, In x l -> p x = q x) -> cnt p l = cnt q l.
Proof.
  intros H. apply Nat.le_antisymm; apply cnt_mono; intros x Hx Hp;
    [rewrite <- H | rewrite H]; auto.
Qed.

Lemma cnt_none p l : (forall x, In x l -> p x = false) -> cnt p l = O.
Proof.
  induction l as [|x l IH]; intros H; [reflexivity|].
  rewrite cnt_cons, (H x (or_introl eq_refl)), IH; [reflexivity|].
  intros; apply H; simpl; auto.
Qed.

Lemma cnt_exists p l : (0 < cnt p l)%nat -> exists x, In x l /\ p x = true.
Proof.
  induction l as [|x l IH]; rewrite ?cnt_cons; [unfold cnt; simpl; lia|].
  destruct (p x) eqn:Hp; intros H.
  - exists x. simpl; auto.
  - destruct (IH H) as (y & Hy & Hpy). exists y. simpl; auto.
Qed.

Lemma cnt_disjoint p q l :
  (forall x, In x l -> p x = true -> q x = false) ->
  (cnt p l + cnt q l <= length l)%nat.
Proof.
  induction l as [|x l IH]; intros H; [reflexivity|].
  rewrite !cnt_cons. simpl length.
  assert (IH' : (cnt p l + cnt q l <= length l)%nat)
    by (apply IH; intros; apply H; simpl; auto).
  destruct (p x) eqn:Hp; [rewrite (H x (or_introl eq_refl) Hp)|destruct (q x)]; lia.
Qed.

Lemma cnt_split p q l :
  cnt p l = (cnt (fun x => p x && q x) l + cnt (fun x => p x && negb (q x)) l)%nat.
Proof.
  induction l as [|x l IH]; [reflexivity|].
  rewrite !cnt_cons, IH. destruct (p x), (q x); simpl; lia.
Qed.

Lemma cnt_compl p l :
  length l = (cnt p l + cnt (fun x => negb (p x)) l)%nat.
Proof.
  induction l as [|x l IH]; [reflexivity|].
  rewrite !cnt_cons. simpl length. rewrite IH. destruct (p x); simpl; lia.
Qed.
End CntFacts.

Lemma StronglySorted_app_order {A : Type} (R : A -> A -> Prop) l1 l2 :
  StronglySorted R (l1 ++ l2) ->
  forall x y, In x l1 -> In y l2 -> R x y.
Proof.
  induction l1 as [|a l1 IH]; simpl; intros Hs x y Hx Hy; [tauto|].
  inversion Hs as [|? ? Hs' Hall]; subst.
  destruct Hx as [<- | Hx]; [|eauto].
  rewrite Forall_forall in Hall. apply Hall, in_or_app. now right.
Qed.

Section SortedSplit.
Variables (rows q0 : list Entry) (n : nat).
Hypothesis Hperm : Permutation q0 rows.
Hypothesis Hsorted : StronglySorted qge q0.

Let W := firstn n q0.
Let Lo := skipn n q0.

Lemma split_order w l : In w W -> In l Lo -> (Cociente l <= Cociente w)%Q.
Proof.
  intros Hw Hl.
  apply (StronglySorted_app_order qge W Lo); auto.
  unfold W, Lo. now rewrite firstn_skipn.
Qed.

Lemma cnt_rows p : cnt p rows = (cnt p W + cnt p Lo)%nat.
Proof.
  rewrite <- (cnt_Permutation p _ _ Hperm), <- cnt_app.
  unfold W, Lo. now rewrite firstn_skipn.
Qed.

(** Every row that beats a winner is a winner too. *)
Lemma winners_bound r e :
  In e W ->
  (cnt (fun x => negb (is_row r x) && above e x) rows + cnt (is_row r) W
   <= length W)%nat.
Proof.
  intros He. rewrite cnt_rows.
  rewrite (cnt_none _ Lo).
  - rewrite Nat.add_0_r, Nat.add_comm. apply cnt_disjoint.
    intros x _ Hx. now rewrite Hx.
  - intros x Hx. unfold above.
    assert (H := split_order e x He Hx). apply Qle_bool_iff in H.
    rewrite H. simpl. apply andb_false_r.
Qed.

(** Every winner is at least as good as any loser. *)
Lemma losers_bound r f :
  In f Lo ->
  (length W
   <= cnt (fun x => negb (is_row r x) && at_least f x) rows + cnt (is_row r) W)%nat.
Proof.
  intros Hf. rewrite (cnt_compl (is_row r) W).
  rewrite cnt_rows.
  rewrite (cnt_ext_in (fun x => negb (is_row r x)) (fun x => negb (is_row r x) && at_least f x) W).
  - lia.
  - intros x Hx. unfold at_least.
    assert (H := split_order x f Hx Hf). apply Qle_bool_iff in H.
    rewrite H. now rewrite andb_true_r.
Qed.

(** A set of rows closed under "at least as large" is a prefix. *)
Lemma top_block (p : Entry -> bool) :
  (forall x y, p y = true -> (Cociente y <= Cociente x)%Q -> p x = true) ->
  firstn (cnt p rows) q0 = filter p q0.
Proof.
  intros Hup. rewrite <- (cnt_Permutation p _ _ Hperm).
  clear Hperm W Lo. induction Hsorted as [|x t Hs IH Hall]; [reflexivity|].
  assert (Hnone : p x = false -> cnt p t = O).
  { intros Hp. apply cnt_none. intros y Hy. rewrite Forall_forall in Hall.
    destruct (p y) eqn:Hpy; [|reflexivity].
    rewrite (Hup x y Hpy (Hall y Hy)) in Hp. discriminate. }
  rewrite cnt_cons. simpl. destruct (p x) eqn:Hp; simpl.
  - now rewrite IH.
  - rewrite (Hnone eq_refl). simpl. symmetry.
    apply length_zero_iff_nil. exact (Hnone eq_refl).
Qed.
End SortedSplit.

(* ================================================================== *)
(** * Scenario A *)

Lemma filter_Permutation {A : Type} (p : A -> bool) l l' :
  Permutation l l' -> Permutation (filter p l) (filter p l').
Proof.
  induction 1; simpl.
  - constructor.
  - destruct (p x); auto.
  - destruct (p x), (p y); auto using perm_swap.
  - etransitivity; eauto.
Qed.

Lemma scenario_A_winners argsort :
  is_argsort argsort ->
  Permutation (winners argsort ex_A 3)
              [mkEntry 0 "A" 1 (true_div 100 1); entry_A2; entry_B1].
Proof.
  intros Hsort. unfold winners.
  set (p := fun x : Entry => Qle_bool 50 (Cociente x)).
  assert (Hcnt : cnt p (build_rows ex_A 3) = Z.to_nat 3) by (vm_compute; reflexivity).
  rewrite <- Hcnt.
  rewrite (top_block (build_rows ex_A 3) (sorted_rows argsort ex_A 3)
             (sorted_rows_Permutation argsort Hsort ex_A 3)
             (sort_values_sorted argsort Hsort _) p).
  - rewrite (filter_Permutation p _ _ (sorted_rows_Permutation argsort Hsort ex_A 3)).
    vm_compute. reflexivity.
  - intros x y Hy Hle. unfold p in *. apply Qle_bool_iff in Hy.
    apply Qle_bool_iff. eapply Qle_trans; eauto.
Qed.

(** C7. On [("A",100),("B",50),("C",10)] with 3 seats [dhondt] gives A two
    seats, B one and C none, and the two quotients of value 50 (A over 2 and
    B over 1) are both among the three winning rows of the table. *)
Theorem scenario_A :
  forall argsort,
    is_argsort argsort ->
    fst (dhondt argsort ex_A 3) = [2; 1; 0] /\
    (Cociente entry_A2 == 50)%Q /\ (Cociente entry_B1 == 50)%Q /\
    (exists r, In r (snd (dhondt argsort ex_A 3)) /\
               entry r = entry_A2 /\ Rank r <= 3 /\ GanaEscano r = true) /\
    (exists r, In r (snd (dhondt argsort ex_A 3)) /\
               entry r = entry_B1 /\ Rank r <= 3 /\ GanaEscano r = true).
Proof.
  intros argsort Hsort.
  assert (Hne : ex_A <> []) by discriminate.
  assert (Hs : 0 < 3) by lia.
  assert (HW := scenario_A_winners argsort Hsort).
  assert (Hwon : forall e, In e (winners argsort ex_A 3) ->
            exists r, In r (snd (dhondt argsort ex_A 3)) /\
                      entry r = e /\ Rank r <= 3 /\ GanaEscano r = true).
  { intros e He. rewrite dhondt_normal by assumption. cbn [snd].
    unfold winners in He. rewrite <- winners_firstn in He.
    apply in_map_iff in He. destruct He as (r & Hr & Hin).
    apply filter_In in Hin. destruct Hin as [Hin Hg].
    exists r. repeat split; auto.
    apply In_nth_error in Hin. destruct Hin as [k Hk].
    rewrite rank_rows_nth in Hk.
    destruct (nth_error (sorted_rows argsort ex_A 3) k); [|discriminate].
    simpl in Hk. injection Hk as <-. simpl in *. now apply Z.leb_le. }
  split; [|split; [|split; [|split]]].
  - assert (Hlen : length (fst (dhondt argsort ex_A 3)) = 3%nat).
    { rewrite dhondt_normal by assumption. cbn [fst].
      now rewrite tally_length, repeat_length. }
    apply (nth_ext _ _ 0 0); [exact Hlen|].
    intros i Hi. rewrite Hlen in Hi.
    change (nth i (fst (dhondt argsort ex_A 3)) 0)
      with (seats_won (fst (dhondt argsort ex_A 3)) i).
    rewrite seats_won_cnt by assumption.
    rewrite (cnt_Permutation _ _ _ HW).
    destruct i as [|[|[|i]]]; [reflexivity..|lia].
  - vm_compute. reflexivity.
  - vm_compute. reflexivity.
  - apply Hwon. apply (Permutation_in _ (Permutation_sym HW)). simpl; auto.
  - apply Hwon. apply (Permutation_in _ (Permutation_sym HW)). simpl; auto.
Qed.

Lemma scenario_A_witness :
  fst (dhondt stable_argsort ex_A 3) = [2; 1; 0] /\
  (Cociente entry_A2 == 50)%Q /\ (Cociente entry_B1 == 50)%Q /\
  (exists r, In r (snd (dhondt stable_argsort ex_A 3)) /\
             entry r = entry_A2 /\ Rank r <= 3 /\ GanaEscano r = true) /\
  (exists r, In r (snd (dhondt stable_argsort ex_A 3)) /\
             entry r = entry_B1 /\ Rank r <= 3 /\ GanaEscano r = true).
Proof. apply scenario_A. exact stable_argsort_ok. Defined.

(* ================================================================== *)
(** * The quotient rows of one vote row *)

Lemma true_div_pos v d : 0 < d -> (true_div v d == v # Z.to_pos d)%Q.
Proof.
  intros Hd. destruct d as [|p|p]; try lia.
  unfold true_div, Qdiv, Qinv, Qmult, Qeq, inject_Z. simpl. lia.
Qed.

Lemma true_div_le_divisor v d1 d2 :
  0 <= v -> 0 < d1 <= d2 -> (true_div v d2 <= true_div v d1)%Q.
Proof.
  intros Hv [H1 H2]. rewrite !true_div_pos by lia.
  unfold Qle. simpl. rewrite !Z2Pos.id by lia. nia.
Qed.

Lemma set_votos_length df_ r v : length (set_votos df_ r v) = length df_.
Proof.
  revert r; induction df_ as [|x t IH]; intros [|r]; simpl; auto.
Qed.

Lemma set_votos_nth df_ r v row :
  nth_error df_ r = Some row ->
  nth_error (set_votos df_ r v) r = Some (mkRow (Partido row) v).
Proof.
  revert r; induction df_ as [|x t IH]; intros [|r]; simpl; try discriminate.
  - now intros [= ->].
  - apply IH.
Qed.

Lemma set_votos_same df_ r row :
  nth_error df_ r = Some row -> set_votos df_ r (Votos row) = df_.
Proof.
  revert r; induction df_ as [|x t IH]; intros [|r]; simpl; try discriminate.
  - intros [= ->]. now destruct row.
  - intros H. now rewrite IH.
Qed.

Lemma cnt_filter {A : Type} (p q : A -> bool) l :
  cnt (fun x => p x && q x) l = cnt q (filter p l).
Proof.
  induction l as [|x l IH]; [reflexivity|].
  rewrite cnt_cons. simpl. destruct (p x); simpl; rewrite ?cnt_cons; now rewrite IH.
Qed.

Lemma filter_none {A : Type} (p : A -> bool) l :
  (forall x, In x l -> p x = false) -> filter p l = [].
Proof.
  intros H. apply length_zero_iff_nil. now apply cnt_none.
Qed.

Lemma cnt_le_length {A : Type} (p : A -> bool) l : (cnt p l <= length l)%nat.
Proof. rewrite (cnt_compl p l). lia. Qed.

(** Number of divisors of [range(1, n + 1)] that are at most [k]. *)
Lemma cnt_divisors_upto (k n : nat) :
  cnt (fun d => d <=? Z.of_nat k) (range 1 (Z.of_nat n + 1)) = Nat.min k n.
Proof.
  unfold range. replace (Z.to_nat (Z.of_nat n + 1 - 1)) with n by lia.
  induction n as [|n IH]; [now rewrite Nat.min_0_r|].
  rewrite seq_S, map_app, cnt_app, IH. cbn [map Nat.add]. rewrite cnt_cons.
  change (cnt (fun d => d <=? Z.of_nat k) []) with O.
  destruct (Z.leb_spec (1 + Z.of_nat n) (Z.of_nat k)); lia.
Qed.

Section RowBlocks.
Variable seats_ : Z.

Lemma quotients_of_idx k x e :
  In e (quotients_of seats_ (k, x)) -> idx e = k.
Proof.
  unfold quotients_of. rewrite in_map_iff. now intros (d & <- & _).
Qed.

Lemma build_from_idx_ge k df_ e :
  In e (build_from k df_ seats_) -> (k <= idx e)%nat.
Proof.
  rewrite build_from_In. intros (j & r & _ & _ & ->). simpl. lia.
Qed.

(** The quotient rows of vote row [r], counted by divisor. *)
Lemma row_block_cnt k df_ r (P : Z -> bool) :
  (r < length df_)%nat ->
  cnt (fun e => is_row (k + r) e && P (Divisor e)) (build_from k df_ seats_)
  = cnt P (range 1 (seats_ + 1)).
Proof.
  revert k r. induction df_ as [|x t IH]; intros k r Hr; simpl in Hr; [lia|].
  unfold build_from in *; cbn [flat_map iterrows_from]. rewrite cnt_app.
  destruct r as [|r].
  - rewrite (cnt_none _ (flat_map _ _)).
    + rewrite Nat.add_0_r, Nat.add_0_r. unfold quotients_of.
      unfold cnt. rewrite <- (length_map Divisor).
      f_equal. clear IH. induction (range 1 (seats_ + 1)) as [|d l IHl]; [reflexivity|].
      simpl. unfold is_row at 1. simpl. rewrite Nat.eqb_refl. simpl.
      destruct (P d); simpl; now rewrite IHl.
    + intros e He. apply (build_from_idx_ge (S k) t) in He.
      unfold is_row. destruct (Nat.eqb_spec (idx e) (k + 0)); [lia|reflexivity].
  - rewrite (cnt_none _ (quotients_of _ _)).
    + replace (k + S r)%nat with (S k + r)%nat by lia. apply IH. lia.
    + intros e He. apply quotients_of_idx in He.
      unfold is_row. destruct (Nat.eqb_spec (idx e) (k + S r)); [lia|reflexivity].
Qed.

Lemma row_entry df_ r row e :
  nth_error df_ r = Some row ->
  In e (build_rows df_ seats_) -> is_row r e = true ->
  1 <= Divisor e <= seats_ /\
  Cociente e = true_div (Votos row) (Divisor e).
Proof.
  intros Hr He Hi. rewrite build_rows_from in He. apply build_from_In in He.
  destruct He as (j & r' & Hj & Hd & He).
  unfold is_row in Hi. apply Nat.eqb_eq in Hi. rewrite He in Hi. simpl in Hi.
  subst j. rewrite Hr in Hj. injection Hj as <-.
  split; [exact Hd|]. now rewrite He at 1.
Qed.
End RowBlocks.

Section WinningRows.
Variable argsort : list Q -> list nat.
Hypothesis Hsort : is_argsort argsort.

Variables (df_ : DataFrame) (r : nat) (row : Row) (seats_ : Z).
Hypothesis Hrow : nth_error df_ r = Some row.
Hypothesis Hv : 0 <= Votos row.
Hypothesis Hseats : 0 < seats_.

Let n := Z.to_nat seats_.
Let k := cnt (is_row r) (winners argsort df_ seats_).

Lemma row_in_range : (r < length df_)%nat.
Proof. apply nth_error_Some. congruence. Qed.

(** One of the [k] winning rows of [r] has divisor at least [k]. *)
Lemma old_winner :
  (0 < k)%nat ->
  exists e, In e (winners argsort df_ seats_) /\
            (Cociente e <= true_div (Votos row) (Z.of_nat k))%Q.
Proof.
  intros Hk.
  set (low := fun x : Entry => Divisor x <=? Z.of_nat (k - 1)).
  assert (Hsplit := cnt_split (is_row r) low (winners argsort df_ seats_)).
  fold k in Hsplit.
  assert (Hlow : (cnt (fun x => is_row r x && low x) (winners argsort df_ seats_)
                  <= k - 1)%nat).
  { etransitivity; [|apply (Nat.le_min_l _ n)].
    rewrite <- (cnt_divisors_upto (k - 1) n).
    replace (Z.of_nat n + 1) with (seats_ + 1) by (unfold n; lia).
    rewrite <- (row_block_cnt seats_ 0 df_ r (fun d => d <=? Z.of_nat (k - 1)) row_in_range).
    change (build_from 0 df_ seats_) with (build_rows df_ seats_).
    rewrite (cnt_rows (build_rows df_ seats_) (sorted_rows argsort df_ seats_) n
               (sorted_rows_Permutation argsort Hsort df_ seats_)).
    unfold winners. fold n. simpl. unfold low. lia. }
  destruct (cnt_exists (fun x => is_row r x && negb (low x)) (winners argsort df_ seats_))
    as (e & He & Hp); [lia|].
  apply andb_true_iff in Hp. destruct Hp as [Hr Hd].
  exists e. split; [exact He|].
  assert (Hin : In e (build_rows df_ seats_)).
  { apply (Permutation_in _ (sorted_rows_Permutation argsort Hsort df_ seats_)).
    eapply In_firstn, He. }
  destruct (row_entry seats_ df_ r row e Hrow Hin Hr) as [Hdiv ->].
  unfold low in Hd. apply negb_true_iff, Z.leb_gt in Hd.
  apply true_div_le_divisor; lia.
Qed.

End WinningRows.

(* ================================================================== *)
(** * Rounding *)

Lemma round_half_even_near (x : Q) :
  (inject_Z (round_half_even x) - x <= 1 # 2)%Q /\
  (x - inject_Z (round_half_even x) <= 1 # 2)%Q.
Proof.
  unfold round_half_even.
  assert (Hlo := Qfloor_le x). assert (Hhi := Qlt_floor x).
  destruct (Qcompare (x - inject_Z (Qfloor x)) (1 # 2)) eqn:E.
  - order_of_compare E.
    destruct (Z.even (Qfloor x)); hide_floors; split; lra.
  - order_of_compare E. hide_floors; split; lra.
  - order_of_compare E. hide_floors; split; lra.
Qed.

Lemma round_half_even_int (z : Z) : round_half_even (inject_Z z) = z.
Proof.
  unfold round_half_even. rewrite Qfloor_Z.
  replace (Qcompare (inject_Z z - inject_Z z) (1 # 2)) with Lt; [reflexivity|].
  symmetry. apply (proj1 (Qlt_alt _ _)). generalize (inject_Z z). intros q. lra.
Qed.

Lemma round_half_even_nonneg (x : Q) : (0 <= x)%Q -> 0 <= round_half_even x.
Proof.
  intros Hx. unfold round_half_even.
  assert (H0 : 0 <= Qfloor x).
  { change 0 with (Qfloor 0). now apply Qfloor_resp_le. }
  destruct (Qcompare _ _); [destruct (Z.even _)| |]; lia.
Qed.

Lemma round_half_even_mono (x y : Q) :
  (x <= y)%Q -> round_half_even x <= round_half_even y.
Proof.
  intros Hxy.
  assert (Hf := Qfloor_resp_le x y Hxy).
  destruct (Z.eq_dec (Qfloor x) (Qfloor y)) as [Ef | Nf].
  - unfold round_half_even. rewrite <- Ef.
    destruct (Qcompare (x - inject_Z (Qfloor x)) (1 # 2)) eqn:E1;
      destruct (Qcompare (y - inject_Z (Qfloor x)) (1 # 2)) eqn:E2;
      try destruct (Z.even (Qfloor x)); try lia;
      order_of_compare E1; order_of_compare E2;
      exfalso; clear Ef Hf; hide_floors; lra.
  - assert (Hlt : Qfloor x + 1 <= Qfloor y) by lia.
    transitivity (Qfloor x + 1).
    + unfold round_half_even.
      destruct (Qcompare _ _); [destruct (Z.even _)| |]; lia.
    + transitivity (Qfloor y); [exact Hlt|].
      unfold round_half_even.
      destruct (Qcompare _ _); [destruct (Z.even _)| |]; lia.
Qed.

Lemma astype_int_inject (z : Z) : astype_int (inject_Z z) = z.
Proof. unfold astype_int. simpl. apply Z.quot_1_r. Qed.

(* ================================================================== *)
(** * Sums of a column *)

Lemma sum_Z_cons x l : sum_Z (x :: l) = x + sum_Z l.
Proof. reflexivity. Qed.

Lemma sum_Z_nonneg l : Forall (fun v => 0 <= v) l -> 0 <= sum_Z l.
Proof.
  induction 1 as [|v l Hv Hl IH]; [reflexivity|]. rewrite sum_Z_cons. lia.
Qed.

(* ================================================================== *)
(** * Further properties of the allocator *)

Lemma nth_error_firstn_In {A : Type} (l : list A) p n a :
  nth_error l p = Some a -> (p < n)%nat -> In a (firstn n l).
Proof.
  revert p n. induction l as [|x l IH]; intros [|p] [|n] H Hp;
    simpl in *; try discriminate; try lia.
  - left. congruence.
  - right. apply (IH p); [assumption | lia].
Qed.

Lemma nth_error_skipn_In {A : Type} (l : list A) p n a :
  nth_error l p = Some a -> (n <= p)%nat -> In a (skipn n l).
Proof.
  revert p n. induction l as [|x l IH]; intros [|p] [|n] H Hp;
    simpl in *; try discriminate; try lia.
  - left. congruence.
  - right. eapply nth_error_In, H.
  - apply (IH p); [assumption | lia].
Qed.

Lemma true_div_zero d : 0 < d -> (true_div 0 d == 0)%Q.
Proof. intros Hd. rewrite true_div_pos by lia. reflexivity. Qed.

Lemma true_div_positive v d : 0 < v -> 0 < d -> (0 < true_div v d)%Q.
Proof.
  intros Hv Hd. rewrite true_div_pos by lia. unfold Qlt. simpl. lia.
Qed.

Lemma true_div_cross a b c d :
  0 < b -> 0 < d -> (true_div a b <= true_div c d)%Q -> a * d <= c * b.
Proof.
  intros Hb Hd. rewrite !true_div_pos by lia. unfold Qle. simpl.
  rewrite !Z2Pos.id by lia. lia.
Qed.

Section Allocation.
Variable argsort : list Q -> list nat.
Hypothesis Hsort : is_argsort argsort.
Variables (df_ : DataFrame) (seats_ : Z).
Hypothesis Hne : df_ <> [].
Hypothesis Hseats : 0 < seats_.

Let rows := build_rows df_ seats_.
Let sorted := sorted_rows argsort df_ seats_.
Let W := winners argsort df_ seats_.
Let Lo := skipn (Z.to_nat seats_) sorted.

Lemma alloc_length : length (fst (dhondt argsort df_ seats_)) = length df_.
Proof.
  rewrite dhondt_normal by assumption. cbn [fst].
  now rewrite tally_length, repeat_length.
Qed.

Lemma row_seats_le r : (cnt (is_row r) W <= Z.to_nat seats_)%nat.
Proof.
  unfold W. rewrite <- (winners_length argsort Hsort df_ seats_ Hne).
  apply cnt_le_length.
Qed.

Lemma winner_or_loser e : In e rows -> In e W \/ In e Lo.
Proof.
  intros He.
  apply (Permutation_in _ (Permutation_sym (sorted_rows_Permutation argsort Hsort df_ seats_))) in He.
  fold sorted in He. rewrite <- (firstn_skipn (Z.to_nat seats_) sorted) in He.
  apply in_app_or in He. exact He.
Qed.

Lemma loser_below_winner w l : In w W -> In l Lo -> (Cociente l <= Cociente w)%Q.
Proof.
  apply (split_order sorted (Z.to_nat seats_)).
  apply sort_values_sorted, Hsort.
Qed.

(** One of the winning rows of a vote row that wins [k > 0] seats has a
    divisor of at least [k]. *)
Lemma row_winner r row :
  nth_error df_ r = Some row -> 0 <= Votos row ->
  (0 < cnt (is_row r) W)%nat ->
  exists e, In e W /\
            (Cociente e <= true_div (Votos row) (Z.of_nat (cnt (is_row r) W)))%Q.
Proof.
  intros Hr Hv Hk.
  apply (old_winner argsort Hsort df_ r row seats_ Hr); auto; lia.
Qed.

(** A vote row that wins fewer than [m <= seats_] seats has a losing row
    among its first [m] divisors. *)
Lemma row_loser r row (m : nat) :
  nth_error df_ r = Some row -> 0 <= Votos row ->
  (cnt (is_row r) W < m <= Z.to_nat seats_)%nat ->
  exists f, In f Lo /\ (true_div (Votos row) (Z.of_nat m) <= Cociente f)%Q.
Proof.
  intros Hr Hv [Hlt Hm].
  set (low := fun x : Entry => Divisor x <=? Z.of_nat m).
  assert (Hr' : (r < length df_)%nat) by (apply nth_error_Some; congruence).
  assert (Hall : cnt (fun x => is_row r x && low x) rows = m).
  { assert (HB := row_block_cnt seats_ 0 df_ r (fun d => d <=? Z.of_nat m) Hr').
    change (0 + r)%nat with r in HB. unfold low, rows. rewrite build_rows_from, HB.
    replace (seats_ + 1) with (Z.of_nat (Z.to_nat seats_) + 1) by lia.
    rewrite cnt_divisors_upto. lia. }
  unfold rows in Hall.
  rewrite (cnt_rows (build_rows df_ seats_) (sorted_rows argsort df_ seats_) (Z.to_nat seats_)
             (sorted_rows_Permutation argsort Hsort df_ seats_)) in Hall.
  assert (Hw : (cnt (fun x => is_row r x && low x)
                    (firstn (Z.to_nat seats_) (sorted_rows argsort df_ seats_))
                <= cnt (is_row r) W)%nat).
  { unfold W, winners. apply cnt_mono.
    intros x _ Hx. now apply andb_true_iff in Hx. }
  destruct (cnt_exists (fun x => is_row r x && low x) Lo) as (f & Hf & Hp).
  { unfold Lo, sorted. lia. }
  apply andb_true_iff in Hp. destruct Hp as [Hrf Hd].
  exists f. split; [exact Hf|].
  assert (Hin : In f (build_rows df_ seats_)).
  { apply (Permutation_in _ (sorted_rows_Permutation argsort Hsort df_ seats_)).
    eapply In_skipn, Hf. }
  destruct (row_entry seats_ df_ r row f Hr Hin Hrf) as [Hdiv ->].
  unfold low in Hd. apply Z.leb_le in Hd.
  apply true_div_le_divisor; lia.
Qed.

(** All [seats_] quotient rows of a vote row, counted in the whole table. *)
Lemma row_has_all_divisors r (P : Z -> bool) :
  (r < length df_)%nat ->
  (forall d, 1 <= d <= seats_ -> P d = true) ->
  cnt (fun e => is_row r e && P (Divisor e)) rows = Z.to_nat seats_.
Proof.
  intros Hr HP.
  assert (HB := row_block_cnt seats_ 0 df_ r P Hr).
  change (0 + r)%nat with r in HB. unfold rows. rewrite build_rows_from, HB.
  rewrite (cnt_ext_in P (fun _ => true)).
  - unfold cnt. rewrite forallb_filter_id.
    + rewrite range_length. f_equal. lia.
    + apply forallb_forall. reflexivity.
  - intros d Hd. apply range_In in Hd. apply HP. lia.
Qed.
Lemma seats_cnt r :
  seats_won (fst (dhondt argsort df_ seats_)) r = Z.of_nat (cnt (is_row r) W).
Proof. apply (seats_won_cnt argsort Hsort df_ seats_ r Hne Hseats). Qed.

Lemma rows_of_winners e : In e W -> In e rows.
Proof.
  intros He. apply (Permutation_in _ (sorted_rows_Permutation argsort Hsort df_ seats_)).
  eapply In_firstn, He.
Qed.

Lemma rows_of_losers e : In e Lo -> In e rows.
Proof.
  intros He. apply (Permutation_in _ (sorted_rows_Permutation argsort Hsort df_ seats_)).
  eapply In_skipn, He.
Qed.

Lemma zero_row_wins_nothing i j ri rj :
  nth_error df_ i = Some ri -> 0 < Votos ri ->
  nth_error df_ j = Some rj -> Votos rj = 0 ->
  cnt (is_row j) W = O.
Proof.
  intros Hi Hvi Hj Hvj.
  destruct (Nat.eq_dec (cnt (is_row j) W) 0) as [|Hk]; [assumption|exfalso].
  destruct (cnt_exists (is_row j) W) as (e & He & Hje); [lia|].
  destruct (row_entry seats_ df_ j rj e Hj (rows_of_winners e He) Hje) as [Hd Hq].
  assert (Hij : i <> j) by (intros ->; rewrite Hi in Hj; injection Hj as ->; lia).
  assert (Hb := winners_bound (build_rows df_ seats_) (sorted_rows argsort df_ seats_)
                  (Z.to_nat seats_)
                  (sorted_rows_Permutation argsort Hsort df_ seats_)
                  (sort_values_sorted argsort Hsort _) j e He).
  change (firstn (Z.to_nat seats_) (sorted_rows argsort df_ seats_)) with W in Hb.
  unfold W in Hb at 2. rewrite (winners_length argsort Hsort df_ seats_ Hne) in Hb.
  assert (Hi' : (i < length df_)%nat) by (apply nth_error_Some; congruence).
  assert (Hall := row_has_all_divisors i (fun _ => true) Hi' (fun _ _ => eq_refl)).
  assert (Hge : (cnt (fun x => is_row i x && true) rows
                 <= cnt (fun x => negb (is_row j x) && above e x) rows)%nat).
  { apply cnt_mono. intros x Hx Hix. apply andb_true_iff in Hix. destruct Hix as [Hix _].
    destruct (row_entry seats_ df_ i ri x Hi Hx Hix) as [Hdx Hqx].
    apply andb_true_iff. split.
    - unfold is_row in *. apply Nat.eqb_eq in Hix. rewrite Hix.
      apply negb_true_iff, Nat.eqb_neq. exact Hij.
    - unfold above. apply negb_true_iff.
      destruct (Qle_bool (Cociente x) (Cociente e)) eqn:Hle; [|reflexivity].
      apply Qle_bool_iff in Hle. rewrite Hq, Hqx, Hvj in Hle.
      rewrite true_div_zero in Hle by lia.
      assert (Hpos := true_div_positive (Votos ri) (Divisor x) Hvi ltac:(lia)).
      exfalso. apply (Qlt_irrefl 0). eapply Qlt_le_trans; eauto. }
  unfold rows in Hge, Hall. lia.
Qed.

End Allocation.

Lemma nonempty_of_nth {A : Type} (l : list A) i a : nth_error l i = Some a -> l <> [].
Proof. intros H E. rewrite E in H. now destruct i. Qed.

Lemma seats_won_nil i : seats_won [] i = 0.
Proof. unfold seats_won. now destruct i. Qed.

(** X1. On its normal path [dhondt] returns one seat count per vote row, and
    every seat count lies between 0 and [seats_]. *)
Theorem dhondt_allocation_bounds :
  forall argsort (df_ : DataFrame) (seats_ : Z),
    is_argsort argsort ->
    df_ <> [] -> 0 < seats_ ->
    length (fst (dhondt argsort df_ seats_)) = length df_ /\
    forall i, 0 <= seats_won (fst (dhondt argsort df_ seats_)) i <= seats_.
Proof.
  intros argsort df_ seats_ Hsort Hne Hs. split.
  - now apply alloc_length.
  - intros i. rewrite (seats_cnt argsort Hsort df_ seats_ Hne Hs).
    assert (H := row_seats_le argsort Hsort df_ seats_ Hne i). lia.
Qed.

Lemma dhondt_allocation_bounds_witness :
  length (fst (dhondt stable_argsort ex_A 3)) = length ex_A /\
  forall i, 0 <= seats_won (fst (dhondt stable_argsort ex_A 3)) i <= 3.
Proof.
  apply dhondt_allocation_bounds.
  - exact stable_argsort_ok.
  - discriminate.
  - lia.
Defined.

(** X2. A vote table with a single row gives that row all the seats. *)
Theorem dhondt_single_party :
  forall argsort (r : Row) (seats_ : Z),
    is_argsort argsort ->
    0 < seats_ ->
    fst (dhondt argsort [r] seats_) = [seats_].
Proof.
  intros argsort r seats_ Hsort Hs.
  assert (Hne : [r] <> []) by discriminate.
  assert (Hlen := alloc_length argsort [r] seats_ Hne Hs).
  assert (Hsum := dhondt_sum argsort Hsort [r] seats_ Hne Hs).
  destruct (fst (dhondt argsort [r] seats_)) as [|a [|b l]]; simpl in Hlen;
    try discriminate.
  rewrite sum_Z_cons in Hsum. simpl in Hsum. f_equal. lia.
Qed.

Lemma dhondt_single_party_witness :
  fst (dhondt stable_argsort [mkRow "A" 7] 5) = [5].
Proof. apply dhondt_single_party; [exact stable_argsort_ok | lia]. Defined.

(** X3. As soon as one row has a positive number of votes, a row with no
    votes wins no seat. *)
Theorem zero_votes_no_seat :
  forall argsort (df_ : DataFrame) (seats_ : Z) (i j : nat) (ri rj : Row),
    is_argsort argsort ->
    nth_error df_ i = Some ri -> 0 < Votos ri ->
    nth_error df_ j = Some rj -> Votos rj = 0 ->
    seats_won (fst (dhondt argsort df_ seats_)) j = 0.
Proof.
  intros argsort df_ seats_ i j ri rj Hsort Hi Hvi Hj Hvj.
  destruct (Z_lt_le_dec 0 seats_) as [Hs | Hs].
  - assert (Hne := nonempty_of_nth _ _ _ Hi).
    rewrite (seats_cnt argsort Hsort df_ seats_ Hne Hs).
    now rewrite (zero_row_wins_nothing argsort Hsort df_ seats_ Hne Hs i j ri rj).
  - rewrite (dhondt_guard argsort df_ seats_ (or_intror Hs)). apply seats_won_nil.
Qed.

Lemma zero_votes_no_seat_witness :
  seats_won (fst (dhondt stable_argsort [mkRow "Z" 0; mkRow "A" 1] 3)) 0 = 0.
Proof.
  apply (zero_votes_no_seat stable_argsort _ 3 1 0 (mkRow "A" 1) (mkRow "Z" 0)).
  - exact stable_argsort_ok.
  - reflexivity.
  - simpl. lia.
  - reflexivity.
  - reflexivity.
Defined.

Lemma true_div_lt_divisor v d1 d2 :
  0 < v -> 0 < d1 < d2 -> (true_div v d2 < true_div v d1)%Q.
Proof.
  intros Hv [H1 H2]. rewrite !true_div_pos by lia.
  unfold Qlt. simpl. rewrite !Z2Pos.id by lia. nia.
Qed.

(** X6. The winning quotients of a row with a positive number of votes are
    those of its smallest divisors: when its quotient by [d] wins a seat, so
    does its quotient by every smaller divisor. *)
Theorem winning_divisors_initial :
  forall argsort (df_ : DataFrame) (seats_ : Z) (r : nat) (row : Row)
         (x y : Ranked),
    is_argsort argsort ->
    nth_error df_ r = Some row -> 0 < Votos row ->
    In x (snd (dhondt argsort df_ seats_)) ->
    In y (snd (dhondt argsort df_ seats_)) ->
    idx (entry x) = r -> idx (entry y) = r ->
    GanaEscano x = true ->
    Divisor (entry y) < Divisor (entry x) ->
    GanaEscano y = true.
Proof.
  intros argsort df_ seats_ r row x y Hsort Hr Hv Hx Hy Hxr Hyr Hwin Hd.
  destruct (Z_lt_le_dec 0 seats_) as [Hs | Hs];
    [|rewrite (dhondt_guard argsort df_ seats_ (or_intror Hs)) in Hx; destruct Hx].
  assert (Hne := nonempty_of_nth _ _ _ Hr).
  rewrite dhondt_normal in Hx, Hy by assumption. cbn [snd] in Hx, Hy.
  apply In_nth_error in Hx, Hy. destruct Hx as [px Hx], Hy as [py Hy].
  rewrite rank_rows_nth in Hx, Hy.
  destruct (nth_error (sorted_rows argsort df_ seats_) px) as [ex|] eqn:Ex; [|discriminate].
  destruct (nth_error (sorted_rows argsort df_ seats_) py) as [ey|] eqn:Ey; [|discriminate].
  simpl in Hx, Hy. injection Hx as <-. injection Hy as <-. simpl in *.
  apply Z.leb_le in Hwin. apply Z.leb_le.
  destruct (Z_le_gt_dec (Z.of_nat py + 1) seats_) as [|Hgt]; [assumption|exfalso].
  assert (Hwx : In ex (firstn (Z.to_nat seats_) (sorted_rows argsort df_ seats_)))
    by (apply (nth_error_firstn_In _ px); [assumption | lia]).
  assert (Hly : In ey (skipn (Z.to_nat seats_) (sorted_rows argsort df_ seats_)))
    by (apply (nth_error_skipn_In _ py); [assumption | lia]).
  assert (Hle := split_order (sorted_rows argsort df_ seats_) (Z.to_nat seats_)
                   (sort_values_sorted argsort Hsort _) ex ey Hwx Hly).
  assert (Hinx : In ex (build_rows df_ seats_))
    by (apply (Permutation_in _ (sorted_rows_Permutation argsort Hsort df_ seats_));
        eapply nth_error_In, Ex).
  assert (Hiny : In ey (build_rows df_ seats_))
    by (apply (Permutation_in _ (sorted_rows_Permutation argsort Hsort df_ seats_));
        eapply nth_error_In, Ey).
  destruct (row_entry seats_ df_ r row ex Hr Hinx) as [Hdx Hqx];
    [unfold is_row; now apply Nat.eqb_eq|].
  destruct (row_entry seats_ df_ r row ey Hr Hiny) as [Hdy Hqy];
    [unfold is_row; now apply Nat.eqb_eq|].
  rewrite Hqx, Hqy in Hle.
  assert (Hlt := true_div_lt_divisor (Votos row) (Divisor ey) (Divisor ex) Hv ltac:(lia)).
  apply (Qlt_irrefl (true_div (Votos row) (Divisor ex))).
  eapply Qlt_le_trans; eauto.
Qed.

Lemma winning_divisors_initial_witness :
  GanaEscano (mkRanked (mkEntry 0 "A" 1 (true_div 100 1)) 1 true) = true.
Proof.
  apply (winning_divisors_initial stable_argsort ex_A 3 0 (mkRow "A" 100)
           (mkRanked entry_A2 2 true)
           (mkRanked (mkEntry 0 "A" 1 (true_div 100 1)) 1 true)).
  - exact stable_argsort_ok.
  - reflexivity.
  - simpl. lia.
  - vm_compute. auto.
  - vm_compute. auto.
  - reflexivity.
  - reflexivity.
  - reflexivity.
  - simpl. lia.
Defined.

(** ** The allocation does not read the names *)

Lemma build_from_keys k df1 df2 seats_ :
  map Votos df1 = map Votos df2 ->
  map idx (build_from k df1 seats_) = map idx (build_from k df2 seats_) /\
  map Cociente (build_from k df1 seats_) = map Cociente (build_from k df2 seats_).
Proof.
  revert k df2. induction df1 as [|x t IH]; intros k [|y u] H; simpl in H;
    try discriminate; [split; reflexivity|].
  injection H as Hv Ht. destruct (IH (S k) u Ht) as [IH1 IH2].
  unfold build_from in *. cbn [flat_map iterrows_from].
  rewrite !map_app, IH1, IH2. unfold quotients_of. rewrite !map_map. cbn [idx Cociente].
  rewrite Hv. split; reflexivity.
Qed.

Lemma tally_idx a ws ws' : map idx ws = map idx ws' -> tally a ws = tally a ws'.
Proof.
  revert a ws'. induction ws as [|e ws IH]; intros a [|e' ws'] H; simpl in H;
    try discriminate; [reflexivity|].
  injection H as He Hws. unfold tally in *. simpl. rewrite He. now apply IH.
Qed.

(** X5. The allocation depends on the votes only: two vote tables with the
    same [Votos] column get the same seats row by row, whatever the names
    (repeated names included). *)
Theorem allocation_ignores_names :
  forall argsort (df1 df2 : DataFrame) (seats_ : Z),
    map Votos df1 = map Votos df2 ->
    fst (dhondt argsort df1 seats_) = fst (dhondt argsort df2 seats_).
Proof.
  intros argsort df1 df2 seats_ H.
  assert (Hlen : length df1 = length df2).
  { rewrite <- (length_map Votos df1), H. apply length_map. }
  destruct (Z_lt_le_dec 0 seats_) as [Hs | Hs];
    [|now rewrite !(dhondt_guard argsort _ seats_ (or_intror Hs))].
  destruct df1 as [|x1 t1] eqn:E1, df2 as [|x2 t2] eqn:E2; try discriminate;
    [reflexivity|]. rewrite <- E1, <- E2 in *.
  rewrite !dhondt_normal by (try assumption; subst; discriminate).
  cbn [fst]. rewrite Hlen. apply tally_idx.
  unfold winners, sorted_rows, sort_values.
  rewrite <- !firstn_map, !take_map.
  destruct (build_from_keys 0 df1 df2 seats_ H) as [Hi Hq].
  rewrite !build_rows_from, Hi, Hq. reflexivity.
Qed.

Lemma allocation_ignores_names_witness :
  fst (dhondt stable_argsort ex_A 3)
  = fst (dhondt stable_argsort [mkRow "X" 100; mkRow "X" 50; mkRow "X" 10] 3).
Proof. apply allocation_ignores_names. reflexivity. Defined.

(** ** Lower quota *)

Lemma sum_Z_pointwise (V N : Z) a b :
  length a = length b ->
  (forall j, (j < length a)%nat -> nth j a 0 * V <= nth j b 0 * N) ->
  sum_Z a * V <= sum_Z b * N.
Proof.
  revert b. induction a as [|x a IH]; intros b Hlen H.
  - destruct b; [reflexivity | discriminate].
  - destruct b as [|y b]; [discriminate|]. simpl in Hlen.
    rewrite !sum_Z_cons.
    assert (H0 := H O ltac:(simpl; lia)). simpl in H0.
    assert (IH' : sum_Z a * V <= sum_Z b * N).
    { apply IH; [lia|]. intros j Hj. apply (H (Datatypes.S j)). simpl. lia. }
    lia.
Qed.

Lemma vote_le_total df_ i r :
  Forall (fun r => 0 <= Votos r) df_ ->
  nth_error df_ i = Some r -> Votos r <= total_votes df_.
Proof.
  unfold total_votes. intros Hnn. revert i.
  induction Hnn as [|x t Hx Ht IH]; intros [|i] H; simpl in H; try discriminate;
    cbn [map]; rewrite sum_Z_cons.
  - injection H as ->.
    assert (0 <= sum_Z (map Votos t)); [|lia].
    apply sum_Z_nonneg. now apply Forall_map.
  - specialize (IH i H). lia.
Qed.

Section Quota.
Variable argsort : list Q -> list nat.
Hypothesis Hsort : is_argsort argsort.
Variables (df_ : DataFrame) (seats_ : Z).
Hypothesis Hne : df_ <> [].
Hypothesis Hseats : 0 < seats_.
Hypothesis Hnn : Forall (fun r => 0 <= Votos r) df_.
Hypothesis Htotal : 0 < total_votes df_.

Let W := winners argsort df_ seats_.
Let V := total_votes df_.

Lemma votes_nonneg j rj : nth_error df_ j = Some rj -> 0 <= Votos rj.
Proof.
  intros Hj. rewrite Forall_forall in Hnn. apply Hnn. eapply nth_error_In, Hj.
Qed.

(** If row [i] had less than its lower quota, every row would hold at least
    [V / seats_] votes per seat it won. *)
Lemma price_per_seat i ri :
  nth_error df_ i = Some ri ->
  (Z.of_nat (cnt (is_row i) W) + 1) * V <= Votos ri * seats_ ->
  forall j rj, nth_error df_ j = Some rj ->
               Z.of_nat (cnt (is_row j) W) * V <= Votos rj * seats_.
Proof.
  intros Hi Hq j rj Hj.
  assert (Hvi := votes_nonneg i ri Hi). assert (Hvj := votes_nonneg j rj Hj).
  assert (HiV := vote_le_total df_ i ri Hnn Hi). fold V in HiV.
  assert (Hki := row_seats_le argsort Hsort df_ seats_ Hne i). fold W in Hki.
  assert (Hlt : (cnt (is_row i) W < Z.to_nat seats_)%nat).
  { destruct (Nat.eq_dec (cnt (is_row i) W) (Z.to_nat seats_)) as [E|]; [|lia].
    exfalso. rewrite E in Hq. unfold V in *. nia. }
  destruct (Nat.eq_dec (cnt (is_row j) W) 0) as [-> | Hkj]; [simpl; nia|].
  destruct (row_loser argsort Hsort df_ seats_ Hseats i ri
              (S (cnt (is_row i) (winners argsort df_ seats_))) Hi Hvi)
    as (f & Hf & Hge); [fold W; lia|].
  destruct (row_winner argsort Hsort df_ seats_ Hseats j rj Hj Hvj) as (e & He & Hle);
    [fold W; lia|].
  assert (Hfe := loser_below_winner argsort Hsort df_ seats_ e f He Hf).
  fold W in Hge, Hle.
  assert (Hcross : Votos ri * Z.of_nat (cnt (is_row j) W)
                   <= Votos rj * Z.of_nat (S (cnt (is_row i) W))).
  { apply true_div_cross; try lia.
    eapply Qle_trans; [exact Hge|]. eapply Qle_trans; [exact Hfe|exact Hle]. }
  rewrite Nat2Z.inj_succ in Hcross.
  set (ki := Z.of_nat (cnt (is_row i) W)) in *.
  set (kj := Z.of_nat (cnt (is_row j) W)) in *.
  assert (Hki0 : 0 <= ki) by (unfold ki; lia).
  assert (Hkj0 : 0 <= kj) by (unfold kj; lia).
  apply (Z.mul_le_mono_pos_l _ _ (ki + 1)); [lia|].
  transitivity (kj * (Votos ri * seats_)); [nia|].
  transitivity ((Votos rj * Z.succ ki) * seats_); [nia|]. nia.
Qed.

Lemma lower_quota_cnt i ri :
  nth_error df_ i = Some ri ->
  Votos ri * seats_ < (Z.of_nat (cnt (is_row i) W) + 1) * V.
Proof.
  intros Hi.
  destruct (Z_lt_le_dec (Votos ri * seats_) ((Z.of_nat (cnt (is_row i) W) + 1) * V))
    as [|Hq]; [assumption|exfalso].
  assert (Hall := price_per_seat i ri Hi Hq).
  set (alloc := fst (dhondt argsort df_ seats_)).
  assert (Hlen : length alloc = length df_) by (apply alloc_length; assumption).
  assert (Hi' : (i < length alloc)%nat) by (rewrite Hlen; apply nth_error_Some; congruence).
  assert (Hsum : sum_Z (incr alloc i) * V <= sum_Z (map Votos df_) * seats_).
  { apply sum_Z_pointwise; [now rewrite incr_length, length_map|].
    intros j Hj. rewrite incr_length, Hlen in Hj.
    rewrite incr_nth by exact Hi'.
    destruct (nth_error df_ j) as [rj|] eqn:Hrj; [|apply nth_error_None in Hrj; lia].
    erewrite (nth_error_nth (map Votos df_) j 0) by (rewrite nth_error_map, Hrj; reflexivity).
    change (nth j alloc 0) with (seats_won alloc j). unfold alloc.
    rewrite (seats_cnt argsort Hsort df_ seats_ Hne Hseats). fold W.
    destruct (Nat.eqb_spec i j) as [<- | Hij].
    - rewrite Hi in Hrj. injection Hrj as <-. exact Hq.
    - rewrite Z.add_0_r. now apply Hall. }
  rewrite incr_sum in Hsum by exact Hi'.
  unfold alloc in Hsum. rewrite (dhondt_sum argsort Hsort df_ seats_ Hne Hseats) in Hsum.
  fold (total_votes df_) in Hsum. fold V in Hsum. unfold V in *. nia.
Qed.
End Quota.

(** X7. Lower quota: with non-negative votes and a positive total, every row
    gets at least the whole part of its proportional share
    [votes * seats / total_votes]. *)
Theorem dhondt_lower_quota :
  forall argsort (df_ : DataFrame) (seats_ : Z) (i : nat) (ri : Row),
    is_argsort argsort ->
    Forall (fun r => 0 <= Votos r) df_ ->
    0 < total_votes df_ ->
    0 < seats_ ->
    nth_error df_ i = Some ri ->
    (Votos ri * seats_) / total_votes df_
    <= seats_won (fst (dhondt argsort df_ seats_)) i.
Proof.
  intros argsort df_ seats_ i ri Hsort Hnn HV Hs Hi.
  assert (Hne := nonempty_of_nth _ _ _ Hi).
  rewrite (seats_cnt argsort Hsort df_ seats_ Hne Hs).
  assert (H := lower_quota_cnt argsort Hsort df_ seats_ Hne Hs Hnn HV i ri Hi).
  assert (Hdiv : (Votos ri * seats_) / total_votes df_
                 < Z.of_nat (cnt (is_row i) (winners argsort df_ seats_)) + 1).
  { apply Z.div_lt_upper_bound; [assumption|]. lia. }
  lia.
Qed.

Lemma dhondt_lower_quota_witness :
  (100 * 3) / total_votes ex_A <= seats_won (fst (dhondt stable_argsort ex_A 3)) 0.
Proof.
  apply (dhondt_lower_quota stable_argsort ex_A 3 0 (mkRow "A" 100)).
  - exact stable_argsort_ok.
  - repeat constructor; simpl; lia.
  - reflexivity.
  - lia.
  - reflexivity.
Defined.

(* ================================================================== *)
(** * Further properties of the normaliser and of the percentages *)




(* ================================================================== *)
(** * The table of winners *)

Lemma escanos_aligned_from (pre alloc : list Z) (df : DataFrame) :
  length df = length alloc ->
  map (fun ir : nat * Row => nth_error (pre ++ alloc) (fst ir))
      (iterrows_from (length pre) df)
  = map Some alloc.
Proof.
  revert pre alloc. induction df as [|r df IH]; intros pre [|a alloc] Hlen;
    simpl in Hlen; try discriminate; [reflexivity|].
  cbn [iterrows_from map fst]. rewrite nth_error_app2 by lia.
  rewrite Nat.sub_diag. cbn [nth_error]. f_equal.
  specialize (IH (pre ++ [a]) alloc ltac:(lia)).
  rewrite <- app_assoc, length_app in IH. simpl in IH.
  now rewrite Nat.add_1_r in IH.
Qed.

Lemma escanos_aligned alloc df :
  length df = length alloc -> escanos_column df alloc = map Some alloc.
Proof. intros H. exact (escanos_aligned_from [] alloc df H). Qed.

Lemma escanos_missing df : escanos_column df [] = map (fun _ => None) df.
Proof.
  unfold escanos_column, iterrows. generalize O.
  induction df as [|r df IH]; intros k; [reflexivity|].
  cbn [iterrows_from map fst]. rewrite IH. now destruct k.
Qed.

Lemma winners_rows_missing df : winners_rows df (map (fun _ => None) df) = [].
Proof. induction df as [|r df IH]; [reflexivity|]. exact IH. Qed.

Lemma winners_rows_sum df alloc :
  length df = length alloc ->
  Forall (fun a => 0 <= a) alloc ->
  sum_Z (map snd (winners_rows df (map Some alloc))) = sum_Z alloc /\
  Forall (fun w : string * Z => 0 < snd w) (winners_rows df (map Some alloc)).
Proof.
  revert alloc. induction df as [|r df IH]; intros [|a alloc] Hlen Hnn;
    simpl in Hlen; try discriminate; [split; [reflexivity|constructor]|].
  inversion Hnn as [|? ? Ha Hnn']; subst.
  destruct (IH alloc ltac:(lia) Hnn') as [IH1 IH2].
  unfold winners_rows in *. cbn [map combine flat_map snd fst].
  rewrite sum_Z_cons. destruct (Z.ltb_spec 0 a).
  - cbn [app map snd]. rewrite sum_Z_cons, IH1. split; [reflexivity|].
    constructor; [exact H | exact IH2].
  - cbn [app]. rewrite IH1. split; [lia | exact IH2].
Qed.

Lemma Forall_of_nth (P : Z -> Prop) (l : list Z) :
  (forall j, P (nth j l 0)) -> Forall P l.
Proof.
  induction l as [|x l IH]; intros H; constructor.
  - exact (H O).
  - apply IH. intros j. exact (H (S j)).
Qed.

(** X11. The table of winners lists only rows with at least one seat and its
    seats add up to [seats]; it is empty, so that "(Sin asignaciones)" is
    shown, exactly when the vote table has no rows or [seats <= 0]. *)
Theorem winners_table_total :
  forall argsort (df : DataFrame) (seats : Z),
    is_argsort argsort ->
    Forall (fun w : string * Z => 0 < snd w) (winners_table argsort df seats) /\
    (df <> [] -> 0 < seats ->
     sum_Z (map snd (winners_table argsort df seats)) = seats) /\
    (winners_table argsort df seats = [] <-> df = [] \/ seats <= 0).
Proof.
  intros argsort df seats Hsort. unfold winners_table.
  destruct (Z_lt_le_dec 0 seats) as [Hs | Hs].
  - destruct df as [|r0 df0] eqn:E.
    + split; [constructor|]. split; [congruence|]. split; auto.
    + rewrite <- E. assert (Hne : df <> []) by (rewrite E; discriminate).
      assert (Hlen := alloc_length argsort df seats Hne Hs).
      assert (Hnn : Forall (fun a => 0 <= a) (fst (dhondt argsort df seats))).
      { apply Forall_of_nth. intros j.
        change (nth j (fst (dhondt argsort df seats)) 0)
          with (seats_won (fst (dhondt argsort df seats)) j).
        rewrite (seats_cnt argsort Hsort df seats Hne Hs). lia. }
      rewrite (escanos_aligned _ _ (eq_sym Hlen)).
      destruct (winners_rows_sum df _ (eq_sym Hlen) Hnn) as [Hsum Hpos].
      rewrite (dhondt_sum argsort Hsort df seats Hne Hs) in Hsum.
      split; [exact Hpos|]. split; [intros _ _; exact Hsum|].
      split.
      * intros Hnil. rewrite Hnil in Hsum. simpl in Hsum. lia.
      * intros [H | H]; [congruence | lia].
  - rewrite (dhondt_guard argsort df seats (or_intror Hs)). cbn [fst].
    rewrite escanos_missing, winners_rows_missing.
    split; [constructor|]. split; [lia|]. split; auto.
Qed.

Lemma winners_table_total_witness :
  Forall (fun w : string * Z => 0 < snd w) (winners_table stable_argsort ex_A 3) /\
  (ex_A <> [] -> 0 < 3 ->
   sum_Z (map snd (winners_table stable_argsort ex_A 3)) = 3) /\
  (winners_table stable_argsort ex_A 3 = [] <-> ex_A = [] \/ 3 <= 0).
Proof. apply winners_table_total. exact stable_argsort_ok. Defined.

(* ================================================================== *)
(** * The colour position *)

(** X12. The position that [color_for] hands to the colour map is
    [(h % 1000) / 1000]: it lies in [0, 1), so the final [% 1.0] never
    changes it, and it depends on the digest only through [h % 1000]. *)
Theorem color_position_range :
  forall h : Z,
    (color_position h == true_div (h mod 1000) 1000)%Q /\
    (0 <= color_position h)%Q /\ (color_position h < 1)%Q /\
    (forall h', h mod 1000 = h' mod 1000 -> color_position h = color_position h').
Proof.
  intros h.
  assert (Hm : 0 <= h mod 1000 < 1000) by (apply Z.mod_pos_bound; lia).
  assert (Hfloor : Qfloor (true_div (h mod 1000) 1000) = 0).
  { rewrite (Qfloor_comp _ _ (true_div_pos (h mod 1000) 1000 ltac:(lia))).
    unfold Qfloor. simpl. apply Z.div_small. lia. }
  assert (E : (color_position h == true_div (h mod 1000) 1000)%Q).
  { unfold color_position, fmod1. cbv zeta. rewrite Hfloor.
    change (inject_Z 0) with 0%Q. ring. }
  split; [exact E|]. rewrite E, true_div_pos by lia.
  split; [|split].
  - unfold Qle. simpl. lia.
  - unfold Qlt. simpl. lia.
  - intros h' Hh. unfold color_position. now rewrite Hh.
Qed.


(* ================================================================== *)
(** * Doubles *)

Lemma round_half_even_comp (x y : Q) :
  (x == y)%Q -> round_half_even x = round_half_even y.
Proof.
  intros E. unfold round_half_even.
  rewrite (Qfloor_comp _ _ E).
  assert (C : (x - inject_Z (Qfloor y) ?= 1 # 2)%Q
              = (y - inject_Z (Qfloor y) ?= 1 # 2)%Q).
  { apply Qcompare_comp; [now rewrite E | reflexivity]. }
  now rewrite C.
Qed.

Section Binary64Facts.
Import Binary64.
Local Open Scope Q_scope.

Lemma pow2_pos e : 0 < 2 ^ e.
Proof. apply Qpower_0_lt. reflexivity. Qed.

Lemma pow2_plus a b : 2 ^ (a + b) == 2 ^ a * 2 ^ b.
Proof. apply Qpower_plus. discriminate. Qed.

Lemma pow2_le a b : (a <= b)%Z -> 2 ^ a <= 2 ^ b.
Proof. intros H. apply Qpower_le_compat_l; [exact H | discriminate]. Qed.

Lemma pow2_inject k : (0 <= k)%Z -> inject_Z (2 ^ k) == 2 ^ k.
Proof. intros H. now rewrite Zpower_Qpower. Qed.

Lemma num_den (x : Q) : x * inject_Z (Zpos (Qden x)) == inject_Z (Qnum x).
Proof.
  destruct x as [n d]. unfold Qeq, Qmult, inject_Z. simpl.
  rewrite Pos.mul_1_r. ring.
Qed.

Lemma exponent_spec x :
  0 < x -> 2 ^ exponent x <= x /\ x < 2 ^ (exponent x + 1).
Proof.
  intros Hx. unfold exponent.
  set (ln := Z.log2 (Qnum x)). set (ld := Z.log2 (Zpos (Qden x))).
  assert (Hn : (0 < Qnum x)%Z).
  { unfold Qlt in Hx. simpl in Hx. lia. }
  destruct (Z.log2_spec (Qnum x) Hn) as [Hn1 Hn2]. fold ln in Hn1, Hn2.
  destruct (Z.log2_spec (Zpos (Qden x)) eq_refl) as [Hd1 Hd2]. fold ld in Hd1, Hd2.
  assert (Hln : (0 <= ln)%Z) by apply Z.log2_nonneg.
  assert (Hld : (0 <= ld)%Z) by apply Z.log2_nonneg.
  assert (E := num_den x).
  rewrite Zle_Qle, pow2_inject in Hn1, Hd1 by lia.
  rewrite Zlt_Qlt, pow2_inject in Hn2, Hd2 by lia.
  rewrite <- E in Hn1, Hn2.
  set (D := inject_Z (Zpos (Qden x))) in *.
  assert (HA : x < 2 ^ (ln - ld + 1)).
  { apply (Qmult_lt_r _ _ (2 ^ ld) (pow2_pos ld)).
    rewrite <- pow2_plus. replace (ln - ld + 1 + ld)%Z with (Z.succ ln) by lia.
    eapply Qle_lt_trans; [|exact Hn2].
    apply Qmult_le_l; assumption. }
  assert (HB : 2 ^ (ln - ld - 1) <= x).
  { apply (Qmult_le_r _ _ (2 ^ Z.succ ld) (pow2_pos _)).
    rewrite <- pow2_plus. replace (ln - ld - 1 + Z.succ ld)%Z with ln by lia.
    eapply Qle_trans; [exact Hn1|].
    apply Qmult_le_l; [assumption|]. now apply Qlt_le_weak. }
  destruct (Qle_bool (2 ^ (ln - ld)) x) eqn:Eb.
  - apply Qle_bool_iff in Eb. split; assumption.
  - split; [exact HB|].
    replace (ln - ld - 1 + 1)%Z with (ln - ld)%Z by lia.
    apply Qnot_le_lt. intros H. apply Qle_bool_iff in H. congruence.
Qed.

Lemma exponent_unique x e :
  2 ^ e <= x -> x < 2 ^ (e + 1) -> exponent x = e.
Proof.
  intros H1 H2.
  assert (Hx : 0 < x) by (eapply Qlt_le_trans; [apply (pow2_pos e)|exact H1]).
  destruct (exponent_spec x Hx) as [S1 S2].
  assert (A : (exponent x < e + 1)%Z).
  { apply (Qpower_lt_compat_l_inv 2); [|reflexivity].
    eapply Qle_lt_trans; [exact S1|exact H2]. }
  assert (B : (e < exponent x + 1)%Z).
  { apply (Qpower_lt_compat_l_inv 2); [|reflexivity].
    eapply Qle_lt_trans; [exact H1|exact S2]. }
  lia.
Qed.

Lemma exponent_mono x y : 0 < x -> x <= y -> (exponent x <= exponent y)%Z.
Proof.
  intros Hx Hxy.
  assert (Hy : 0 < y) by (eapply Qlt_le_trans; eauto).
  destruct (exponent_spec x Hx) as [S1 _].
  destruct (exponent_spec y Hy) as [_ T2].
  assert (A : (exponent x < exponent y + 1)%Z); [|lia].
  apply (Qpower_lt_compat_l_inv 2); [|reflexivity].
  eapply Qle_lt_trans; [exact S1|]. eapply Qle_lt_trans; [exact Hxy|exact T2].
Qed.

Lemma ulp_pos x : 0 < ulp x.
Proof. apply pow2_pos. Qed.

(** [x / ulp x], the significand, lies between [2^52] and [2^53]. *)
Lemma scaled_bounds x :
  0 < x -> 2 ^ 52 <= x / ulp x /\ x / ulp x < 2 ^ 53.
Proof.
  intros Hx. destruct (exponent_spec x Hx) as [S1 S2]. unfold ulp. split.
  - apply Qle_shift_div_l; [apply pow2_pos|].
    rewrite <- pow2_plus.
    now replace (52 + (exponent x - 52))%Z with (exponent x) by lia.
  - apply Qlt_shift_div_r; [apply pow2_pos|].
    rewrite <- pow2_plus.
    now replace (53 + (exponent x - 52))%Z with (exponent x + 1)%Z by lia.
Qed.

Lemma nearest_eq x :
  nearest x == inject_Z (round_half_even (x / ulp x)) * ulp x.
Proof. apply Qred_correct. Qed.

(** The nearest double is within half a gap. *)
Lemma nearest_near x :
  0 < x ->
  nearest x - x <= ulp x * (1 # 2) /\ x - nearest x <= ulp x * (1 # 2).
Proof.
  intros Hx. rewrite nearest_eq.
  destruct (round_half_even_near (x / ulp x)) as [H1 H2].
  assert (Hu := ulp_pos x).
  assert (E : x == (x / ulp x) * ulp x).
  { field. intros H. rewrite H in Hu. discriminate. }
  set (s := x / ulp x) in *. set (k := inject_Z (round_half_even s)) in *.
  set (u := ulp x) in *.
  split.
  - setoid_replace (k * u - x) with ((k - s) * u) by (rewrite E at 1; ring).
    rewrite (Qmult_comm u). apply Qmult_le_r; assumption.
  - setoid_replace (x - k * u) with ((s - k) * u) by (rewrite E at 1; ring).
    rewrite (Qmult_comm u). apply Qmult_le_r; assumption.
Qed.

(** The gap is at most [2^-52] of the value. *)
Lemma ulp_le x : 0 < x -> ulp x * 2 ^ 52 <= x.
Proof.
  intros Hx. destruct (exponent_spec x Hx) as [S1 _]. unfold ulp.
  rewrite <- pow2_plus.
  now replace (exponent x - 52 + 52)%Z with (exponent x) by lia.
Qed.

Lemma nearest_bounds x :
  0 < x -> 2 ^ exponent x <= nearest x /\ nearest x <= 2 ^ (exponent x + 1).
Proof.
  intros Hx. rewrite nearest_eq. destruct (scaled_bounds x Hx) as [B1 B2].
  assert (K1 := round_half_even_mono _ _ B1).
  assert (K2 := round_half_even_mono _ _ (Qlt_le_weak _ _ B2)).
  change (2 ^ 52) with (inject_Z (2 ^ 52)) in K1.
  change (2 ^ 53) with (inject_Z (2 ^ 53)) in K2.
  rewrite round_half_even_int in K1, K2.
  rewrite Zle_Qle in K1, K2.
  change (inject_Z (2 ^ 52)) with (2 ^ 52) in K1.
  change (inject_Z (2 ^ 53)) with (2 ^ 53) in K2.
  unfold ulp. split.
  - replace (exponent x) with (52 + (exponent x - 52))%Z at 1 by lia.
    rewrite pow2_plus. apply Qmult_le_r; [apply pow2_pos|exact K1].
  - replace (exponent x + 1)%Z with (53 + (exponent x - 52))%Z by lia.
    rewrite pow2_plus. apply Qmult_le_r; [apply pow2_pos|exact K2].
Qed.

Lemma nearest_pos x : 0 < x -> 0 < nearest x.
Proof.
  intros Hx. eapply Qlt_le_trans; [apply (pow2_pos (exponent x))|].
  now apply nearest_bounds.
Qed.

Lemma nearest_mono x y : 0 < x -> x <= y -> nearest x <= nearest y.
Proof.
  intros Hx Hxy.
  assert (Hy : 0 < y) by (eapply Qlt_le_trans; eauto).
  assert (He := exponent_mono x y Hx Hxy).
  destruct (Z.eq_dec (exponent x) (exponent y)) as [E | N].
  - rewrite !nearest_eq. unfold ulp. rewrite <- E.
    apply Qmult_le_r; [apply pow2_pos|]. rewrite <- Zle_Qle.
    apply round_half_even_mono.
    apply Qmult_le_r; [apply Qinv_lt_0_compat, pow2_pos|exact Hxy].
  - eapply Qle_trans; [apply nearest_bounds, Hx|].
    eapply Qle_trans; [|apply nearest_bounds, Hy].
    apply pow2_le. lia.
Qed.

Lemma round_of_pos x : 0 < x -> round x = nearest x.
Proof.
  intros Hx. unfold round.
  replace (x ?= 0) with Gt; [reflexivity|].
  symmetry. now apply (proj1 (Qgt_alt _ _)).
Qed.

Lemma round_of_zero x : x == 0 -> round x = 0.
Proof.
  intros Hx. unfold round.
  replace (x ?= 0) with Eq; [reflexivity|].
  symmetry. now apply (proj1 (Qeq_alt _ _)).
Qed.

(** Rounding reads the value of a fraction, not the way it is written. *)
Lemma nearest_comp x y : 0 < x -> x == y -> nearest x = nearest y.
Proof.
  intros Hx E.
  assert (Ee : exponent y = exponent x).
  { destruct (exponent_spec x Hx) as [S1 S2].
    apply exponent_unique; now rewrite <- E. }
  unfold nearest, ulp. rewrite Ee. apply Qred_complete.
  assert (Es : forall c, x / c == y / c) by (intros c; now rewrite E).
  now rewrite (round_half_even_comp _ _ (Es (2 ^ (exponent x - 52)))).
Qed.

Lemma round_comp x y : x == y -> round x = round y.
Proof.
  intros E. unfold round.
  rewrite <- (Qcompare_comp x y E 0 0 (Qeq_refl 0)).
  destruct (x ?= 0) eqn:C; [reflexivity| |].
  - apply (proj2 (Qlt_alt _ _)) in C.
    assert (Hx : 0 < - x) by lra.
    f_equal. f_equal. apply nearest_comp; [exact Hx|now rewrite E].
  - apply (proj2 (Qgt_alt _ _)) in C. now apply nearest_comp.
Qed.

(** Rounding keeps the order of non-negative numbers. *)
Lemma round_mono x y : 0 <= x -> x <= y -> round x <= round y.
Proof.
  intros Hx Hxy.
  destruct (Qlt_le_dec 0 x) as [Px | Zx].
  - rewrite (round_of_pos x Px), (round_of_pos y) by (eapply Qlt_le_trans; eauto).
    now apply nearest_mono.
  - rewrite (round_of_zero x) by (apply Qle_antisym; assumption).
    destruct (Qlt_le_dec 0 y) as [Py | Zy].
    + rewrite (round_of_pos y Py). apply Qlt_le_weak. now apply nearest_pos.
    + rewrite (round_of_zero y); [apply Qle_refl|].
      apply Qle_antisym; [assumption|]. eapply Qle_trans; eauto.
Qed.

Lemma round_positive x : 0 < x -> 0 < round x.
Proof. intros Hx. rewrite round_of_pos by assumption. now apply nearest_pos. Qed.

Lemma round_nonneg x : 0 <= x -> 0 <= round x.
Proof.
  intros Hx. change 0 with (round 0) at 1. apply round_mono; [apply Qle_refl|exact Hx].
Qed.

(** One rounding moves a number by at most [2^-53] of its size. *)
Lemma round_error x b :
  0 <= x -> x <= b ->
  round x - x <= b * (1 # 2 ^ 53) /\ x - round x <= b * (1 # 2 ^ 53).
Proof.
  intros Hx Hb.
  destruct (Qlt_le_dec 0 x) as [Px | Zx].
  - rewrite (round_of_pos x Px).
    destruct (nearest_near x Px) as [N1 N2]. assert (U := ulp_le x Px).
    generalize dependent (nearest x). generalize dependent (ulp x). intros u U r N1 N2.
    change (2 ^ 52) with (4503599627370496 # 1) in U.
    change (1 # 2 ^ 53) with (1 # 9007199254740992). split; lra.
  - rewrite (round_of_zero x) by (apply Qle_antisym; assumption).
    change (1 # 2 ^ 53) with (1 # 9007199254740992). split; lra.
Qed.

(** Integers below [2^53] are doubles. *)
Lemma round_int_exact z : (0 <= z < 2 ^ 53)%Z -> round (inject_Z z) = inject_Z z.
Proof.
  intros [Hz Hb].
  destruct (Z.eq_dec z 0) as [-> | Nz]; [reflexivity|].
  assert (Px : 0 < inject_Z z) by (change 0 with (inject_Z 0); rewrite <- Zlt_Qlt; lia).
  rewrite (round_of_pos _ Px). unfold nearest.
  transitivity (Qred (inject_Z z));
    [apply Qred_complete | apply Qcanon.Qred_identity, Z.gcd_1_r].
  destruct (exponent_spec _ Px) as [S1 _].
  assert (He : (exponent (inject_Z z) < 53)%Z).
  { apply (Qpower_lt_compat_l_inv 2); [|reflexivity].
    eapply Qle_lt_trans; [exact S1|].
    change (2 ^ 53) with (inject_Z (2 ^ 53)). rewrite <- Zlt_Qlt. exact Hb. }
  unfold ulp. set (e := exponent (inject_Z z)) in *.
  assert (Es : inject_Z z / 2 ^ (e - 52) == inject_Z (z * 2 ^ (52 - e))).
  { rewrite inject_Z_mult, pow2_inject by lia.
    replace (e - 52)%Z with (- (52 - e))%Z by lia. rewrite Qpower_opp.
    field. intros H. assert (P := pow2_pos (52 - e)). rewrite H in P. discriminate. }
  rewrite (round_half_even_comp _ _ Es), round_half_even_int.
  rewrite inject_Z_mult, pow2_inject by lia.
  rewrite <- Qmult_assoc, <- pow2_plus.
  replace (52 - e + (e - 52))%Z with 0%Z by lia. change (2 ^ 0) with 1. ring.
Qed.

Lemma int_div_one v : (0 <= v < 2 ^ 53)%Z -> int_div v 1 = inject_Z v.
Proof.
  intros Hv. unfold int_div.
  rewrite (round_comp (inject_Z v / inject_Z 1) (inject_Z v)).
  - now apply round_int_exact.
  - change (inject_Z 1) with 1. field.
Qed.

Lemma int_div_zero d : int_div 0 d = 0.
Proof.
  unfold int_div. apply round_of_zero. unfold Qdiv. change (inject_Z 0) with 0. ring.
Qed.

Lemma int_div_positive v d : (0 < v)%Z -> (0 < d)%Z -> 0 < int_div v d.
Proof.
  intros Hv Hd. unfold int_div. apply round_positive.
  apply Qlt_shift_div_l.
  - change 0 with (inject_Z 0). now rewrite <- Zlt_Qlt.
  - rewrite Qmult_0_l. change 0 with (inject_Z 0). now rewrite <- Zlt_Qlt.
Qed.

(** A larger divisor never gives a larger double quotient. *)
Lemma int_div_le_divisor v d1 d2 :
  (0 <= v)%Z -> (0 < d1 <= d2)%Z -> int_div v d2 <= int_div v d1.
Proof.
  intros Hv [H1 H2]. unfold int_div.
  assert (P1 : 0 < inject_Z d1) by (change 0 with (inject_Z 0); rewrite <- Zlt_Qlt; lia).
  assert (P2 : 0 < inject_Z d2) by (change 0 with (inject_Z 0); rewrite <- Zlt_Qlt; lia).
  assert (PV : 0 <= inject_Z v) by (change 0 with (inject_Z 0); rewrite <- Zle_Qle; lia).
  apply round_mono.
  - apply Qle_shift_div_l; [exact P2|]. now rewrite Qmult_0_l.
  - apply Qle_shift_div_l; [exact P1|]. unfold Qdiv.
    rewrite <- Qmult_assoc, (Qmult_comm (/ inject_Z d2)), Qmult_assoc.
    apply Qle_shift_div_r; [exact P2|].
    apply Qmult_le_compat_nonneg; split; try apply Qle_refl; try assumption.
    + now apply Qlt_le_weak.
    + rewrite <- Zle_Qle. exact H2.
Qed.

(** Up to [2^52] votes the double quotients by one divisor separate the
    vote counts. *)
Lemma int_div_lt_votes v v' d :
  (0 <= v < v')%Z -> (v' <= 2 ^ 52)%Z -> (0 < d)%Z ->
  int_div v d < int_div v' d.
Proof.
  intros [Hv Hvv] Hb Hd.
  destruct (Z.eq_dec v 0) as [-> | Nv].
  { rewrite int_div_zero. apply int_div_positive; lia. }
  unfold int_div.
  assert (Pd : 0 < inject_Z d) by (change 0 with (inject_Z 0); rewrite <- Zlt_Qlt; lia).
  assert (Pg : 0 < / inject_Z d) by now apply Qinv_lt_0_compat.
  set (g := / inject_Z d) in *.
  assert (Px : 0 < inject_Z v / inject_Z d).
  { apply Qmult_lt_0_compat; [|exact Pg].
    change 0 with (inject_Z 0); rewrite <- Zlt_Qlt; lia. }
  assert (Py : 0 < inject_Z v' / inject_Z d).
  { apply Qmult_lt_0_compat; [|exact Pg].
    change 0 with (inject_Z 0); rewrite <- Zlt_Qlt; lia. }
  assert (Hgap : inject_Z v / inject_Z d + g <= inject_Z v' / inject_Z d).
  { unfold Qdiv. fold g.
    setoid_replace (inject_Z v * g + g) with (inject_Z (v + 1) * g)
      by (rewrite inject_Z_plus; change (inject_Z 1) with 1; ring).
    apply Qmult_le_r; [exact Pg|]. rewrite <- Zle_Qle. lia. }
  assert (Htop : inject_Z v' / inject_Z d <= 2 ^ 52 * g).
  { unfold Qdiv. fold g. apply Qmult_le_r; [exact Pg|].
    change (2 ^ 52) with (inject_Z (2 ^ 52)). rewrite <- Zle_Qle. exact Hb. }
  rewrite (round_of_pos _ Px), (round_of_pos _ Py).
  destruct (nearest_near _ Px) as [X1 _]. destruct (nearest_near _ Py) as [_ Y2].
  assert (Ux := ulp_le _ Px). assert (Uy := ulp_le _ Py).
  generalize dependent (nearest (inject_Z v / inject_Z d)).
  generalize dependent (nearest (inject_Z v' / inject_Z d)).
  generalize dependent (ulp (inject_Z v / inject_Z d)).
  generalize dependent (ulp (inject_Z v' / inject_Z d)).
  generalize dependent (inject_Z v / inject_Z d).
  generalize dependent (inject_Z v' / inject_Z d).
  intros y Py Htop x Px Hgap uy Uy ux Ux ry Y2 rx X1.
  change (2 ^ 52) with (4503599627370496 # 1) in *. lra.
Qed.
End Binary64Facts.

(* ================================================================== *)
(** * The allocator with the division it runs *)

(** [dhondt] is the allocator with exact quotients. *)
Lemma dhondt_with_true_div argsort df_ seats_ :
  dhondt_with true_div argsort df_ seats_ = dhondt argsort df_ seats_.
Proof. reflexivity. Qed.

Section WithFacts.
Variable quot : Z -> Z -> Q.

Lemma quotients_with_length seats_ ir :
  length (quotients_with quot seats_ ir) = Z.to_nat seats_.
Proof.
  destruct ir as [i r]. unfold quotients_with.
  rewrite length_map, range_length. f_equal. lia.
Qed.

Lemma build_with_length k df_ seats_ :
  length (build_with quot k df_ seats_) = (length df_ * Z.to_nat seats_)%nat.
Proof.
  revert k; induction df_ as [|r df_ IH]; intros k; [reflexivity|].
  unfold build_with in *. cbn [flat_map iterrows_from]. rewrite length_app, IH.
  rewrite (quotients_with_length seats_ (k, r)). simpl. lia.
Qed.

Lemma build_with_In k df_ seats_ e :
  In e (build_with quot k df_ seats_) <->
  exists j r, nth_error df_ j = Some r /\
              1 <= Divisor e <= seats_ /\
              e = mkEntry (k + j) (Partido r) (Divisor e) (quot (Votos r) (Divisor e)).
Proof.
  revert k; induction df_ as [|r df_ IH]; intros k.
  - simpl. split; [tauto|]. intros (j & r & H & _). now destruct j.
  - unfold build_with in *. cbn [flat_map iterrows_from]. rewrite in_app_iff, IH. split.
    + intros [H | (j & r' & Hj & Hd & He)].
      * unfold quotients_with in H. apply in_map_iff in H.
        destruct H as (d & <- & Hd). apply range_In in Hd. simpl.
        exists O, r. rewrite Nat.add_0_r. repeat split; try reflexivity; lia.
      * exists (S j), r'. simpl. rewrite Nat.add_succ_r. auto.
    + intros ([|j] & r' & Hj & Hd & He); simpl in Hj.
      * injection Hj as <-. left. rewrite Nat.add_0_r in He.
        unfold quotients_with. apply in_map_iff. exists (Divisor e).
        split; [now rewrite He at 3|]. apply range_In. lia.
      * right. exists j, r'. rewrite Nat.add_succ_r in He. auto.
Qed.

Lemma build_with_idx df_ seats_ e :
  In e (build_with quot 0 df_ seats_) -> (idx e < length df_)%nat.
Proof.
  rewrite build_with_In. intros (j & r & Hj & _ & ->). simpl.
  apply nth_error_Some. congruence.
Qed.

Lemma dhondt_with_guard argsort df_ seats_ :
  df_ = [] \/ seats_ <= 0 -> dhondt_with quot argsort df_ seats_ = ([], []).
Proof.
  intros H. unfold dhondt_with. destruct H as [-> | H]; [reflexivity|].
  destruct (Z.leb_spec seats_ 0); [|lia].
  now rewrite orb_true_r.
Qed.

Lemma dhondt_with_normal argsort df_ seats_ :
  df_ <> [] -> 0 < seats_ ->
  dhondt_with quot argsort df_ seats_ =
  (tally (repeat 0 (length df_)) (winners_with quot argsort df_ seats_),
   rank_rows seats_ (sorted_with quot argsort df_ seats_)).
Proof.
  intros Hne Hs. unfold dhondt_with.
  destruct df_ as [|r df']; [congruence|].
  destruct (Z.leb_spec seats_ 0); [lia|]. cbn [orb].
  rewrite allocate_tally, winners_firstn. reflexivity.
Qed.

Lemma quotients_with_idx seats_ k x e :
  In e (quotients_with quot seats_ (k, x)) -> idx e = k.
Proof.
  unfold quotients_with. rewrite in_map_iff. now intros (d & <- & _).
Qed.

Lemma build_with_idx_ge seats_ k df_ e :
  In e (build_with quot k df_ seats_) -> (k <= idx e)%nat.
Proof.
  rewrite build_with_In. intros (j & r & _ & _ & ->). simpl. lia.
Qed.

(** The rows of the other vote rows do not depend on the votes of [r]. *)
Lemma others_unchanged_with seats_ k df_ r v :
  filter (fun e => negb (is_row (k + r) e)) (build_with quot k (set_votos df_ r v) seats_)
  = filter (fun e => negb (is_row (k + r) e)) (build_with quot k df_ seats_).
Proof.
  revert k r. induction df_ as [|x t IH]; intros k r; [now destruct r|].
  destruct r as [|r]; unfold build_with in *; cbn [set_votos flat_map iterrows_from].
  - rewrite !filter_app. f_equal.
    transitivity (@nil Entry); [|symmetry];
      apply filter_none;
      intros e He; apply quotients_with_idx in He; unfold is_row;
      rewrite He, Nat.add_0_r, Nat.eqb_refl; reflexivity.
  - rewrite !filter_app. f_equal.
    replace (k + S r)%nat with (S k + r)%nat by lia. apply IH.
Qed.

(** The quotient rows of vote row [r], counted by divisor. *)
Lemma row_block_cnt_with seats_ k df_ r (P : Z -> bool) :
  (r < length df_)%nat ->
  cnt (fun e => is_row (k + r) e && P (Divisor e)) (build_with quot k df_ seats_)
  = cnt P (range 1 (seats_ + 1)).
Proof.
  revert k r. induction df_ as [|x t IH]; intros k r Hr; simpl in Hr; [lia|].
  unfold build_with in *; cbn [flat_map iterrows_from]. rewrite cnt_app.
  destruct r as [|r].
  - rewrite (cnt_none _ (flat_map _ _)).
    + rewrite Nat.add_0_r, Nat.add_0_r. unfold quotients_with.
      unfold cnt. rewrite <- (length_map Divisor).
      f_equal. clear IH. induction (range 1 (seats_ + 1)) as [|d l IHl]; [reflexivity|].
      simpl. unfold is_row at 1. simpl. rewrite Nat.eqb_refl. simpl.
      destruct (P d); simpl; now rewrite IHl.
    + intros e He. apply (build_with_idx_ge seats_ (S k) t) in He.
      unfold is_row. destruct (Nat.eqb_spec (idx e) (k + 0)); [lia|reflexivity].
  - rewrite (cnt_none _ (quotients_with _ _ _)).
    + replace (k + S r)%nat with (S k + r)%nat by lia. apply IH. lia.
    + intros e He. apply quotients_with_idx in He.
      unfold is_row. destruct (Nat.eqb_spec (idx e) (k + S r)); [lia|reflexivity].
Qed.

Lemma row_entry_with seats_ df_ r row e :
  nth_error df_ r = Some row ->
  In e (build_with quot 0 df_ seats_) -> is_row r e = true ->
  1 <= Divisor e <= seats_ /\
  Cociente e = quot (Votos row) (Divisor e).
Proof.
  intros Hr He Hi. apply build_with_In in He.
  destruct He as (j & r' & Hj & Hd & He).
  unfold is_row in Hi. apply Nat.eqb_eq in Hi. rewrite He in Hi. simpl in Hi.
  subst j. rewrite Hr in Hj. injection Hj as <-.
  split; [exact Hd|]. now rewrite He at 1.
Qed.

Section SortedWith.
Variable argsort : list Q -> list nat.
Hypothesis Hsort : is_argsort argsort.

Lemma sorted_with_Permutation df_ seats_ :
  Permutation (sorted_with quot argsort df_ seats_) (build_with quot 0 df_ seats_).
Proof. apply sort_values_Permutation, Hsort. Qed.

Lemma sorted_with_length df_ seats_ :
  length (sorted_with quot argsort df_ seats_) = (length df_ * Z.to_nat seats_)%nat.
Proof.
  rewrite (Permutation_length (sorted_with_Permutation _ _)).
  apply build_with_length.
Qed.

Lemma winners_with_length df_ seats_ :
  df_ <> [] -> length (winners_with quot argsort df_ seats_) = Z.to_nat seats_.
Proof.
  intros Hne. unfold winners_with. rewrite length_firstn, sorted_with_length.
  destruct df_; [congruence|]. simpl. lia.
Qed.

Lemma winners_with_idx df_ seats_ :
  Forall (fun e => (idx e < length df_)%nat) (winners_with quot argsort df_ seats_).
Proof.
  apply Forall_forall. intros e He. unfold winners_with in He.
  apply In_firstn in He.
  apply (Permutation_in _ (sorted_with_Permutation _ _)) in He.
  now apply build_with_idx in He.
Qed.

(** Seats of a row = number of its quotient rows among the winners. *)
Lemma seats_won_with_cnt df_ seats_ i :
  df_ <> [] -> 0 < seats_ ->
  seats_won (fst (dhondt_with quot argsort df_ seats_)) i =
  Z.of_nat (cnt (is_row i) (winners_with quot argsort df_ seats_)).
Proof.
  intros Hne Hs. rewrite dhondt_with_normal by assumption. unfold seats_won. simpl.
  rewrite tally_nth.
  - now rewrite repeat_nth0.
  - rewrite repeat_length. apply winners_with_idx.
Qed.
End SortedWith.

(** ** Raising the votes of one row *)
Section MonotoneWith.
Variable argsort : list Q -> list nat.
Hypothesis Hsort : is_argsort argsort.

Variables (df_ : DataFrame) (r : nat) (row : Row) (v' : Z) (seats_ : Z).
Hypothesis Hrow : nth_error df_ r = Some row.
Hypothesis Hv : 0 <= Votos row < v'.
Hypothesis Hseats : 0 < seats_.

(** What the argument uses of the division: a larger divisor does not give a
    larger quotient, and the raise makes every quotient of the row larger. *)
Hypothesis quot_divisor :
  forall v d1 d2, 0 <= v -> 0 < d1 <= d2 -> (quot v d2 <= quot v d1)%Q.
Hypothesis quot_raised :
  forall d, 0 < d <= seats_ -> (quot (Votos row) d < quot v' d)%Q.

Let df' := set_votos df_ r v'.
Let n := Z.to_nat seats_.
Let k := cnt (is_row r) (winners_with quot argsort df_ seats_).
Let m := cnt (is_row r) (winners_with quot argsort df' seats_).

Lemma df_with_nonempty : df_ <> [].
Proof. intros E. rewrite E in Hrow. now destruct r. Qed.

Lemma df'_with_nonempty : df' <> [].
Proof.
  intros E. assert (H := set_votos_length df_ r v'). fold df' in H.
  rewrite E in H. assert (H' := df_with_nonempty). destruct df_; simpl in *; congruence.
Qed.

Lemma row_with_in_range : (r < length df_)%nat.
Proof. apply nth_error_Some. congruence. Qed.

Lemma k_with_le_n : (k <= n)%nat.
Proof.
  unfold k, n.
  rewrite <- (winners_with_length argsort Hsort df_ seats_ df_with_nonempty).
  apply cnt_le_length.
Qed.

(** Before the change: one of the [k] winning rows of [r] has divisor at
    least [k]. *)
Lemma old_winner_with :
  (0 < k)%nat ->
  exists e, In e (winners_with quot argsort df_ seats_) /\
            (Cociente e <= quot (Votos row) (Z.of_nat k))%Q.
Proof.
  intros Hk.
  set (low := fun x : Entry => Divisor x <=? Z.of_nat (k - 1)).
  assert (Hsplit := cnt_split (is_row r) low (winners_with quot argsort df_ seats_)).
  fold k in Hsplit.
  assert (Hlow : (cnt (fun x => is_row r x && low x) (winners_with quot argsort df_ seats_)
                  <= k - 1)%nat).
  { etransitivity; [|apply (Nat.le_min_l _ n)].
    rewrite <- (cnt_divisors_upto (k - 1) n).
    replace (Z.of_nat n + 1) with (seats_ + 1) by (unfold n; lia).
    rewrite <- (row_block_cnt_with seats_ 0 df_ r (fun d => d <=? Z.of_nat (k - 1))
                  row_with_in_range).
    rewrite (cnt_rows (build_with quot 0 df_ seats_) (sorted_with quot argsort df_ seats_) n
               (sorted_with_Permutation argsort Hsort df_ seats_)).
    unfold winners_with. fold n. simpl. unfold low. lia. }
  destruct (cnt_exists (fun x => is_row r x && negb (low x))
              (winners_with quot argsort df_ seats_))
    as (e & He & Hp); [lia|].
  apply andb_true_iff in Hp. destruct Hp as [Hr Hd].
  exists e. split; [exact He|].
  assert (Hin : In e (build_with quot 0 df_ seats_)).
  { apply (Permutation_in _ (sorted_with_Permutation argsort Hsort df_ seats_)).
    eapply In_firstn, He. }
  destruct (row_entry_with seats_ df_ r row e Hrow Hin Hr) as [Hdiv ->].
  unfold low in Hd. apply negb_true_iff, Z.leb_gt in Hd.
  apply quot_divisor; lia.
Qed.

(** After the change: if fewer than [k] rows of [r] win, one of its first
    [k] rows loses. *)
Lemma new_loser_with :
  (m < k)%nat ->
  exists f, In f (skipn n (sorted_with quot argsort df' seats_)) /\
            (quot v' (Z.of_nat k) <= Cociente f)%Q.
Proof.
  intros Hmk.
  set (low := fun x : Entry => Divisor x <=? Z.of_nat k).
  assert (Hr' : (r < length df')%nat)
    by (unfold df'; rewrite set_votos_length; apply row_with_in_range).
  assert (Hall : cnt (fun x => is_row r x && low x) (build_with quot 0 df' seats_) = k).
  { assert (HB := row_block_cnt_with seats_ 0 df' r (fun d => d <=? Z.of_nat k) Hr').
    change (0 + r)%nat with r in HB. unfold low. rewrite HB.
    replace (seats_ + 1) with (Z.of_nat n + 1) by (unfold n; lia).
    rewrite cnt_divisors_upto. assert (H := k_with_le_n). lia. }
  rewrite (cnt_rows (build_with quot 0 df' seats_) (sorted_with quot argsort df' seats_) n
             (sorted_with_Permutation argsort Hsort df' seats_)) in Hall.
  assert (Hw : (cnt (fun x => is_row r x && low x)
                    (firstn n (sorted_with quot argsort df' seats_))
                <= m)%nat).
  { unfold m, winners_with. fold n. apply cnt_mono.
    intros x _ Hx. now apply andb_true_iff in Hx. }
  destruct (cnt_exists (fun x => is_row r x && low x)
              (skipn n (sorted_with quot argsort df' seats_))) as (f & Hf & Hp); [lia|].
  apply andb_true_iff in Hp. destruct Hp as [Hr Hd].
  exists f. split; [exact Hf|].
  assert (Hin : In f (build_with quot 0 df' seats_)).
  { apply (Permutation_in _ (sorted_with_Permutation argsort Hsort df' seats_)).
    eapply In_skipn, Hf. }
  destruct (row_entry_with seats_ df' r _ f (set_votos_nth df_ r v' row Hrow) Hin Hr)
    as [Hdiv ->].
  unfold low in Hd. apply Z.leb_le in Hd. simpl.
  apply quot_divisor; lia.
Qed.

Lemma winners_with_monotone : (k <= m)%nat.
Proof.
  destruct (le_lt_dec k m) as [|Hmk]; [assumption|exfalso].
  destruct (old_winner_with ltac:(lia)) as (e & He & Hle).
  destruct (new_loser_with Hmk) as (f & Hf & Hge).
  assert (Hkn := k_with_le_n).
  assert (Hlt : (Cociente e < Cociente f)%Q).
  { eapply Qle_lt_trans; [exact Hle|]. eapply Qlt_le_trans; [|exact Hge].
    apply quot_raised. unfold n in Hkn. lia. }
  assert (Hold := winners_bound (build_with quot 0 df_ seats_)
                    (sorted_with quot argsort df_ seats_) n
                    (sorted_with_Permutation argsort Hsort df_ seats_)
                    (sort_values_sorted argsort Hsort _) r e He).
  assert (Hnew := losers_bound (build_with quot 0 df' seats_)
                    (sorted_with quot argsort df' seats_) n
                    (sorted_with_Permutation argsort Hsort df' seats_)
                    (sort_values_sorted argsort Hsort _) r f Hf).
  change (firstn n (sorted_with quot argsort df_ seats_))
    with (winners_with quot argsort df_ seats_) in Hold.
  change (firstn n (sorted_with quot argsort df' seats_))
    with (winners_with quot argsort df' seats_) in Hnew.
  rewrite (winners_with_length argsort Hsort df_ seats_ df_with_nonempty) in Hold.
  rewrite (winners_with_length argsort Hsort df' seats_ df'_with_nonempty) in Hnew.
  fold k in Hold. fold m in Hnew.
  assert (Hcmp :
    (cnt (fun x => negb (is_row r x) && at_least f x) (build_with quot 0 df' seats_)
     <= cnt (fun x => negb (is_row r x) && above e x) (build_with quot 0 df_ seats_))%nat).
  { rewrite !cnt_filter. unfold df'.
    assert (HO := others_unchanged_with seats_ 0 df_ r v').
    change (0 + r)%nat with r in HO. rewrite HO.
    apply cnt_mono. intros x _ Hx. unfold at_least in Hx. unfold above.
    apply Qle_bool_iff in Hx. apply negb_true_iff.
    destruct (Qle_bool (Cociente x) (Cociente e)) eqn:Hb; [|reflexivity].
    apply Qle_bool_iff in Hb. exfalso.
    apply (Qlt_irrefl (Cociente e)).
    eapply Qlt_le_trans; [exact Hlt|]. eapply Qle_trans; eauto. }
  lia.
Qed.
End MonotoneWith.

(** ** Two rows of one table *)
Section AllocationWith.
Variable argsort : list Q -> list nat.
Hypothesis Hsort : is_argsort argsort.
Variables (df_ : DataFrame) (seats_ : Z).
Hypothesis Hne : df_ <> [].
Hypothesis Hseats : 0 < seats_.
Hypothesis quot_divisor :
  forall v d1 d2, 0 <= v -> 0 < d1 <= d2 -> (quot v d2 <= quot v d1)%Q.

Let rows := build_with quot 0 df_ seats_.
Let sorted := sorted_with quot argsort df_ seats_.
Let W := winners_with quot argsort df_ seats_.
Let Lo := skipn (Z.to_nat seats_) sorted.

Lemma row_seats_with_le r : (cnt (is_row r) W <= Z.to_nat seats_)%nat.
Proof.
  unfold W. rewrite <- (winners_with_length argsort Hsort df_ seats_ Hne).
  apply cnt_le_length.
Qed.

Lemma loser_below_winner_with w l :
  In w W -> In l Lo -> (Cociente l <= Cociente w)%Q.
Proof.
  apply (split_order sorted (Z.to_nat seats_)).
  apply sort_values_sorted, Hsort.
Qed.

(** One of the winning rows of a vote row that wins [k > 0] seats has a
    divisor of at least [k]. *)
Lemma row_winner_with r row :
  nth_error df_ r = Some row -> 0 <= Votos row ->
  (0 < cnt (is_row r) W)%nat ->
  exists e, In e W /\
            (Cociente e <= quot (Votos row) (Z.of_nat (cnt (is_row r) W)))%Q.
Proof.
  intros Hr Hv Hk.
  apply (old_winner_with argsort Hsort df_ r row (Votos row + 1) seats_ Hr);
    auto; lia.
Qed.

(** A vote row that wins fewer than [m <= seats_] seats has a losing row
    among its first [m] divisors. *)
Lemma row_loser_with r row (m : nat) :
  nth_error df_ r = Some row -> 0 <= Votos row ->
  (cnt (is_row r) W < m <= Z.to_nat seats_)%nat ->
  exists f, In f Lo /\ (quot (Votos row) (Z.of_nat m) <= Cociente f)%Q.
Proof.
  intros Hr Hv [Hlt Hm].
  set (low := fun x : Entry => Divisor x <=? Z.of_nat m).
  assert (Hr' : (r < length df_)%nat) by (apply nth_error_Some; congruence).
  assert (Hall : cnt (fun x => is_row r x && low x) rows = m).
  { assert (HB := row_block_cnt_with seats_ 0 df_ r (fun d => d <=? Z.of_nat m) Hr').
    change (0 + r)%nat with r in HB. unfold low, rows. rewrite HB.
    replace (seats_ + 1) with (Z.of_nat (Z.to_nat seats_) + 1) by lia.
    rewrite cnt_divisors_upto. lia. }
  unfold rows in Hall.
  rewrite (cnt_rows (build_with quot 0 df_ seats_) (sorted_with quot argsort df_ seats_)
             (Z.to_nat seats_)
             (sorted_with_Permutation argsort Hsort df_ seats_)) in Hall.
  assert (Hw : (cnt (fun x => is_row r x && low x)
                    (firstn (Z.to_nat seats_) (sorted_with quot argsort df_ seats_))
                <= cnt (is_row r) W)%nat).
  { unfold W, winners_with. apply cnt_mono.
    intros x _ Hx. now apply andb_true_iff in Hx. }
  destruct (cnt_exists (fun x => is_row r x && low x) Lo) as (f & Hf & Hp).
  { unfold Lo, sorted. lia. }
  apply andb_true_iff in Hp. destruct Hp as [Hrf Hd].
  exists f. split; [exact Hf|].
  assert (Hin : In f (build_with quot 0 df_ seats_)).
  { apply (Permutation_in _ (sorted_with_Permutation argsort Hsort df_ seats_)).
    eapply In_skipn, Hf. }
  destruct (row_entry_with seats_ df_ r row f Hr Hin Hrf) as [Hdiv ->].
  unfold low in Hd. apply Z.leb_le in Hd.
  apply quot_divisor; lia.
Qed.

(** A row whose quotients are all larger than those of another row wins at
    least as many seats. *)
Lemma more_votes_more_winners_with i j ri rj :
  nth_error df_ i = Some ri -> nth_error df_ j = Some rj ->
  0 <= Votos rj -> 0 <= Votos ri ->
  (forall d, 0 < d <= seats_ -> (quot (Votos rj) d < quot (Votos ri) d)%Q) ->
  (cnt (is_row j) W <= cnt (is_row i) W)%nat.
Proof.
  intros Hi Hj Hvj Hvi Hq.
  destruct (le_lt_dec (cnt (is_row j) W) (cnt (is_row i) W)) as [|Hlt];
    [assumption|exfalso].
  assert (Hjn := row_seats_with_le j).
  destruct (row_winner_with j rj Hj Hvj ltac:(lia)) as (e & He & Hle).
  destruct (row_loser_with i ri (cnt (is_row j) W) Hi Hvi) as (f & Hf & Hge).
  { split; [exact Hlt | exact Hjn]. }
  assert (Hfe := loser_below_winner_with e f He Hf).
  assert (Hstrict := Hq (Z.of_nat (cnt (is_row j) W)) ltac:(lia)).
  apply (Qlt_irrefl (quot (Votos rj) (Z.of_nat (cnt (is_row j) W)))).
  eapply Qlt_le_trans; [exact Hstrict|].
  eapply Qle_trans; [exact Hge|]. eapply Qle_trans; [exact Hfe|exact Hle].
Qed.
End AllocationWith.
End WithFacts.

(* ================================================================== *)
(** * The guard *)

(** C3, as stated: with [seats_ = 0] the allocation that [dhondt] returns for
    the three rows of scenario A is not all-zero.  It is the empty Series:
    it has no entry for any row, and after line 133 the [Escaños] column is
    NaN in every row. *)
Lemma empty_allocation_not_all_zero :
  fst (dhondt_run ex_A 0) = [] /\
  nth_error (fst (dhondt_run ex_A 0)) 0 = None /\
  escanos_column ex_A (fst (dhondt_run ex_A 0)) = [None; None; None] /\
  ~ all_zero_allocation ex_A (fst (dhondt_run ex_A 0)).
Proof.
  split; [reflexivity|]. split; [reflexivity|]. split; [reflexivity|].
  intros H. specialize (H O). simpl in H.
  assert (E : @None Z = Some 0) by (apply H; lia). discriminate E.
Qed.

(** C3, amended: when [seats_ <= 0] or the vote table has no rows, [dhondt]
    returns the empty allocation and the empty quotient table, whatever the
    division and the sort; the allocation has no entry for any row of the
    table, so the [Escaños] column built from it is NaN in every row. *)
Theorem dhondt_empty_result :
  forall quot argsort (df_ : DataFrame) (seats_ : Z),
    df_ = [] \/ seats_ <= 0 ->
    dhondt_with quot argsort df_ seats_ = ([], []) /\
    (forall i, nth_error (fst (dhondt_with quot argsort df_ seats_)) i = None) /\
    escanos_column df_ (fst (dhondt_with quot argsort df_ seats_))
    = map (fun _ => None) df_.
Proof.
  intros quot argsort df_ seats_ H.
  rewrite (dhondt_with_guard quot argsort df_ seats_ H). cbn [fst].
  split; [reflexivity|]. split; [intros i; now destruct i|].
  apply escanos_missing.
Qed.

Lemma dhondt_empty_result_witness :
  dhondt_with Binary64.int_div nargsort ex_A 0 = ([], []) /\
  (forall i, nth_error (fst (dhondt_with Binary64.int_div nargsort ex_A 0)) i = None) /\
  escanos_column ex_A (fst (dhondt_with Binary64.int_div nargsort ex_A 0))
  = map (fun _ => None) ex_A.
Proof. apply dhondt_empty_result. right. lia. Defined.

(* ================================================================== *)
(** * Ties *)

Lemma StronglySorted_nth {A : Type} (R : A -> A -> Prop) l i j a b :
  StronglySorted R l -> (i < j)%nat ->
  nth_error l i = Some a -> nth_error l j = Some b -> R a b.
Proof.
  intros Hs. revert i j. induction Hs as [|x l Hs IH Hall]; intros i j Hij Ha Hb.
  - now destruct i.
  - destruct j as [|j]; [lia|]. simpl in Hb. destruct i as [|i]; simpl in Ha.
    + injection Ha as <-. rewrite Forall_forall in Hall.
      apply Hall. eapply nth_error_In, Hb.
    + apply (IH i j); auto; lia.
Qed.

(** C2, as stated: the script does not rank equal quotients in input order.
    Four parties have 100 votes each and there are 5 seats: the quotient
    100/1 of D is ranked third and that of C fourth, and the fifth seat goes
    to B, not to A.  Two parties without votes and 9 seats: the quotient of B
    by 8 is ranked third, the quotient of A by 3 seventeenth. *)
Lemma ties_not_by_input_order :
  fst (dhondt_run ex_four 5) = [1; 2; 1; 1] /\
  nth_error (snd (dhondt_run ex_four 5)) 2
  = Some (mkRanked (mkEntry 3 "D" 1 100) 3 true) /\
  nth_error (snd (dhondt_run ex_four 5)) 3
  = Some (mkRanked (mkEntry 2 "C" 1 100) 4 true) /\
  ~ ties_by_input_order (snd (dhondt_run ex_four 5)) /\
  nth_error (snd (dhondt_run ex_zero 9)) 2
  = Some (mkRanked (mkEntry 1 "B" 8 0) 3 true) /\
  nth_error (snd (dhondt_run ex_zero 9)) 16
  = Some (mkRanked (mkEntry 0 "A" 3 0) 17 false) /\
  ~ ties_by_input_order (snd (dhondt_run ex_zero 9)).
Proof.
  assert (HD : nth_error (snd (dhondt_run ex_four 5)) 2
               = Some (mkRanked (mkEntry 3 "D" 1 100) 3 true))
    by (vm_compute; reflexivity).
  assert (HC : nth_error (snd (dhondt_run ex_four 5)) 3
               = Some (mkRanked (mkEntry 2 "C" 1 100) 4 true))
    by (vm_compute; reflexivity).
  assert (HB : nth_error (snd (dhondt_run ex_zero 9)) 2
               = Some (mkRanked (mkEntry 1 "B" 8 0) 3 true))
    by (vm_compute; reflexivity).
  assert (HA : nth_error (snd (dhondt_run ex_zero 9)) 16
               = Some (mkRanked (mkEntry 0 "A" 3 0) 17 false))
    by (vm_compute; reflexivity).
  split; [vm_compute; reflexivity|].
  split; [exact HD|]. split; [exact HC|]. split; [|split; [exact HB|split; [exact HA|]]].
  - intros H.
    specialize (H _ _ (nth_error_In _ _ HC) (nth_error_In _ _ HD)). simpl in H.
    assert (Hlt : 4 < 3); [|lia].
    apply H; [reflexivity | lia].
  - intros H.
    specialize (H _ _ (nth_error_In _ _ HA) (nth_error_In _ _ HB)). simpl in H.
    assert (Hlt : 17 < 3); [|lia].
    apply H; [reflexivity | lia].
Qed.

(** C2, amended: the ranking is by quotient, largest first: the quotient
    table is in non-increasing quotient order, and a row with a strictly
    larger quotient has the smaller rank.  Nothing is said of rows with equal
    quotients. *)
Theorem ranking_by_quotient :
  forall quot argsort (df_ : DataFrame) (seats_ : Z),
    is_argsort argsort ->
    StronglySorted qge (map entry (snd (dhondt_with quot argsort df_ seats_))) /\
    forall r1 r2,
      In r1 (snd (dhondt_with quot argsort df_ seats_)) ->
      In r2 (snd (dhondt_with quot argsort df_ seats_)) ->
      (Cociente (entry r2) < Cociente (entry r1))%Q ->
      Rank r1 < Rank r2.
Proof.
  intros quot argsort df_ seats_ Hsort.
  destruct (Z_lt_le_dec 0 seats_) as [Hs | Hs];
    [|rewrite (dhondt_with_guard quot argsort df_ seats_ (or_intror Hs));
      split; [constructor | intros r1 r2 []]].
  destruct df_ as [|x0 df0] eqn:Edf;
    [split; [constructor | intros r1 r2 []]|]. rewrite <- Edf.
  rewrite dhondt_with_normal by (try assumption; rewrite Edf; discriminate).
  cbn [snd]. rewrite rank_rows_entry.
  assert (Hss : StronglySorted qge (sorted_with quot argsort df_ seats_))
    by now apply sort_values_sorted.
  split; [exact Hss|].
  intros r1 r2 H1 H2 Hlt.
  apply In_nth_error in H1. destruct H1 as (p1 & H1).
  apply In_nth_error in H2. destruct H2 as (p2 & H2).
  rewrite rank_rows_nth in H1, H2.
  destruct (nth_error (sorted_with quot argsort df_ seats_) p1) as [e1|] eqn:E1;
    [|discriminate].
  destruct (nth_error (sorted_with quot argsort df_ seats_) p2) as [e2|] eqn:E2;
    [|discriminate].
  simpl in H1, H2. injection H1 as <-. injection H2 as <-. simpl in *.
  destruct (lt_eq_lt_dec p1 p2) as [[Hp | Hp] | Hp].
  - lia.
  - exfalso. subst p2. rewrite E1 in E2. injection E2 as <-.
    exact (Qlt_irrefl _ Hlt).
  - exfalso. assert (Hq := StronglySorted_nth qge _ _ _ _ _ Hss Hp E2 E1).
    unfold qge in Hq. apply (Qlt_irrefl (Cociente e1)).
    eapply Qle_lt_trans; [exact Hq|exact Hlt].
Qed.

Lemma ranking_by_quotient_witness :
  StronglySorted qge
    (map entry (snd (dhondt_with Binary64.int_div stable_argsort ex_A 3))) /\
  forall r1 r2,
    In r1 (snd (dhondt_with Binary64.int_div stable_argsort ex_A 3)) ->
    In r2 (snd (dhondt_with Binary64.int_div stable_argsort ex_A 3)) ->
    (Cociente (entry r2) < Cociente (entry r1))%Q ->
    Rank r1 < Rank r2.
Proof. apply ranking_by_quotient. exact stable_argsort_ok. Defined.

(* ================================================================== *)
(** * Raising the votes of a row *)

(** C5, as stated: the script can take a seat from a row whose votes are
    raised.  Two parties have 36028797018963973 votes each and there are 17
    seats: A gets 9 of them, and 8 once its votes are raised by 4.  Closer to
    [2^52]: with 5084760718407272 and 5084760718407271 votes B gets 9 of 17
    seats, and 8 once it has one vote more. *)
Lemma raising_votes_loses_seat :
  (nth_error ex_big 0 = Some (mkRow "A" 36028797018963973) /\
   seats_won (fst (dhondt_run ex_big 17)) 0 = 9 /\
   seats_won (fst (dhondt_run (set_votos ex_big 0 36028797018963977) 17)) 0 = 8 /\
   ~ (seats_won (fst (dhondt_run ex_big 17)) 0
      <= seats_won (fst (dhondt_run (set_votos ex_big 0 36028797018963977) 17)) 0)) /\
  (nth_error ex_near 1 = Some (mkRow "B" 5084760718407271) /\
   5084760718407272 < 2 ^ 53 /\
   seats_won (fst (dhondt_run ex_near 17)) 1 = 9 /\
   seats_won (fst (dhondt_run (set_votos ex_near 1 5084760718407272) 17)) 1 = 8).
Proof.
  assert (E1 : seats_won (fst (dhondt_run ex_big 17)) 0 = 9)
    by (vm_compute; reflexivity).
  assert (E2 : seats_won
                 (fst (dhondt_run (set_votos ex_big 0 36028797018963977) 17)) 0 = 8)
    by (vm_compute; reflexivity).
  split.
  - split; [reflexivity|]. split; [exact E1|]. split; [exact E2|].
    rewrite E1, E2. lia.
  - split; [reflexivity|]. split; [reflexivity|].
    split; vm_compute; reflexivity.
Qed.

(** C5, amended: with double quotients, raising the votes of one row to at
    most [2^52], the other rows and the seat count unchanged, never lowers
    the number of seats [dhondt] gives to that row, whatever the order the
    sort leaves among equal quotients. *)
Theorem dhondt_monotone :
  forall argsort (df_ : DataFrame) (r : nat) (row : Row) (v' seats_ : Z),
    is_argsort argsort ->
    nth_error df_ r = Some row ->
    0 <= Votos row <= v' ->
    v' <= 2 ^ 52 ->
    seats_won (fst (dhondt_with Binary64.int_div argsort df_ seats_)) r
    <= seats_won
         (fst (dhondt_with Binary64.int_div argsort (set_votos df_ r v') seats_)) r.
Proof.
  intros argsort df_ r row v' seats_ Hsort Hrow Hv Hb.
  destruct (Z.eq_dec (Votos row) v') as [<- | Hne].
  { rewrite (set_votos_same df_ r row Hrow). lia. }
  destruct (Z_lt_le_dec 0 seats_) as [Hs | Hs].
  - assert (H1 : df_ <> []) by (intros E; rewrite E in Hrow; now destruct r).
    assert (H2 : set_votos df_ r v' <> []).
    { intros E. assert (H := set_votos_length df_ r v'). rewrite E in H.
      destruct df_; simpl in *; congruence. }
    rewrite !seats_won_with_cnt by assumption.
    apply inj_le.
    apply (winners_with_monotone Binary64.int_div argsort Hsort df_ r row v' seats_ Hrow);
      try lia.
    + intros v d1 d2 H0 Hd. now apply int_div_le_divisor.
    + intros d Hd. apply int_div_lt_votes; lia.
  - rewrite (dhondt_with_guard _ argsort df_ seats_ (or_intror Hs)).
    rewrite (dhondt_with_guard _ argsort (set_votos df_ r v') seats_ (or_intror Hs)).
    reflexivity.
Qed.

Lemma dhondt_monotone_witness :
  seats_won (fst (dhondt_with Binary64.int_div stable_argsort ex_A 3)) 1
  <= seats_won
       (fst (dhondt_with Binary64.int_div stable_argsort (set_votos ex_A 1 120) 3)) 1.
Proof.
  apply (dhondt_monotone stable_argsort ex_A 1 (mkRow "B" 50) 120 3).
  - exact stable_argsort_ok.
  - reflexivity.
  - simpl. lia.
  - lia.
Defined.

(* ================================================================== *)
(** * Two rows of one table *)

(** X4. With double quotients, a row with strictly more votes than another
    row, and at most [2^52] of them, never gets fewer seats than it, however
    the sort orders equal quotients. *)
Theorem more_votes_no_fewer_seats :
  forall argsort (df_ : DataFrame) (seats_ : Z) (i j : nat) (ri rj : Row),
    is_argsort argsort ->
    nth_error df_ i = Some ri -> nth_error df_ j = Some rj ->
    0 <= Votos rj < Votos ri ->
    Votos ri <= 2 ^ 52 ->
    seats_won (fst (dhondt_with Binary64.int_div argsort df_ seats_)) j
    <= seats_won (fst (dhondt_with Binary64.int_div argsort df_ seats_)) i.
Proof.
  intros argsort df_ seats_ i j ri rj Hsort Hi Hj Hv Hb.
  destruct (Z_lt_le_dec 0 seats_) as [Hs | Hs].
  - assert (Hne := nonempty_of_nth _ _ _ Hi).
    rewrite !seats_won_with_cnt by assumption.
    apply inj_le.
    apply (more_votes_more_winners_with Binary64.int_div argsort Hsort df_ seats_ Hne Hs)
      with (ri := ri) (rj := rj); try assumption; try lia.
    + intros v d1 d2 H0 Hd. now apply int_div_le_divisor.
    + intros d Hd. apply int_div_lt_votes; lia.
  - rewrite (dhondt_with_guard _ argsort df_ seats_ (or_intror Hs)).
    rewrite !seats_won_nil. lia.
Qed.

Lemma more_votes_no_fewer_seats_witness :
  seats_won (fst (dhondt_with Binary64.int_div stable_argsort ex_A 3)) 1
  <= seats_won (fst (dhondt_with Binary64.int_div stable_argsort ex_A 3)) 0.
Proof.
  apply (more_votes_no_fewer_seats stable_argsort ex_A 3 0 1
           (mkRow "A" 100) (mkRow "B" 50)).
  - exact stable_argsort_ok.
  - reflexivity.
  - reflexivity.
  - simpl. lia.
  - simpl. lia.
Defined.

(* ================================================================== *)
(** * [sanitize] on any column *)

Lemma cast_int64_inject (z : Z) :
  int64_min <= z <= int64_max -> cast_int64 (inject_Z z) = z.
Proof.
  intros [H1 H2]. unfold cast_int64. rewrite astype_int_inject.
  apply Z.leb_le in H1, H2. now rewrite H1, H2.
Qed.

Lemma sanitize_cell_castable parse_float (c : RawCell) :
  castable (numeric_float parse_float c) ->
  exists v, sanitize_cell parse_float c = Some v /\
            sanitized_vote (numeric_float parse_float c) v.
Proof.
  unfold sanitize_cell. destruct (numeric_float parse_float c) as [| | |x]; simpl.
  - intros _. exists 0. repeat split; lia.
  - intros [].
  - intros _. exists 0. repeat split; lia.
  - intros Hx. destruct (Qle_bool 0 x) eqn:Hpos; simpl.
    + apply Qle_bool_iff in Hpos.
      assert (H0 := round_half_even_nonneg x Hpos).
      exists (round_half_even x). unfold sanitized_vote. rewrite (proj2 (Qle_bool_iff 0 x) Hpos).
      split; [|split; [exact H0|split; [reflexivity|apply round_half_even_near]]].
      f_equal. apply cast_int64_inject. unfold int64_min. split; [lia|exact Hx].
    + exists 0. unfold sanitized_vote. rewrite Hpos. repeat split; lia.
Qed.

Lemma sanitize_raw_cons parse_float (r : RawLine) (df : list RawLine) :
  sanitize_raw parse_float (r :: df) =
  match sanitize_cell parse_float (lVotos r), sanitize_raw parse_float df with
  | Some v, Some out =>
      Some (mkRow (match lPartido r with Some s => s | None => EmptyString end) v :: out)
  | _, _ => None
  end.
Proof.
  unfold sanitize_raw. cbn [map all_some].
  destruct (sanitize_cell parse_float (lVotos r)) as [v|]; [|reflexivity].
  destruct (all_some (map (fun r0 => sanitize_cell parse_float (lVotos r0)) df));
    reflexivity.
Qed.

(** C10, as stated: [sanitize] does not turn every table into non-negative
    integer votes.  On plus infinity, as a float or as the string "inf",
    [astype(int)] raises and there is no table; the finite value [10^19] is
    cast to [-2^63]. *)
Lemma sanitize_raises_or_goes_negative :
  sanitize_raw (fun _ => None) [mkLine (Some "A"%string) (RNum PInf)] = None /\
  sanitize_raw (fun s => if String.eqb s "inf" then Some PInf else None)
               [mkLine (Some "A"%string) (RStr "inf")] = None /\
  sanitize_raw (fun _ => None)
               [mkLine (Some "A"%string) (RNum (Fin 10000000000000000000))]
  = Some [mkRow "A" (- 9223372036854775808)].
Proof. split; [|split]; vm_compute; reflexivity. Qed.

(** C10, amended: [sanitize] turns every table whose numeric values are not
    plus infinity and round to at most [2^63 - 1] into one with as many rows
    whose [Votos] are non-negative integers: a value that is not a number
    becomes 0, a negative number (minus infinity too) becomes 0, and any
    other number is rounded to the nearest integer, halves to even, so that
    2.6 becomes 3. *)
Theorem sanitize_votos :
  forall (parse_float : string -> option Float) (df : list RawLine),
    Forall (fun raw => castable (numeric_float parse_float (lVotos raw))) df ->
    (exists out,
       sanitize_raw parse_float df = Some out /\
       length out = length df /\
       forall i raw,
         nth_error df i = Some raw ->
         exists row,
           nth_error out i = Some row /\
           sanitized_vote (numeric_float parse_float (lVotos raw)) (Votos row)) /\
    sanitize_raw parse_float [mkLine None (RNum (Fin (26 # 10)))]
    = Some [mkRow "" 3].
Proof.
  intros parse_float df Hdf. split; [|reflexivity].
  induction Hdf as [|r df Hr Hdf IH].
  - exists []. split; [reflexivity|]. split; [reflexivity|].
    intros i raw H. now destruct i.
  - destruct IH as (out & Eout & Hlen & Hnth).
    destruct (sanitize_cell_castable parse_float (lVotos r) Hr) as (v & Ev & Hv).
    eexists. rewrite sanitize_raw_cons, Ev, Eout. split; [reflexivity|].
    split; [simpl; now rewrite Hlen|].
    intros [|i] raw H; simpl in H.
    + injection H as <-. eexists. split; [reflexivity|exact Hv].
    + exact (Hnth i raw H).
Qed.

Lemma sanitize_votos_witness :
  (exists out,
     sanitize_raw (fun _ => None)
       [mkLine (Some "A"%string) (RNum (Fin (26 # 10)));
        mkLine None (RStr "x"); mkLine (Some "C"%string) (RNum NInf)] = Some out /\
     length out = 3%nat /\
     forall i raw,
       nth_error [mkLine (Some "A"%string) (RNum (Fin (26 # 10)));
                  mkLine None (RStr "x"); mkLine (Some "C"%string) (RNum NInf)] i
       = Some raw ->
       exists row,
         nth_error out i = Some row /\
         sanitized_vote (numeric_float (fun _ => None) (lVotos raw)) (Votos row)) /\
  sanitize_raw (fun _ => None) [mkLine None (RNum (Fin (26 # 10)))]
  = Some [mkRow "" 3].
Proof.
  apply (sanitize_votos (fun _ => None)
           [mkLine (Some "A"%string) (RNum (Fin (26 # 10)));
            mkLine None (RStr "x"); mkLine (Some "C"%string) (RNum NInf)]).
  repeat constructor. vm_compute. discriminate.
Defined.


(* ================================================================== *)
(** * The percentage column *)

Lemma int64_wrap_small (z : Z) : int64_min <= z <= int64_max -> int64_wrap z = z.
Proof.
  unfold int64_wrap, int64_min, int64_max. intros H.
  rewrite Z.mod_small by lia. lia.
Qed.

Lemma Qmult_le_nonneg_l (z x y : Q) :
  (0 <= z)%Q -> (x <= y)%Q -> (z * x <= z * y)%Q.
Proof.
  intros Hz Hxy. rewrite !(Qmult_comm z). now apply Qmult_le_compat_r.
Qed.

(** The quotient of two int64 read as doubles is within [2^-52] of the exact
    ratio. *)
Lemma ratio_near (v T : Z) :
  0 <= v <= T -> 0 < T ->
  (0 <= Binary64.of_int v / Binary64.of_int T)%Q /\
  (Binary64.of_int v / Binary64.of_int T <= 1)%Q /\
  (Binary64.of_int v / Binary64.of_int T - true_div v T <= 2 * (1 # 2 ^ 53))%Q /\
  (true_div v T - Binary64.of_int v / Binary64.of_int T <= 2 * (1 # 2 ^ 53))%Q.
Proof.
  intros [Hv HvT] HT. unfold Binary64.of_int, true_div.
  assert (PV : (0 <= inject_Z v)%Q)
    by (change 0%Q with (inject_Z 0); rewrite <- Zle_Qle; lia).
  assert (PT : (0 < inject_Z T)%Q)
    by (change 0%Q with (inject_Z 0); rewrite <- Zlt_Qlt; lia).
  assert (LE : (inject_Z v <= inject_Z T)%Q) by now rewrite <- Zle_Qle.
  destruct (round_error (inject_Z v) (inject_Z v) PV (Qle_refl _)) as [A1 A2].
  destruct (round_error (inject_Z T) (inject_Z T) (Qlt_le_weak _ _ PT) (Qle_refl _))
    as [B1 B2].
  assert (Pa := round_nonneg _ PV).
  assert (Pb := round_positive _ PT).
  assert (Lab := round_mono _ _ PV LE).
  set (a := Binary64.round (inject_Z v)) in *.
  set (b := Binary64.round (inject_Z T)) in *.
  set (V := inject_Z v) in *. set (Tq := inject_Z T) in *.
  assert (Nb : ~ (b == 0)%Q) by (intros E; rewrite E in Pb; discriminate).
  assert (NT : ~ (Tq == 0)%Q) by (intros E; rewrite E in PT; discriminate).
  assert (Er : (a / b * b == a)%Q) by (field; exact Nb).
  assert (Ee : (V / Tq * Tq == V)%Q) by (field; exact NT).
  assert (R0 : (0 <= a / b)%Q).
  { apply Qle_shift_div_l; [exact Pb|]. now rewrite Qmult_0_l. }
  assert (R1 : (a / b <= 1)%Q).
  { apply Qle_shift_div_r; [exact Pb|]. now rewrite Qmult_1_l. }
  assert (E0 : (0 <= V / Tq)%Q).
  { apply Qle_shift_div_l; [exact PT|]. now rewrite Qmult_0_l. }
  assert (E1 : (V / Tq <= 1)%Q).
  { apply Qle_shift_div_r; [exact PT|]. now rewrite Qmult_1_l. }
  change (1 # 2 ^ 53)%Q with (1 # 9007199254740992)%Q in *.
  set (u := (1 # 9007199254740992)%Q) in *.
  (* r (1 - u) <= e (1 + u) and e (1 - u) <= r (1 + u), with the common
     factor Tq removed. *)
  assert (P1 : (a / b * (1 - u) <= V / Tq * (1 + u))%Q).
  { apply (Qmult_le_r _ _ Tq PT).
    apply Qle_trans with (a / b * b)%Q.
    - setoid_replace (a / b * (1 - u) * Tq)%Q with (a / b * (Tq - Tq * u))%Q by ring.
      apply Qmult_le_nonneg_l; [exact R0|]. unfold u in *. lra.
    - rewrite Er.
      setoid_replace (V / Tq * (1 + u) * Tq)%Q with ((V / Tq * Tq) * (1 + u))%Q by ring.
      rewrite Ee. unfold u in *. lra. }
  assert (P2 : (V / Tq * (1 - u) <= a / b * (1 + u))%Q).
  { apply (Qmult_le_r _ _ Tq PT).
    apply Qle_trans with (a / b * b)%Q.
    - setoid_replace (V / Tq * (1 - u) * Tq)%Q with ((V / Tq * Tq) * (1 - u))%Q by ring.
      rewrite Ee, Er. unfold u in *. lra.
    - setoid_replace (a / b * (1 + u) * Tq)%Q with (a / b * (Tq + Tq * u))%Q by ring.
      apply Qmult_le_nonneg_l; [exact R0|]. unfold u in *. lra. }
  generalize dependent (a / b)%Q. generalize dependent (V / Tq)%Q.
  intros e _ E0 E1 r _ R0 R1 P1 P2. unfold u in *.
  repeat split; lra.
Qed.

(** The hundredths that [numpy.round(x, 2)] keeps of a double [x] between 0
    and 100, and the double it returns. *)
Lemma round2_near (x : Q) :
  (0 <= x)%Q -> (x <= 100)%Q ->
  exists k : Z,
    round2 x = Binary64.round (inject_Z k / 100) /\
    0 <= k <= 10000 /\
    (inject_Z k - x * 100 <= (1 # 2) + 10000 * (1 # 2 ^ 53))%Q /\
    (x * 100 - inject_Z k <= (1 # 2) + 10000 * (1 # 2 ^ 53))%Q.
Proof.
  intros H0 H100. unfold round2, Binary64.div, Binary64.mul.
  set (y := (x * 100)%Q).
  assert (Hy0 : (0 <= y)%Q) by (unfold y; lra).
  assert (Hy1 : (y <= 10000)%Q) by (unfold y; lra).
  destruct (round_error y 10000 Hy0 Hy1) as [E1 E2].
  assert (R0 := round_nonneg y Hy0).
  assert (R1 := round_mono y 10000 Hy0 Hy1).
  change (Binary64.round 10000) with (inject_Z 10000) in R1.
  destruct (round_half_even_near (Binary64.round y)) as [K1 K2].
  exists (round_half_even (Binary64.round y)). split; [reflexivity|]. split.
  - split.
    + now apply round_half_even_nonneg.
    + rewrite <- (round_half_even_int 10000). now apply round_half_even_mono.
  - generalize dependent (inject_Z (round_half_even (Binary64.round y))).
    generalize dependent (Binary64.round y). intros r E1 E2 R0 R1 k K1 K2.
    split; lra.
Qed.

(** One cell of the percentage column, for a row with [v] of [T > 0]
    votes. *)
Lemma pct_cell (v T : Z) :
  0 <= v <= T -> 0 < T ->
  exists (p : Q) (k : Z),
    fround2 (ffillna0 (fmul100 (series_div v T))) = Fin p /\
    p = Binary64.round (inject_Z k / 100) /\
    0 <= k <= 10000 /\
    (inject_Z k / 100 - true_div v T * 100 <= (1 # 200) + (1 # 10 ^ 13))%Q /\
    (true_div v T * 100 - inject_Z k / 100 <= (1 # 200) + (1 # 10 ^ 13))%Q /\
    (p - true_div v T * 100 <= (1 # 200) + (1 # 10 ^ 13))%Q /\
    (true_div v T * 100 - p <= (1 # 200) + (1 # 10 ^ 13))%Q /\
    (0 <= p)%Q /\ (p <= 100)%Q.
Proof.
  intros Hv HT. unfold series_div.
  destruct (Z.eqb_spec T 0) as [E0 | _]; [lia|].
  cbn [fmul100 ffillna0 fround2].
  unfold Binary64.div at 1, Binary64.mul.
  destruct (ratio_near v T Hv HT) as (R0 & R1 & R2 & R3).
  set (e := true_div v T) in *.
  set (r := (Binary64.of_int v / Binary64.of_int T)%Q) in *.
  destruct (round_error r 1 R0 R1) as [A1 A2].
  assert (X0 := round_nonneg r R0).
  assert (X1 := round_mono r 1 R0 R1).
  change (Binary64.round 1) with 1%Q in X1.
  set (x1 := Binary64.round r) in *.
  assert (Hy0 : (0 <= x1 * 100)%Q) by lra.
  assert (Hy1 : (x1 * 100 <= 100)%Q) by lra.
  destruct (round_error (x1 * 100) 100 Hy0 Hy1) as [B1 B2].
  assert (Y0 := round_nonneg (x1 * 100) Hy0).
  assert (Y1 := round_mono (x1 * 100) 100 Hy0 Hy1).
  change (Binary64.round 100) with 100%Q in Y1.
  set (x2 := Binary64.round (x1 * 100)) in *.
  destruct (round2_near x2 Y0 Y1) as (k & Ek & Hk & C1 & C2).
  exists (round2 x2), k. split; [reflexivity|]. split; [exact Ek|]. split; [exact Hk|].
  assert (Hq0 : (0 <= inject_Z k / 100)%Q).
  { apply Qle_shift_div_l; [reflexivity|]. rewrite Qmult_0_l.
    change 0%Q with (inject_Z 0). rewrite <- Zle_Qle. lia. }
  assert (Hq1 : (inject_Z k / 100 <= 100)%Q).
  { apply Qle_shift_div_r; [reflexivity|].
    change (100 * 100)%Q with (inject_Z 10000). rewrite <- Zle_Qle. lia. }
  destruct (round_error (inject_Z k / 100) 100 Hq0 Hq1) as [D1 D2].
  assert (P0 := round_nonneg _ Hq0).
  assert (P1 := round_mono _ 100 Hq0 Hq1).
  change (Binary64.round 100) with 100%Q in P1.
  rewrite Ek. clear Ek Hk.
  generalize dependent (Binary64.round (inject_Z k / 100)). intros p D1 D2 P0 P1.
  clearbody x2. clearbody x1. clearbody r. clearbody e.
  unfold Qdiv in Hq0, Hq1, D1, D2 |- *.
  change (/ 100)%Q with (1 # 100)%Q in *.
  generalize dependent (inject_Z k). intros z C1 C2 Hq0 Hq1 D1 D2.
  change (1 # 2 ^ 53)%Q with (1 # 9007199254740992)%Q in *.
  change (1 # 10 ^ 13)%Q with (1 # 10000000000000)%Q.
  repeat split; lra.
Qed.

Lemma pct_cell_zero :
  fround2 (ffillna0 (fmul100 (series_div 0 0))) = Fin 0%Q.
Proof. reflexivity. Qed.

(** C9, as stated: the percentage is not always [votes / total * 100]
    rounded to two decimals, and [total_votes] is not always the sum of the
    votes.  23 votes of 160 are 14.375 percent, which rounds to 14.38; the
    script computes the double nearest to 14.37.  436075970890 votes of
    490551741819 are less than 88.895 percent, which rounds to 88.89; the
    script computes the double nearest to 88.90.  Two rows of [2^62] votes
    add up to [-2^63] and get -50 percent each. *)
Lemma pct_not_the_rounded_ratio :
  ((true_div 23 (total_votes ex_pct) * 100 == 14375 # 1000)%Q /\
   (pct_as_specified 23 (total_votes ex_pct) == 1438 # 100)%Q /\
   nth_error (pct_column ex_pct) 0 = Some (Fin (Binary64.round (1437 # 100))) /\
   ~ (Binary64.round (1437 # 100) == pct_as_specified 23 (total_votes ex_pct))%Q) /\
  ((true_div 436075970890 (total_votes ex_pct_near) * 100 < 88895 # 1000)%Q /\
   (pct_as_specified 436075970890 (total_votes ex_pct_near) == 8889 # 100)%Q /\
   nth_error (pct_column ex_pct_near) 0 = Some (Fin (Binary64.round (8890 # 100))) /\
   ((1 # 200) < Binary64.round (8890 # 100)
                - true_div 436075970890 (total_votes ex_pct_near) * 100)%Q) /\
  (total_votes ex_wrap = 2 ^ 63 /\
   total_votes_int64 ex_wrap = - 2 ^ 63 /\
   pct_column ex_wrap = [Fin (- 50 # 1); Fin (- 50 # 1)]).
Proof.
  split; [|split].
  - split; [reflexivity|]. split; [reflexivity|].
    split; [vm_compute; reflexivity|].
    intros H; vm_compute in H; discriminate H.
  - split; [reflexivity|]. split; [reflexivity|].
    split; [vm_compute; reflexivity|]. vm_compute. reflexivity.
  - split; [reflexivity|]. split; [reflexivity|]. vm_compute. reflexivity.
Qed.

(** C9, amended: for non-negative votes whose sum [total_votes] is in int64,
    the percentage of a row is the double nearest to a number of hundredths
    [k / 100] that lies within 0.005 (and a rounding error below [10^-13]) of
    [votes / total_votes * 100]; when the sum is 0 the percentage of every
    row is 0. *)
Theorem pct_column_spec :
  forall (df : DataFrame),
    Forall (fun r => 0 <= Votos r) df ->
    total_votes df <= int64_max ->
    length (pct_column df) = length df /\
    total_votes_int64 df = total_votes df /\
    forall i r,
      nth_error df i = Some r ->
      exists p,
        nth_error (pct_column df) i = Some (Fin p) /\
        (total_votes df = 0 -> p = 0%Q) /\
        (total_votes df <> 0 ->
           exists k : Z,
             p = Binary64.round (inject_Z k / 100) /\
             0 <= k <= 10000 /\
             (inject_Z k / 100 - true_div (Votos r) (total_votes df) * 100
              <= (1 # 200) + (1 # 10 ^ 13))%Q /\
             (true_div (Votos r) (total_votes df) * 100 - inject_Z k / 100
              <= (1 # 200) + (1 # 10 ^ 13))%Q /\
             (p - true_div (Votos r) (total_votes df) * 100
              <= (1 # 200) + (1 # 10 ^ 13))%Q /\
             (true_div (Votos r) (total_votes df) * 100 - p
              <= (1 # 200) + (1 # 10 ^ 13))%Q).
Proof.
  intros df Hnn Hb.
  assert (HT0 : 0 <= total_votes df).
  { unfold total_votes. apply sum_Z_nonneg. now apply Forall_map. }
  assert (EW : total_votes_int64 df = total_votes df).
  { unfold total_votes_int64. apply int64_wrap_small.
    unfold int64_min. lia. }
  split; [apply length_map|]. split; [exact EW|].
  intros i r Hr. unfold pct_column. rewrite nth_error_map, Hr, EW. cbn [option_map].
  assert (HvT := vote_le_total df i r Hnn Hr).
  assert (Hv0 : 0 <= Votos r).
  { rewrite Forall_forall in Hnn. apply Hnn. eapply nth_error_In, Hr. }
  destruct (Z.eq_dec (total_votes df) 0) as [E0 | N0].
  - replace (Votos r) with 0 by lia. rewrite E0, pct_cell_zero.
    eexists. split; [reflexivity|]. split; [intros _; reflexivity|congruence].
  - destruct (pct_cell (Votos r) (total_votes df)) as (p & k & Ep & H); [lia|lia|].
    exists p. split; [now rewrite Ep|]. split; [congruence|]. intros _.
    exists k. tauto.
Qed.

Lemma pct_column_spec_witness :
  length (pct_column ex_A) = length ex_A /\
  total_votes_int64 ex_A = total_votes ex_A /\
  forall i r,
    nth_error ex_A i = Some r ->
    exists p,
      nth_error (pct_column ex_A) i = Some (Fin p) /\
      (total_votes ex_A = 0 -> p = 0%Q) /\
      (total_votes ex_A <> 0 ->
         exists k : Z,
           p = Binary64.round (inject_Z k / 100) /\
           0 <= k <= 10000 /\
           (inject_Z k / 100 - true_div (Votos r) (total_votes ex_A) * 100
            <= (1 # 200) + (1 # 10 ^ 13))%Q /\
           (true_div (Votos r) (total_votes ex_A) * 100 - inject_Z k / 100
            <= (1 # 200) + (1 # 10 ^ 13))%Q /\
           (p - true_div (Votos r) (total_votes ex_A) * 100
            <= (1 # 200) + (1 # 10 ^ 13))%Q /\
           (true_div (Votos r) (total_votes ex_A) * 100 - p
            <= (1 # 200) + (1 # 10 ^ 13))%Q).
Proof.
  apply pct_column_spec.
  - repeat constructor; simpl; lia.
  - vm_compute. discriminate.
Defined.

(** X9. With non-negative votes whose sum is in int64, every value of the
    percentage column is a finite number between 0 and 100, also when the
    sum is 0. *)
Theorem pct_column_bounds :
  forall (df : DataFrame) (f : Float),
    Forall (fun r => 0 <= Votos r) df ->
    total_votes df <= int64_max ->
    In f (pct_column df) ->
    exists p, f = Fin p /\ (0 <= p)%Q /\ (p <= 100)%Q.
Proof.
  intros df f Hnn Hb Hf.
  assert (HT0 : 0 <= total_votes df).
  { unfold total_votes. apply sum_Z_nonneg. now apply Forall_map. }
  assert (EW : total_votes_int64 df = total_votes df).
  { unfold total_votes_int64. apply int64_wrap_small. unfold int64_min. lia. }
  unfold pct_column in Hf. rewrite EW in Hf. apply in_map_iff in Hf.
  destruct Hf as (r & <- & Hr). apply In_nth_error in Hr. destruct Hr as [i Hi].
  assert (Hv : 0 <= Votos r).
  { rewrite Forall_forall in Hnn. apply Hnn. eapply nth_error_In, Hi. }
  assert (HvT := vote_le_total df i r Hnn Hi).
  destruct (Z.eq_dec (total_votes df) 0) as [E0 | N0].
  - replace (Votos r) with 0 by lia. rewrite E0, pct_cell_zero.
    exists 0%Q. split; [reflexivity|]. split; [apply Qle_refl|discriminate].
  - destruct (pct_cell (Votos r) (total_votes df)) as (p & k & Ep & H); [lia|lia|].
    exists p. split; [exact Ep|]. tauto.
Qed.

Lemma pct_column_bounds_witness :
  exists p, Fin (Binary64.round (6250 # 100)) = Fin p /\ (0 <= p)%Q /\ (p <= 100)%Q.
Proof.
  apply (pct_column_bounds ex_A (Fin (Binary64.round (6250 # 100)))).
  - repeat constructor; simpl; lia.
  - vm_compute. discriminate.
  - vm_compute. auto.
Defined.

Lemma true_div_plus a b t : (true_div (a + b) t == true_div a t + true_div b t)%Q.
Proof. unfold true_div, Qdiv. rewrite inject_Z_plus. ring. Qed.

Lemma true_div_same t : t <> 0 -> (true_div t t == 1)%Q.
Proof.
  intros Ht. unfold true_div, Qdiv. apply Qmult_inv_r.
  unfold Qeq. simpl. lia.
Qed.

Lemma pct_sum_near (T : Z) (l : DataFrame) :
  0 < T ->
  Forall (fun r => 0 <= Votos r <= T) l ->
  let ps := map (fun r => fin_value
                   (fround2 (ffillna0 (fmul100 (series_div (Votos r) T))))) l in
  let exact := (true_div (sum_Z (map Votos l)) T * 100)%Q in
  let slack := (inject_Z (Z.of_nat (length l)) * ((1 # 200) + (1 # 10 ^ 13)))%Q in
  (sum_Q ps - exact <= slack)%Q /\ (exact - sum_Q ps <= slack)%Q.
Proof.
  intros HT Hl. induction Hl as [|r l Hr Hl IH]; cbv zeta in *.
  - cbn [map length sum_Q sum_Z fold_right Z.of_nat].
    assert (E : (true_div 0 T == 0)%Q)
      by (unfold true_div, Qdiv; change (inject_Z 0) with 0%Q; ring).
    rewrite E. change (inject_Z 0) with 0%Q. split; lra.
  - cbn [map length]. rewrite sum_Z_cons.
    change (sum_Q (?x :: ?t)) with (x + sum_Q t)%Q.
    destruct (pct_cell (Votos r) T Hr HT) as (p & k & Ep & _ & _ & _ & _ & H1 & H2 & _).
    rewrite Ep. cbn [fin_value].
    rewrite Nat2Z.inj_succ. unfold Z.succ. rewrite inject_Z_plus, true_div_plus.
    change (inject_Z 1) with 1%Q.
    destruct IH as [IH1 IH2].
    generalize dependent (sum_Q (map (fun r0 => fin_value
        (fround2 (ffillna0 (fmul100 (series_div (Votos r0) T))))) l)).
    generalize dependent (true_div (sum_Z (map Votos l)) T).
    generalize dependent (true_div (Votos r) T).
    generalize dependent (inject_Z (Z.of_nat (length l))).
    change (1 # 10 ^ 13)%Q with (1 # 10000000000000)%Q.
    intros. split; lra.
Qed.

(** X10. With non-negative votes whose sum is in int64 and not 0, the
    percentages add up to 100 within half a hundredth (and a rounding error
    below [10^-13]) per row. *)
Theorem pct_column_sum :
  forall (df : DataFrame),
    Forall (fun r => 0 <= Votos r) df ->
    total_votes df <= int64_max ->
    total_votes df <> 0 ->
    let s := sum_Q (map fin_value (pct_column df)) in
    let slack := (inject_Z (Z.of_nat (length df)) * ((1 # 200) + (1 # 10 ^ 13)))%Q in
    (s - 100 <= slack)%Q /\ (100 - s <= slack)%Q.
Proof.
  intros df Hnn Hb HT. cbv zeta.
  assert (HT0 : 0 <= total_votes df).
  { unfold total_votes. apply sum_Z_nonneg. now apply Forall_map. }
  assert (EW : total_votes_int64 df = total_votes df).
  { unfold total_votes_int64. apply int64_wrap_small. unfold int64_min. lia. }
  assert (Hall : Forall (fun r => 0 <= Votos r <= total_votes df) df).
  { apply Forall_forall. intros r Hr. apply In_nth_error in Hr. destruct Hr as [i Hi].
    split.
    - rewrite Forall_forall in Hnn. apply Hnn. eapply nth_error_In, Hi.
    - exact (vote_le_total df i r Hnn Hi). }
  destruct (pct_sum_near (total_votes df) df ltac:(lia) Hall) as [H1 H2].
  cbv zeta in H1, H2.
  unfold pct_column. rewrite map_map, EW.
  fold (total_votes df) in H1, H2.
  assert (E := true_div_same (total_votes df) HT).
  generalize dependent (true_div (total_votes df) (total_votes df)).
  generalize dependent (sum_Q (map (fun r => fin_value
      (fround2 (ffillna0 (fmul100 (series_div (Votos r) (total_votes df)))))) df)).
  intros s t H1 H2 E. rewrite E in H1, H2.
  change (1 # 10 ^ 13)%Q with (1 # 10000000000000)%Q in *. split; lra.
Qed.

Lemma pct_column_sum_witness :
  let s := sum_Q (map fin_value (pct_column ex_A)) in
  let slack := (inject_Z (Z.of_nat (length ex_A)) * ((1 # 200) + (1 # 10 ^ 13)))%Q in
  (s - 100 <= slack)%Q /\ (100 - s <= slack)%Q.
Proof.
  apply pct_column_sum.
  - repeat constructor; simpl; lia.
  - vm_compute. discriminate.
  - vm_compute. discriminate.
Defined.

(* ================================================================== *)
(** * The quotient matrix *)

(** C8. For P = 10 and Q = 41 the four largest quotients by 1..4 are those
    of Q (41/4 = 10.25 is larger than 10/1), and [dhondt] gives Q all four
    seats; the matrix displays 10/1 and 41/4 both as 10, ranks the displayed
    integers, and marks the cell of P by 1 instead of the cell of Q by 4. *)
Theorem top4_not_by_quotient :
  quotient_matrix_top4 nargsort ex_PQ =
    Some ([("P"%string, [10; 5; 3; 2]); ("Q"%string, [41; 20; 14; 10])],
          [("Q"%string, 1); ("Q"%string, 2); ("Q"%string, 3); ("P"%string, 1)]) /\
  top4_by_quotient ex_PQ =
    [("Q"%string, 1); ("Q"%string, 2); ("Q"%string, 3); ("Q"%string, 4)] /\
  is_stable stable_argsort /\
  (true_div 10 1 < true_div 41 4)%Q /\
  fst (dhondt_run ex_PQ 4) = [0; 4] /\
  ~ highlights_top4_by_quotient nargsort ex_PQ.
Proof.
  assert (E : quotient_matrix_top4 nargsort ex_PQ =
              Some ([("P"%string, [10; 5; 3; 2]); ("Q"%string, [41; 20; 14; 10])],
                    [("Q"%string, 1); ("Q"%string, 2); ("Q"%string, 3); ("P"%string, 1)]))
    by (vm_compute; reflexivity).
  assert (T : top4_by_quotient ex_PQ =
              [("Q"%string, 1); ("Q"%string, 2); ("Q"%string, 3); ("Q"%string, 4)])
    by (vm_compute; reflexivity).
  split; [exact E|]. split; [exact T|]. split; [exact stable_argsort_stable|].
  split; [reflexivity|]. split; [vm_compute; reflexivity|].
  intros (m_int & mask & Hq & Hmask).
  rewrite E in Hq. injection Hq as <- <-.
  assert (H4 : In ("Q"%string, 4) (top4_by_quotient ex_PQ))
    by (rewrite T; simpl; auto).
  apply Hmask in H4. simpl in H4.
  repeat (destruct H4 as [H4 | H4]; [discriminate|]). exact H4.
Qed.

(* ================================================================== *)
(** * The cells of the quotient matrix *)

Lemma set_at_nth m label d x i l c :
  nth_error m i = Some (l, c) ->
  nth_error (set_at m label d x) i =
  Some (l, if String.eqb l label
           then (fun d' => if d' =? d then Some x else c d')
           else c).
Proof.
  intros Hm. unfold set_at. rewrite nth_error_map, Hm. cbn [option_map fst snd].
  now destruct (String.eqb l label).
Qed.

Lemma fill_row_nth m r i l c :
  nth_error m i = Some (l, c) ->
  exists c',
    nth_error (fill_row m r) i = Some (l, c') /\
    forall d, In d divisores ->
      c' d = if String.eqb l (Partido r)
             then Some (Binary64.int_div (Votos r) d) else c d.
Proof.
  intros Hm. unfold fill_row, divisores. cbn [fold_left].
  eexists. split.
  - do 4 (eapply set_at_nth). exact Hm.
  - destruct (String.eqb l (Partido r)); [|reflexivity].
    intros d [<- | [<- | [<- | [<- | []]]]]; reflexivity.
Qed.

Lemma fill_rows_nth todo m i l c :
  nth_error m i = Some (l, c) ->
  exists c',
    nth_error (fold_left fill_row todo m) i = Some (l, c') /\
    forall d, In d divisores ->
      c' d = match last_votes l todo with
             | Some v => Some (Binary64.int_div v d)
             | None => c d
             end.
Proof.
  revert m c. induction todo as [|r t IH]; intros m c Hm; simpl.
  - exists c. auto.
  - destruct (fill_row_nth m r i l c Hm) as (c1 & H1 & Hc1).
    destruct (IH _ _ H1) as (c' & H' & Hc').
    exists c'. split; [exact H'|]. intros d Hd.
    rewrite (Hc' d Hd). destruct (last_votes l t); [reflexivity|].
    rewrite (Hc1 d Hd). now destruct (String.eqb l (Partido r)).
Qed.

Lemma fill_rows_length todo m : length (fold_left fill_row todo m) = length m.
Proof.
  revert m. induction todo as [|r t IH]; intros m; simpl; [reflexivity|].
  rewrite IH. unfold fill_row, divisores, set_at. cbn [fold_left].
  now rewrite !length_map.
Qed.

Lemma last_votes_absent l todo :
  ~ In l (map Partido todo) -> last_votes l todo = None.
Proof.
  induction todo as [|r t IH]; simpl; intros H; [reflexivity|].
  rewrite IH by tauto.
  destruct (String.eqb_spec l (Partido r)); [|reflexivity].
  exfalso. apply H. now left.
Qed.

Lemma last_votes_unique df_ r :
  NoDup (map Partido df_) -> In r df_ ->
  last_votes (Partido r) df_ = Some (Votos r).
Proof.
  induction df_ as [|x t IH]; simpl; intros Hnd Hin; [tauto|].
  inversion Hnd as [|? ? Hx Ht]; subst. destruct Hin as [-> | Hin].
  - rewrite last_votes_absent by assumption. now rewrite String.eqb_refl.
  - now rewrite IH.
Qed.

Lemma Forall2_from_nth {A B : Type} (R : A -> B -> Prop) l l' :
  length l = length l' ->
  (forall i b, nth_error l' i = Some b ->
               exists a, nth_error l i = Some a /\ R a b) ->
  Forall2 R l l'.
Proof.
  revert l'. induction l as [|a l IH]; intros [|b l'] Hlen H; simpl in Hlen;
    try discriminate; constructor.
  - destruct (H O b eq_refl) as (a' & Ha & HR). simpl in Ha. now injection Ha as <-.
  - apply IH; [lia|]. intros i b' Hb. exact (H (S i) b' Hb).
Qed.

(** With distinct names every row of the matrix holds the four double
    quotients of its vote row. *)
Lemma fill_matrix_rows df_ :
  NoDup (map Partido df_) ->
  Forall2 (fun (lc : string * (Z -> option Q)) r =>
             fst lc = Partido r /\
             forall d, In d divisores ->
                       snd lc d = Some (Binary64.int_div (Votos r) d))
          (fill_matrix df_) df_.
Proof.
  intros Hnd. apply Forall2_from_nth.
  - unfold fill_matrix. now rewrite fill_rows_length, length_map.
  - intros i r Hr.
    unfold fill_matrix.
    destruct (fill_rows_nth df_ (map (fun r => (Partido r, fun _ : Z => @None Q)) df_)
                i (Partido r) (fun _ => None)) as (c' & Hc & Hd).
    { now rewrite nth_error_map, Hr. }
    exists (Partido r, c'). split; [exact Hc|]. split; [reflexivity|].
    intros d Hdiv. cbn [snd]. rewrite (Hd d Hdiv).
    rewrite (last_votes_unique df_ r Hnd); [reflexivity|].
    eapply nth_error_In, Hr.
Qed.

(** What a cell displays: at most the votes of its row. *)
Lemma displayed_le_votes v d :
  0 <= v < 2 ^ 53 -> 1 <= d ->
  0 <= round_half_even (Binary64.int_div v d) <= v.
Proof.
  intros Hv Hd. split.
  - apply round_half_even_nonneg. unfold Binary64.int_div. apply round_nonneg.
    apply Qle_shift_div_l.
    + change 0%Q with (inject_Z 0). rewrite <- Zlt_Qlt. lia.
    + rewrite Qmult_0_l. change 0%Q with (inject_Z 0). rewrite <- Zle_Qle. lia.
  - rewrite <- (round_half_even_int v) at 2.
    apply round_half_even_mono. rewrite <- (int_div_one v Hv).
    apply int_div_le_divisor; lia.
Qed.

Lemma displayed_lt_votes v d :
  1 <= v < 2 ^ 53 -> 2 <= d <= 4 ->
  round_half_even (Binary64.int_div v d) < v.
Proof.
  intros Hv Hd.
  destruct (Z.eq_dec v 1) as [-> | Hv1].
  - assert (d = 2 \/ d = 3 \/ d = 4) as [-> | [-> | ->]] by lia; vm_compute; reflexivity.
  - assert (Hnear := proj1 (round_half_even_near (Binary64.int_div v d))).
    assert (Hle := int_div_le_divisor v 2 d ltac:(lia) ltac:(lia)).
    assert (PV : (2 <= inject_Z v)%Q).
    { change 2%Q with (inject_Z 2). rewrite <- Zle_Qle. lia. }
    assert (BV : (inject_Z v <= 9007199254740992)%Q).
    { change 9007199254740992%Q with (inject_Z (2 ^ 53)). rewrite <- Zle_Qle. lia. }
    assert (Eh : (inject_Z v / inject_Z 2 == inject_Z v * (1 # 2))%Q)
      by (change (inject_Z 2) with 2%Q; field).
    assert (H0 : (0 <= inject_Z v / inject_Z 2)%Q) by (rewrite Eh; lra).
    destruct (round_error (inject_Z v / inject_Z 2) (inject_Z v * (1 # 2)) H0)
      as [E1 _]; [rewrite Eh; apply Qle_refl|].
    fold (Binary64.int_div v 2) in E1. rewrite Eh in E1.
    rewrite Zlt_Qlt.
    generalize dependent (inject_Z (round_half_even (Binary64.int_div v d))).
    generalize dependent (Binary64.int_div v d).
    generalize dependent (Binary64.int_div v 2).
    generalize dependent (inject_Z v).
    intros V PV BV _ _ h2 E1 hd Hle z Hnear.
    change (1 # 2 ^ 53)%Q with (1 # 9007199254740992)%Q in E1. lra.
Qed.

Lemma round_astype_int_rows m df_ :
  Forall (fun r => 0 <= Votos r < 2 ^ 53) df_ ->
  Forall2 (fun (lc : string * (Z -> option Q)) r =>
             fst lc = Partido r /\
             forall d, In d divisores ->
                       snd lc d = Some (Binary64.int_div (Votos r) d))
          m df_ ->
  round_astype_int m = Some (rounded_matrix df_).
Proof.
  unfold round_astype_int, rounded_matrix. intros Hb H. revert Hb.
  induction H as [|lc r m df' [Hl Hc] _ IH]; intros Hb; [reflexivity|].
  inversion Hb as [|? ? Hr Hb']; subst.
  cbn [map all_some]. unfold divisores at 1. cbn [map all_some].
  rewrite !Hc by (unfold divisores; simpl; auto).
  rewrite (IH Hb'), Hl. unfold divisores. cbn [map].
  assert (Hcast : forall d, 1 <= d ->
            cast_int64 (inject_Z (round_half_even (Binary64.int_div (Votos r) d)))
            = round_half_even (Binary64.int_div (Votos r) d)).
  { intros d Hd. apply cast_int64_inject.
    assert (H := displayed_le_votes (Votos r) d Hr Hd).
    unfold int64_min, int64_max. lia. }
  now rewrite !Hcast by lia.
Qed.

Lemma quotient_matrix_top4_value argsort df_ :
  NoDup (map Partido df_) ->
  Forall (fun r => 0 <= Votos r < 2 ^ 53) df_ ->
  quotient_matrix_top4 argsort df_ =
  Some (rounded_matrix df_,
        map fst (firstn 4 (sort_values argsort
                             (fun c : (string * Z) * Z => inject_Z (snd c))
                             (stack (rounded_matrix df_))))).
Proof.
  intros Hnd Hb. unfold quotient_matrix_top4.
  now rewrite (round_astype_int_rows _ _ Hb (fill_matrix_rows df_ Hnd)).
Qed.

Lemma stack_In df_ c :
  In c (stack (rounded_matrix df_)) <->
  exists r d, In r df_ /\ In d divisores /\
              c = ((Partido r, d), round_half_even (Binary64.int_div (Votos r) d)).
Proof.
  unfold stack, rounded_matrix. rewrite flat_map_concat_map, map_map, <- flat_map_concat_map.
  rewrite in_flat_map. cbn [fst snd]. split.
  - intros (r & Hr & Hc). exists r. unfold divisores in *. cbn [map combine] in Hc.
    simpl in Hc.
    destruct Hc as [<- | [<- | [<- | [<- | []]]]]; eexists; (split; [exact Hr|]);
      (split; [|reflexivity]); simpl; auto.
  - intros (r & d & Hr & Hd & ->). exists r. split; [exact Hr|].
    unfold divisores in *. cbn [map combine].
    destruct Hd as [<- | [<- | [<- | [<- | []]]]]; simpl; auto.
Qed.

Lemma NoDup_map_eq {A B : Type} (f : A -> B) l a b :
  NoDup (map f l) -> In a l -> In b l -> f a = f b -> a = b.
Proof.
  induction l as [|x l IH]; simpl; intros Hnd Ha Hb E; [tauto|].
  inversion Hnd as [|? ? Hx Hl]; subst.
  destruct Ha as [-> | Ha], Hb as [-> | Hb]; auto.
  - exfalso. apply Hx. rewrite E. now apply in_map.
  - exfalso. apply Hx. rewrite <- E. now apply in_map.
Qed.

Lemma sort_values_sorted_by {A : Type} argsort (key : A -> Q) (l : list A) :
  is_argsort argsort ->
  StronglySorted (fun x y => (key y <= key x)%Q) (sort_values argsort key l).
Proof.
  intros Hsort. apply Sorted_StronglySorted.
  - intros x y z Hxy Hyz. eapply Qle_trans; eauto.
  - unfold sort_values.
    apply (Sorted_map_inv (fun a b => (b <= a)%Q) key).
    rewrite take_map. apply (argsort_desc _ Hsort).
Qed.

Lemma displayed_one v : 0 <= v < 2 ^ 53 -> round_half_even (Binary64.int_div v 1) = v.
Proof. intros Hv. rewrite (int_div_one v Hv). apply round_half_even_int. Qed.

Lemma cell_eq_dec (a b : string * Z) : {a = b} + {a <> b}.
Proof. decide equality; [apply Z.eq_dec | apply string_dec]. Qed.

(** X13. With distinct names and votes between 0 and [2^53 - 1], the row
    that has strictly more votes than every other row, and at least one
    vote, always has its first cell (its votes divided by 1) marked. *)
Theorem leading_cell_marked :
  forall argsort (df_ : DataFrame) (r : Row),
    is_argsort argsort ->
    NoDup (map Partido df_) ->
    Forall (fun x => 0 <= Votos x < 2 ^ 53) df_ ->
    In r df_ -> 1 <= Votos r ->
    (forall x, In x df_ -> x <> r -> Votos x < Votos r) ->
    exists m_int mask,
      quotient_matrix_top4 argsort df_ = Some (m_int, mask) /\
      In (Partido r, 1) mask.
Proof.
  intros argsort df_ r Hsort Hnd Hnn Hr Hv Hmax.
  rewrite (quotient_matrix_top4_value argsort df_ Hnd Hnn).
  eexists. eexists. split; [reflexivity|].
  set (cells := stack (rounded_matrix df_)).
  set (key := fun c : (string * Z) * Z => inject_Z (snd c)).
  set (sorted := sort_values argsort key cells).
  assert (Hperm : Permutation sorted cells) by (apply sort_values_Permutation, Hsort).
  assert (Hss := sort_values_sorted_by argsort key cells Hsort). fold sorted in Hss.
  assert (Hrb : 0 <= Votos r < 2 ^ 53) by (rewrite Forall_forall in Hnn; now apply Hnn).
  set (c0 := ((Partido r, 1), Votos r)).
  assert (Hc0 : In c0 cells).
  { apply stack_In. exists r, 1. split; [exact Hr|]. split; [simpl; auto|].
    unfold c0. now rewrite displayed_one. }
  assert (Hothers : forall w, In w cells -> w <> c0 -> snd w < Votos r).
  { intros w Hw Hne. apply stack_In in Hw. destruct Hw as (x & d & Hx & Hd & ->).
    cbn [snd].
    assert (Hd14 : 1 <= d <= 4) by (unfold divisores in Hd; simpl in Hd; lia).
    assert (Hx0 : 0 <= Votos x < 2 ^ 53) by (rewrite Forall_forall in Hnn; now apply Hnn).
    destruct (string_dec (Partido x) (Partido r)) as [En | Nn].
    - assert (x = r) by (apply (NoDup_map_eq Partido df_); assumption). subst x.
      assert (d <> 1).
      { intros ->. apply Hne. unfold c0. now rewrite displayed_one. }
      apply displayed_lt_votes; lia.
    - assert (Hxr : x <> r) by congruence.
      assert (Hlt := Hmax x Hx Hxr).
      assert (Hle := displayed_le_votes (Votos x) d Hx0 ltac:(lia)). lia. }
  destruct (in_dec cell_eq_dec (Partido r, 1) (map fst (firstn 4 sorted)))
    as [Hin | Hnot]; [exact Hin | exfalso].
  assert (Hs0 : In c0 sorted) by (apply (Permutation_in _ (Permutation_sym Hperm)), Hc0).
  assert (HL : In c0 (skipn 4 sorted)).
  { rewrite <- (firstn_skipn 4 sorted) in Hs0. apply in_app_or in Hs0.
    destruct Hs0 as [Hw | Hl]; [|exact Hl].
    exfalso. apply Hnot. change (Partido r, 1) with (fst c0). now apply in_map. }
  destruct sorted as [|w t] eqn:Es; [destruct Hs0|].
  assert (HW : In w (firstn 4 (w :: t))) by (simpl; auto).
  assert (Hord := StronglySorted_app_order (fun a b => (key b <= key a)%Q)
                    (firstn 4 (w :: t)) (skipn 4 (w :: t))).
  rewrite firstn_skipn in Hord. specialize (Hord Hss w c0 HW HL).
  unfold key in Hord. rewrite <- Zle_Qle in Hord. cbn [snd] in Hord.
  assert (Hwc : In w cells) by (apply (Permutation_in _ Hperm); simpl; auto).
  assert (Hne : w <> c0).
  { intros ->. apply Hnot. change (Partido r, 1) with (fst c0). now apply in_map. }
  assert (Hlt := Hothers w Hwc Hne). unfold c0 in Hord. cbn [snd] in Hord. lia.
Qed.

Lemma leading_cell_marked_witness :
  exists m_int mask,
    quotient_matrix_top4 stable_argsort ex_PQ = Some (m_int, mask) /\
    In (Partido (mkRow "Q" 41), 1) mask.
Proof.
  apply leading_cell_marked.
  - exact stable_argsort_ok.
  - repeat constructor; simpl; intuition discriminate.
  - repeat constructor; simpl; lia.
  - simpl. auto.
  - simpl. lia.
  - intros x [<- | [<- | []]] Hx; simpl; [lia | congruence].
Defined.
